(** * Coverage.js: range reduction and the JS / CSS coverage collectors

    A shallow embedding of
    [vendor/puppeteer-core/puppeteer/common/Coverage.js]:
    the pure function [convertToDisjointRanges], and the two collector
    classes [JSCoverage] and [CSSCoverage] as explicit state passing, one
    function per run of statements between two [await]s.  What the engine
    decides is a parameter: the number of arguments one call takes, and for
    [HTTPResponse.js], modelled further down, the library functions and
    whether [Object.prototype] has its [__proto__] accessor. *)

From Stdlib Require Import ZArith List Bool String Ascii Lia.
From Stdlib Require Import Sorting.Permutation Sorting.Sorted.
Import ListNotations.
Open Scope Z_scope.

Set Implicit Arguments.

(* ================================================================== *)
(** * JavaScript arrays, as lists in index order *)
(* ================================================================== *)

Module JSArray.

(** [a[a.length - 1]], [None] when the array is empty. *)
Fixpoint last {A : Type} (a : list A) : option A :=
  match a with
  | [] => None
  | [x] => Some x
  | _ :: rest => last rest
  end.

(** [a.push(x)]. *)
Definition push {A : Type} (a : list A) (x : A) : list A := a ++ [x].

(** [a.pop()]: the array without its last element; an empty array stays
    empty. *)
Definition pop {A : Type} (a : list A) : list A := removelast a.

(** [Array.prototype.sort(comparefn)].  With a consistent comparator the
    language fixes the result: the stable ordering, an element [x] going
    before [y] when [comparefn x y <= 0] and [x] came first.  Rendered as
    stable insertion from the right; the comparator of the reducer is shown
    consistent in [before_total] and [before_trans]. *)
Fixpoint insert {A : Type} (comparefn : A -> A -> Z) (x : A) (a : list A)
  : list A :=
  match a with
  | [] => [x]
  | y :: rest =>
      if comparefn x y <=? 0 then x :: y :: rest
      else y :: insert comparefn x rest
  end.

Fixpoint sort {A : Type} (comparefn : A -> A -> Z) (a : list A) : list A :=
  match a with
  | [] => []
  | x :: rest => insert comparefn x (sort comparefn rest)
  end.

End JSArray.

(* ================================================================== *)
(** * JavaScript [Map] with string keys, in insertion order *)
(* ================================================================== *)

Module JSMap.

Definition t (V : Type) : Type := list (string * V).

(** [new Map()], and what [m.clear()] leaves. *)
Definition empty {V : Type} : t V := [].

Definition clear {V : Type} (m : t V) : t V := [].

(** [m.get(k)]; [None] is [undefined]. *)
Fixpoint get {V : Type} (m : t V) (k : string) : option V :=
  match m with
  | [] => None
  | (k', v) :: rest => if String.eqb k' k then Some v else get rest k
  end.

(** [m.set(k, v)]: a known key keeps its place, a new one goes last. *)
Fixpoint set {V : Type} (m : t V) (k : string) (v : V) : t V :=
  match m with
  | [] => [(k, v)]
  | (k', v') :: rest =>
      if String.eqb k' k then (k', v) :: rest else (k', v') :: set rest k v
  end.

(** [m.keys()], in iteration order. *)
Definition keys {V : Type} (m : t V) : list string := map fst m.

End JSMap.

(* ================================================================== *)
(** * The range reducer: [convertToDisjointRanges] *)
(* ================================================================== *)

(** A protocol range [{startOffset, endOffset, count}]. *)
Record CoverageRange : Type := mkCoverageRange
  { startOffset : Z; endOffset : Z; count : Z }.

(** An output range [{start, end}]. *)
Record Range : Type := mkRange { start : Z; end_ : Z }.

(** A sweep point [{offset, type, range}]; [type] is 0 for the start of
    [range] and 1 for its end. *)
Record Point : Type := mkPoint { offset : Z; type : Z; range : CoverageRange }.

(** The first loop: two points per range, in input order. *)
Fixpoint points_of (nestedRanges : list CoverageRange) : list Point :=
  match nestedRanges with
  | [] => []
  | r :: rest =>
      mkPoint (startOffset r) 0 r :: mkPoint (endOffset r) 1 r
        :: points_of rest
  end.

(** The comparator handed to [points.sort]. *)
Definition compare (a b : Point) : Z :=
  if negb (offset a =? offset b) then offset a - offset b
  else if negb (type a =? type b) then type b - type a
  else
    let aLength := endOffset (range a) - startOffset (range a) in
    let bLength := endOffset (range b) - startOffset (range b) in
    if type a =? 0 then bLength - aLength else aLength - bLength.

(** The three locals of the scanning loop. *)
Record Sweep : Type := mkSweep
  { hitCountStack : list Z; results : list Range; lastOffset : Z }.

Definition sweep_init : Sweep := mkSweep [] [] 0.

(** The guard of the loop body:
    [hitCountStack.length && lastOffset < point.offset && top > 0]. *)
Definition records (s : Sweep) (point : Point) : bool :=
  match JSArray.last (hitCountStack s) with
  | None => false
  | Some topCount => (lastOffset s <? offset point) && (0 <? topCount)
  end.

(** The guarded block: grow the last result when it ends at [lastOffset],
    push a new one otherwise. *)
Definition record_segment (s : Sweep) (point : Point) : list Range :=
  match JSArray.last (results s) with
  | Some lastResult =>
      if end_ lastResult =? lastOffset s
      then JSArray.push (JSArray.pop (results s))
             (mkRange (start lastResult) (offset point))
      else JSArray.push (results s) (mkRange (lastOffset s) (offset point))
  | None => JSArray.push (results s) (mkRange (lastOffset s) (offset point))
  end.

(** One iteration of [for (const point of points)]. *)
Definition scan (s : Sweep) (point : Point) : Sweep :=
  mkSweep
    (if type point =? 0
     then JSArray.push (hitCountStack s) (count (range point))
     else JSArray.pop (hitCountStack s))
    (if records s point then record_segment s point else results s)
    (offset point).

Definition sweep (points : list Point) : Sweep :=
  fold_left scan points sweep_init.

(** The predicate of the final [results.filter]. *)
Definition wide (r : Range) : bool := 1 <? end_ r - start r.

Definition convertToDisjointRanges (nestedRanges : list CoverageRange)
  : list Range :=
  let points := JSArray.sort compare (points_of nestedRanges) in
  filter wide (results (sweep points)).

(* ================================================================== *)
(** * What a call or an awaited command comes to *)
(* ================================================================== *)

Inductive Exception : Type :=
| InvalidStateError (message : string)
| ProtocolError (message : string)
| RangeError.

Inductive Completion (A : Type) : Type :=
| Return (value : A)
| Throw (error : Exception).

Arguments Return {A} value.
Arguments Throw {A} error.

(** A [for ... of] loop over an array, with a body that can throw: the
    loop ends at the first throw, which is the loop's. *)
Fixpoint for_of {A B : Type} (body : B -> A -> Completion B) (items : list A)
  (acc : B) : Completion B :=
  match items with
  | [] => Return acc
  | item :: rest =>
      match body acc item with
      | Return acc' => for_of body rest acc'
      | Throw e => Throw e
      end
  end.

(** Modelled from the spec: [assert] of [./assert.js], which is not among
    the sources.  A false condition fails the call with the usage error the
    spec names [InvalidStateError], carrying the message. *)
Definition assert (value : bool) (message : string) : Completion unit :=
  if value then Return tt else Throw (InvalidStateError message).

(** Modelled from the spec: [helper.addEventListener] of [./helper.js],
    which is not among the sources.  It subscribes a listener to an event of
    the session; the subscription is kept as the name of the event. *)
Definition addEventListener (eventName : string) : string := eventName.

(** Modelled from the spec: [helper.removeEventListeners] of [./helper.js],
    which is not among the sources.  It unsubscribes all the listeners it is
    given; none is left. *)
Definition removeEventListeners (listeners : list string) : list string := [].

(** JavaScript truthiness of a string, and of a string that may be
    [undefined]. *)
Definition truthy (s : string) : bool := negb (String.eqb s "").

Definition truthy_opt (s : option string) : bool :=
  match s with
  | Some s => truthy s
  | None => false
  end.

(** [remove_first eqb x l]: [l] without its first element equal to [x]. *)
Fixpoint remove_first {A : Type} (eqb : A -> A -> bool) (x : A) (l : list A)
  : list A :=
  match l with
  | [] => []
  | y :: rest => if eqb x y then rest else y :: remove_first eqb x rest
  end.

(* ================================================================== *)
(** * [class JSCoverage] *)
(* ================================================================== *)

Module JSCoverage.

(** The fields of the object; [_client] is the protocol session, whose
    replies the functions below take as arguments. *)
Record t : Type := mk
  { _enabled : bool;
    _scriptURLs : JSMap.t string;
    _scriptSources : JSMap.t string;
    _eventListeners : list string;
    _resetOnNavigation : bool;
    _reportAnonymousScripts : bool;
    _includeRawScriptCoverage : bool }.

(** [constructor(client)]. *)
Definition new : t := mk false JSMap.empty JSMap.empty [] false false false.

(** The [options] object of [start]; [None] is a property left out. *)
Record Options : Type := mkOptions
  { resetOnNavigation : option bool;
    reportAnonymousScripts : option bool;
    includeRawScriptCoverage : option bool }.

Definition default (d : bool) (o : option bool) : bool :=
  match o with
  | Some b => b
  | None => d
  end.

(** The [Debugger.scriptParsed] event. *)
Record ScriptParsedEvent : Type := mkScriptParsedEvent
  { event_scriptId : string; event_url : string }.

(** One element of [Profiler.takePreciseCoverage]'s [result]. *)
Record FunctionCoverage : Type := mkFunctionCoverage
  { functionName : string;
    func_ranges : list CoverageRange;
    isBlockCoverage : bool }.

Record ScriptCoverage : Type := mkScriptCoverage
  { entry_scriptId : string;
    entry_url : string;
    functions : list FunctionCoverage }.

Record ProfileResponse : Type := mkProfileResponse
  { result : list ScriptCoverage }.

(** An element of the report. *)
Record CoverageEntry : Type := mkCoverageEntry
  { url : string;
    ranges : list Range;
    text : string;
    rawScriptCoverage : option ScriptCoverage }.

Section WithEvaluationScriptURL.

(** [EVALUATION_SCRIPT_URL] of [./ExecutionContext.js], which is not among
    the sources. *)
Variable EVALUATION_SCRIPT_URL : string.

(** The number of arguments the engine takes in one call.  A call written
    with a spread passes every element of the array as an argument, and the
    engine throws a [RangeError] when they are more than it takes; the code
    does not look at the number of ranges it spreads. *)
Variable arguments_limit : Z.

(** [start(options)].  [settled] is what the awaited [Promise.all] of the
    four commands comes to; nothing is written after it. *)
Definition start (this : t) (options : Options) (settled : Completion unit)
  : Completion unit * t :=
  match assert (negb (_enabled this)) "JSCoverage is already enabled" with
  | Throw e => (Throw e, this)
  | Return _ =>
      (settled,
       {| _enabled := true;
          _scriptURLs := JSMap.clear (_scriptURLs this);
          _scriptSources := JSMap.clear (_scriptSources this);
          _eventListeners :=
            [addEventListener "Debugger.scriptParsed";
             addEventListener "Runtime.executionContextsCleared"];
          _resetOnNavigation := default true (resetOnNavigation options);
          _reportAnonymousScripts :=
            default false (reportAnonymousScripts options);
          _includeRawScriptCoverage :=
            default false (includeRawScriptCoverage options) |})
  end.

Definition _onExecutionContextsCleared (this : t) : t :=
  if negb (_resetOnNavigation this) then this
  else
    {| _enabled := _enabled this;
       _scriptURLs := JSMap.clear (_scriptURLs this);
       _scriptSources := JSMap.clear (_scriptSources this);
       _eventListeners := _eventListeners this;
       _resetOnNavigation := _resetOnNavigation this;
       _reportAnonymousScripts := _reportAnonymousScripts this;
       _includeRawScriptCoverage := _includeRawScriptCoverage this |}.

(** [_onScriptParsed(event)] up to its [await]: [true] when
    [Debugger.getScriptSource] is sent, [false] when the listener returns
    at one of the two guards. *)
Definition _onScriptParsed_sends (this : t) (event : ScriptParsedEvent)
  : bool :=
  if String.eqb (event_url event) EVALUATION_SCRIPT_URL then false
  else if negb (truthy (event_url event)) && negb (_reportAnonymousScripts this)
  then false
  else true.

(** [_onScriptParsed(event)] from its [await] on: [response] is the
    [scriptSource] received, or the error that [catch] hands to
    [debugError], which only logs it. *)
Definition _onScriptParsed_resume (this : t) (event : ScriptParsedEvent)
  (response : Completion string) : t :=
  match response with
  | Return scriptSource =>
      {| _enabled := _enabled this;
         _scriptURLs :=
           JSMap.set (_scriptURLs this) (event_scriptId event) (event_url event);
         _scriptSources :=
           JSMap.set (_scriptSources this) (event_scriptId event) scriptSource;
         _eventListeners := _eventListeners this;
         _resetOnNavigation := _resetOnNavigation this;
         _reportAnonymousScripts := _reportAnonymousScripts this;
         _includeRawScriptCoverage := _includeRawScriptCoverage this |}
  | Throw _ => this
  end.

(** [stop()] up to its [await]. *)
Definition stop_begin (this : t) : Completion unit * t :=
  match assert (_enabled this) "JSCoverage is not enabled" with
  | Throw e => (Throw e, this)
  | Return _ =>
      (Return tt,
       {| _enabled := false;
          _scriptURLs := _scriptURLs this;
          _scriptSources := _scriptSources this;
          _eventListeners := _eventListeners this;
          _resetOnNavigation := _resetOnNavigation this;
          _reportAnonymousScripts := _reportAnonymousScripts this;
          _includeRawScriptCoverage := _includeRawScriptCoverage this |})
  end.

(** [a.push(...items)]: the call has one argument for each element of
    [items]. *)
Definition push_spread {A : Type} (a items : list A) : Completion (list A) :=
  if Z.of_nat (List.length items) <=? arguments_limit
  then Return (a ++ items)
  else Throw RangeError.

(** The inner loop [for (const func of entry.functions)], from the empty
    [flattenRanges]. *)
Definition flatten (entry : ScriptCoverage) : Completion (list CoverageRange) :=
  for_of (fun flattenRanges func => push_spread flattenRanges (func_ranges func))
    (functions entry) [].

(** The body of [for (const entry of profileResponse.result)]; the
    [continue] comes before the inner loop. *)
Definition stop_entry (this : t) (coverage : list CoverageEntry)
  (entry : ScriptCoverage) : Completion (list CoverageEntry) :=
  let url := JSMap.get (_scriptURLs this) (entry_scriptId entry) in
  let url :=
    if negb (truthy_opt url) && _reportAnonymousScripts this
    then Some ("debugger://VM" ++ entry_scriptId entry)%string
    else url in
  let text := JSMap.get (_scriptSources this) (entry_scriptId entry) in
  match text, url with
  | Some text, Some url =>
      match flatten entry with
      | Throw e => Throw e
      | Return flattenRanges =>
          let ranges := convertToDisjointRanges flattenRanges in
          if negb (_includeRawScriptCoverage this)
          then Return (JSArray.push coverage (mkCoverageEntry url ranges text None))
          else Return (JSArray.push coverage
                         (mkCoverageEntry url ranges text (Some entry)))
      end
  | _, _ => Return coverage
  end.

(** [stop()] from its [await] on: [settled] is what [Promise.all] comes
    to, its first component when it fulfils.  A throw of the loop is the
    call's, after the listeners were removed. *)
Definition stop_resume (this : t) (settled : Completion ProfileResponse)
  : Completion (list CoverageEntry) * t :=
  match settled with
  | Throw e => (Throw e, this)
  | Return profileResponse =>
      let this' :=
        {| _enabled := _enabled this;
           _scriptURLs := _scriptURLs this;
           _scriptSources := _scriptSources this;
           _eventListeners := removeEventListeners (_eventListeners this);
           _resetOnNavigation := _resetOnNavigation this;
           _reportAnonymousScripts := _reportAnonymousScripts this;
           _includeRawScriptCoverage := _includeRawScriptCoverage this |} in
      (for_of (stop_entry this') (result profileResponse) [], this')
  end.

(** [stop()] when nothing else runs while it waits. *)
Definition stop (this : t) (settled : Completion ProfileResponse)
  : Completion (list CoverageEntry) * t :=
  match stop_begin this with
  | (Throw e, this') => (Throw e, this')
  | (Return _, this') => stop_resume this' settled
  end.

(** ** The collector among the events of a page

    What can happen to a collector, one action per run of statements
    between two [await]s.  The session decides which of them happen and in
    which order; a source can only arrive for an event whose listener sent
    for it, and a [stop] can only resume after it was called. *)
Inductive Action : Type :=
| Start (options : Options) (settled : Completion unit)
| ScriptParsed (event : ScriptParsedEvent)
| ScriptSource (event : ScriptParsedEvent) (response : Completion string)
| ExecutionContextsCleared
| StopCalled
| StopSettled (settled : Completion ProfileResponse).

Record World : Type := mkWorld
  { collector : t;
    fetching : list ScriptParsedEvent;
    stopping : nat }.

Definition fresh : World := mkWorld new [] 0.

Inductive Observation : Type :=
| Silent
| Started (outcome : Completion unit)
| Stopped (outcome : Completion (list CoverageEntry)).

Definition event_eqb (a b : ScriptParsedEvent) : bool :=
  String.eqb (event_scriptId a) (event_scriptId b)
  && String.eqb (event_url a) (event_url b).

Definition step (w : World) (a : Action) : option (World * Observation) :=
  match a with
  | Start options settled =>
      let (outcome, this) := start (collector w) options settled in
      Some (mkWorld this (fetching w) (stopping w), Started outcome)
  | ScriptParsed event =>
      if _onScriptParsed_sends (collector w) event
      then Some (mkWorld (collector w) (event :: fetching w) (stopping w),
                 Silent)
      else Some (w, Silent)
  | ScriptSource event response =>
      if existsb (event_eqb event) (fetching w)
      then Some (mkWorld (_onScriptParsed_resume (collector w) event response)
                   (remove_first event_eqb event (fetching w)) (stopping w),
                 Silent)
      else None
  | ExecutionContextsCleared =>
      Some (mkWorld (_onExecutionContextsCleared (collector w))
              (fetching w) (stopping w), Silent)
  | StopCalled =>
      match stop_begin (collector w) with
      | (Throw e, this) =>
          Some (mkWorld this (fetching w) (stopping w), Stopped (Throw e))
      | (Return _, this) =>
          Some (mkWorld this (fetching w) (S (stopping w)), Silent)
      end
  | StopSettled settled =>
      match stopping w with
      | O => None
      | S n =>
          let (outcome, this) := stop_resume (collector w) settled in
          Some (mkWorld this (fetching w) n, Stopped outcome)
      end
  end.

Fixpoint run (w : World) (actions : list Action)
  : option (World * list Observation) :=
  match actions with
  | [] => Some (w, [])
  | a :: rest =>
      match step w a with
      | None => None
      | Some (w', o) =>
          match run w' rest with
          | None => None
          | Some (w'', os) => Some (w'', o :: os)
          end
      end
  end.

End WithEvaluationScriptURL.

End JSCoverage.

(* ================================================================== *)
(** * [class CSSCoverage] *)
(* ================================================================== *)

Module CSSCoverage.

Record t : Type := mk
  { _enabled : bool;
    _stylesheetURLs : JSMap.t string;
    _stylesheetSources : JSMap.t string;
    _eventListeners : list string;
    _resetOnNavigation : bool;
    _reportAnonymousScripts : bool }.

(** [constructor(client)]. *)
Definition new : t := mk false JSMap.empty JSMap.empty [] false false.

Record Options : Type := mkOptions { resetOnNavigation : option bool }.

(** The [CSS.styleSheetAdded] event, [{header: {styleSheetId, sourceURL}}]. *)
Record StyleSheetHeader : Type := mkStyleSheetHeader
  { styleSheetId : string; sourceURL : string }.

Record StyleSheetAddedEvent : Type := mkStyleSheetAddedEvent
  { header : StyleSheetHeader }.

(** One element of [CSS.stopRuleUsageTracking]'s [ruleUsage]. *)
Record RuleUsage : Type := mkRuleUsage
  { rule_styleSheetId : string;
    rule_startOffset : Z;
    rule_endOffset : Z;
    used : bool }.

Record RuleTrackingResponse : Type := mkRuleTrackingResponse
  { ruleUsage : list RuleUsage }.

(** An element of the report; [url] and [text] are what [Map.get] gave,
    [None] for [undefined]. *)
Record CoverageEntry : Type := mkCoverageEntry
  { url : option string;
    ranges : list Range;
    text : option string }.

(** [start(options)]; [settled] is what the awaited [Promise.all] of the
    three commands comes to. *)
Definition start (this : t) (options : Options) (settled : Completion unit)
  : Completion unit * t :=
  match assert (negb (_enabled this)) "CSSCoverage is already enabled" with
  | Throw e => (Throw e, this)
  | Return _ =>
      (settled,
       {| _enabled := true;
          _stylesheetURLs := JSMap.clear (_stylesheetURLs this);
          _stylesheetSources := JSMap.clear (_stylesheetSources this);
          _eventListeners :=
            [addEventListener "CSS.styleSheetAdded";
             addEventListener "Runtime.executionContextsCleared"];
          _resetOnNavigation :=
            match resetOnNavigation options with
            | Some b => b
            | None => true
            end;
          _reportAnonymousScripts := _reportAnonymousScripts this |})
  end.

Definition _onExecutionContextsCleared (this : t) : t :=
  if negb (_resetOnNavigation this) then this
  else
    {| _enabled := _enabled this;
       _stylesheetURLs := JSMap.clear (_stylesheetURLs this);
       _stylesheetSources := JSMap.clear (_stylesheetSources this);
       _eventListeners := _eventListeners this;
       _resetOnNavigation := _resetOnNavigation this;
       _reportAnonymousScripts := _reportAnonymousScripts this |}.

(** [_onStyleSheet(event)] up to its [await]: [true] when
    [CSS.getStyleSheetText] is sent. *)
Definition _onStyleSheet_sends (this : t) (event : StyleSheetAddedEvent)
  : bool :=
  if negb (truthy (sourceURL (header event))) then false else true.

(** [_onStyleSheet(event)] from its [await] on. *)
Definition _onStyleSheet_resume (this : t) (event : StyleSheetAddedEvent)
  (response : Completion string) : t :=
  match response with
  | Return text =>
      {| _enabled := _enabled this;
         _stylesheetURLs :=
           JSMap.set (_stylesheetURLs this) (styleSheetId (header event))
             (sourceURL (header event));
         _stylesheetSources :=
           JSMap.set (_stylesheetSources this) (styleSheetId (header event))
             text;
         _eventListeners := _eventListeners this;
         _resetOnNavigation := _resetOnNavigation this;
         _reportAnonymousScripts := _reportAnonymousScripts this |}
  | Throw _ => this
  end.

(** [stop()] up to its first [await]. *)
Definition stop_begin (this : t) : Completion unit * t :=
  match assert (_enabled this) "CSSCoverage is not enabled" with
  | Throw e => (Throw e, this)
  | Return _ =>
      (Return tt,
       {| _enabled := false;
          _stylesheetURLs := _stylesheetURLs this;
          _stylesheetSources := _stylesheetSources this;
          _eventListeners := _eventListeners this;
          _resetOnNavigation := _resetOnNavigation this;
          _reportAnonymousScripts := _reportAnonymousScripts this |})
  end.

(** The body of [for (const entry of ruleTrackingResponse.ruleUsage)]:
    the array kept under the sheet's id grows by one range. *)
Definition aggregate (styleSheetIdToCoverage : JSMap.t (list CoverageRange))
  (entry : RuleUsage) : JSMap.t (list CoverageRange) :=
  let ranges :=
    match JSMap.get styleSheetIdToCoverage (rule_styleSheetId entry) with
    | Some ranges => ranges
    | None => []
    end in
  JSMap.set styleSheetIdToCoverage (rule_styleSheetId entry)
    (JSArray.push ranges
       (mkCoverageRange (rule_startOffset entry) (rule_endOffset entry)
          (if used entry then 1 else 0))).

(** The body of [for (const styleSheetId of this._stylesheetURLs.keys())]. *)
Definition stop_entry (this : t)
  (styleSheetIdToCoverage : JSMap.t (list CoverageRange))
  (coverage : list CoverageEntry) (styleSheetId : string)
  : list CoverageEntry :=
  let url := JSMap.get (_stylesheetURLs this) styleSheetId in
  let text := JSMap.get (_stylesheetSources this) styleSheetId in
  let ranges :=
    convertToDisjointRanges
      match JSMap.get styleSheetIdToCoverage styleSheetId with
      | Some ranges => ranges
      | None => []
      end in
  JSArray.push coverage (mkCoverageEntry url ranges text).

(** [stop()] after its two [await]s: [tracking] is the reply to
    [CSS.stopRuleUsageTracking], [disabled] what the [Promise.all] of the
    two [disable] commands comes to.  The maps are read here, after both. *)
Definition stop_resume (this : t) (tracking : Completion RuleTrackingResponse)
  (disabled : Completion unit) : Completion (list CoverageEntry) * t :=
  match tracking with
  | Throw e => (Throw e, this)
  | Return ruleTrackingResponse =>
      match disabled with
      | Throw e => (Throw e, this)
      | Return _ =>
          let this' :=
            {| _enabled := _enabled this;
               _stylesheetURLs := _stylesheetURLs this;
               _stylesheetSources := _stylesheetSources this;
               _eventListeners := removeEventListeners (_eventListeners this);
               _resetOnNavigation := _resetOnNavigation this;
               _reportAnonymousScripts := _reportAnonymousScripts this |} in
          let styleSheetIdToCoverage :=
            fold_left aggregate (ruleUsage ruleTrackingResponse) JSMap.empty in
          (Return
             (fold_left (stop_entry this' styleSheetIdToCoverage)
                (JSMap.keys (_stylesheetURLs this')) []),
           this')
      end
  end.

(** [stop()] when nothing else runs while it waits. *)
Definition stop (this : t) (tracking : Completion RuleTrackingResponse)
  (disabled : Completion unit) : Completion (list CoverageEntry) * t :=
  match stop_begin this with
  | (Throw e, this') => (Throw e, this')
  | (Return _, this') => stop_resume this' tracking disabled
  end.

(** ** The collector among the events of a page *)
Inductive Action : Type :=
| Start (options : Options) (settled : Completion unit)
| StyleSheetAdded (event : StyleSheetAddedEvent)
| StyleSheetText (event : StyleSheetAddedEvent) (response : Completion string)
| ExecutionContextsCleared
| StopCalled
| StopSettled (tracking : Completion RuleTrackingResponse)
    (disabled : Completion unit).

Record World : Type := mkWorld
  { collector : t;
    fetching : list StyleSheetAddedEvent;
    stopping : nat }.

Definition fresh : World := mkWorld new [] 0.

Inductive Observation : Type :=
| Silent
| Started (outcome : Completion unit)
| Stopped (outcome : Completion (list CoverageEntry)).

Definition event_eqb (a b : StyleSheetAddedEvent) : bool :=
  String.eqb (styleSheetId (header a)) (styleSheetId (header b))
  && String.eqb (sourceURL (header a)) (sourceURL (header b)).

Definition step (w : World) (a : Action) : option (World * Observation) :=
  match a with
  | Start options settled =>
      let (outcome, this) := start (collector w) options settled in
      Some (mkWorld this (fetching w) (stopping w), Started outcome)
  | StyleSheetAdded event =>
      if _onStyleSheet_sends (collector w) event
      then Some (mkWorld (collector w) (event :: fetching w) (stopping w),
                 Silent)
      else Some (w, Silent)
  | StyleSheetText event response =>
      if existsb (event_eqb event) (fetching w)
      then Some (mkWorld (_onStyleSheet_resume (collector w) event response)
                   (remove_first event_eqb event (fetching w)) (stopping w),
                 Silent)
      else None
  | ExecutionContextsCleared =>
      Some (mkWorld (_onExecutionContextsCleared (collector w))
              (fetching w) (stopping w), Silent)
  | StopCalled =>
      match stop_begin (collector w) with
      | (Throw e, this) =>
          Some (mkWorld this (fetching w) (stopping w), Stopped (Throw e))
      | (Return _, this) =>
          Some (mkWorld this (fetching w) (S (stopping w)), Silent)
      end
  | StopSettled tracking disabled =>
      match stopping w with
      | O => None
      | S n =>
          let (outcome, this) := stop_resume (collector w) tracking disabled in
          Some (mkWorld this (fetching w) n, Stopped outcome)
      end
  end.

Fixpoint run (w : World) (actions : list Action)
  : option (World * list Observation) :=
  match actions with
  | [] => Some (w, [])
  | a :: rest =>
      match step w a with
      | None => None
      | Some (w', o) =>
          match run w' rest with
          | None => None
          | Some (w'', os) => Some (w'', o :: os)
          end
      end
  end.

End CSSCoverage.

(* ================================================================== *)
(** * Vocabulary of the properties *)
(* ================================================================== *)

(** The unit position [p] lies in the half-open output range [r]. *)
Definition in_range (r : Range) (p : Z) : Prop := start r <= p < end_ r.

(** Two output ranges share no position. *)
Definition disjoint (a b : Range) : Prop :=
  forall p, ~ (in_range a p /\ in_range b p).

(** Every range is non-empty and ends strictly before the next one starts:
    what the scanning loop maintains on [results]. *)
Definition gapped (l : list Range) : Prop :=
  Forall (fun r => start r < end_ r) l
  /\ StronglySorted (fun a b => end_ a < start b) l.

(** An output range read back as an input range of count 1. *)
Definition as_counted (r : Range) : CoverageRange :=
  mkCoverageRange (start r) (end_ r) 1.

(** The order the comparator decides: [a] may go before [b]. *)
Definition before (a b : Point) : Prop := compare a b <= 0.

(** What one iteration needs and keeps: the results are apart from one
    another and none reaches beyond [lastOffset]. *)
Definition settled_results (s : Sweep) : Prop :=
  gapped (results s) /\ Forall (fun r => end_ r <= lastOffset s) (results s).

(** ** Coverage of a position by the input of the reducer *)

(** The input range [r] covers the unit position [p]. *)
Definition covers (r : CoverageRange) (p : Z) : bool :=
  (startOffset r <=? p) && (p <? endOffset r).

(** Some input range with a positive count covers [p]. *)
Definition covered_by_counted (l : list CoverageRange) (p : Z) : bool :=
  existsb (fun r => covers r p && (0 <? count r)) l.

(** Every input range is non-empty. *)
Definition well_formed (l : list CoverageRange) : Prop :=
  Forall (fun r => startOffset r < endOffset r) l.

(** Two ranges lie apart or one inside the other. *)
Definition nested_or_apart (a b : CoverageRange) : Prop :=
  endOffset a <= startOffset b
  \/ endOffset b <= startOffset a
  \/ (startOffset a <= startOffset b /\ endOffset b <= endOffset a)
  \/ (startOffset b <= startOffset a /\ endOffset a <= endOffset b).

Definition properly_nested (l : list CoverageRange) : Prop :=
  forall a b, In a l -> In b l -> nested_or_apart a b.

(** [r] lies deeper than [b]: it starts later, or at the same offset and
    ends earlier. *)
Definition deeper (r b : CoverageRange) : bool :=
  (startOffset b <? startOffset r)
  || ((startOffset b =? startOffset r) && (endOffset r <? endOffset b)).

(** The deepest range of a list, the last of the list among equals. *)
Fixpoint deepest (l : list CoverageRange) : option CoverageRange :=
  match l with
  | [] => None
  | r :: rest =>
      match deepest rest with
      | None => Some r
      | Some b => if deeper r b then Some r else Some b
      end
  end.

(** The innermost input range covering [p]. *)
Definition innermost (l : list CoverageRange) (p : Z) : option CoverageRange :=
  deepest (filter (fun r => covers r p) l).

(** [p] is hot: the innermost range covering it has a positive count. *)
Definition hot (l : list CoverageRange) (p : Z) : bool :=
  match innermost l p with
  | Some r => 0 <? count r
  | None => false
  end.

(** Some range of [l] holds the position [p]. *)
Definition in_some (l : list Range) (p : Z) : Prop :=
  exists r, In r l /\ in_range r p.

(** The nested zero-count example of the specification. *)
Definition carve_out_input : list CoverageRange :=
  [mkCoverageRange 0 10 1; mkCoverageRange 3 6 0].

(** Two ranges that overlap without nesting. *)
Definition crossing_input : list CoverageRange :=
  [mkCoverageRange 0 5 1; mkCoverageRange 3 8 0].

(** ** The points of the scanning loop *)

Definition start_point (r : CoverageRange) : Point :=
  mkPoint (startOffset r) 0 r.

Definition end_point (r : CoverageRange) : Point :=
  mkPoint (endOffset r) 1 r.

Definition is_start (q : Point) : bool := type q =? 0.

(** A point is the start or the end of its range. *)
Definition point_ok (q : Point) : Prop :=
  q = start_point (range q) \/ q = end_point (range q).

(** A start point whose range ends beyond [y]. *)
Definition opened (y : Z) (q : Point) : bool :=
  is_start q && (y <? endOffset (range q)).

Definition counts (points : list Point) : list Z :=
  map (fun q => count (range q)) points.

(** What an iteration does to the stack. *)
Definition stack_step (stack : list Z) (point : Point) : list Z :=
  if type point =? 0
  then JSArray.push stack (count (range point))
  else JSArray.pop stack.

(** The state of the loop when the points [done], all at or below [y], are
    behind it and every point ahead lies beyond [y]: the stack holds the
    counts of the ranges open at [y], in the order they were opened, and
    the results cover the hot positions below [y]. *)
Definition sweep_inv (l : list CoverageRange) (y : Z) (done : list Point)
  (s : Sweep) : Prop :=
  Forall (fun q => offset q <= y) done
  /\ hitCountStack s = counts (filter (opened y) done)
  /\ (lastOffset s = y \/ hitCountStack s = [])
  /\ gapped (results s)
  /\ Forall (fun r => end_ r <= y) (results s)
  /\ forall p, p < y -> (in_some (results s) p <-> hot l p = true).

(** The sorted points cut in the ones behind, a run at one offset, and the
    ones ahead. *)
Record cut (points : list Point) (y y' : Z) (done block ahead : list Point)
  : Prop := mkCut
  { cut_points : points = done ++ block ++ ahead;
    cut_lt : y < y';
    cut_done : Forall (fun q => offset q <= y) done;
    cut_block : Forall (fun q => offset q = y') block;
    cut_ahead : Forall (fun q => y' < offset q) ahead }.

(** ** Sessions of the JS collector *)

Module JS := JSCoverage.

(** The report [stop] gives, resuming in [this] on a fulfilled
    [Promise.all], in an engine with the given limit on arguments. *)
Definition js_report (arguments_limit : Z) (this : JS.t)
  (profileResponse : JS.ProfileResponse)
  : Completion (list JS.CoverageEntry) :=
  fst (JS.stop_resume arguments_limit this (Return profileResponse)).


(** A protocol result cut down to the scripts of [scriptIds]. *)
Definition only_scripts (scriptIds : list string)
  (profileResponse : JS.ProfileResponse) : JS.ProfileResponse :=
  JS.mkProfileResponse
    (filter (fun entry => existsb (String.eqb (JS.entry_scriptId entry)) scriptIds)
       (JS.result profileResponse)).

(** The registry has neither a text for the script of [entry], or has no
    URL for it and none is made up. *)
Definition js_missing (this : JS.t) (entry : JS.ScriptCoverage) : bool :=
  match JSMap.get (JS._scriptSources this) (JS.entry_scriptId entry) with
  | None => true
  | Some _ =>
      match JSMap.get (JS._scriptURLs this) (JS.entry_scriptId entry) with
      | None => negb (JS._reportAnonymousScripts this)
      | Some _ => false
      end
  end.

(** Every function of [entry] has few enough ranges for one call. *)
Definition js_spreads (arguments_limit : Z) (entry : JS.ScriptCoverage)
  : bool :=
  forallb
    (fun func => Z.of_nat (List.length (JS.func_ranges func)) <=? arguments_limit)
    (JS.functions entry).

(** The result [entry] gets through the body of [stop]'s loop: it is
    skipped, or each of its functions can be spread. *)
Definition js_passes (arguments_limit : Z) (this : JS.t)
  (entry : JS.ScriptCoverage) : bool :=
  js_missing this entry || js_spreads arguments_limit entry.

(** What the body of [stop]'s loop adds to the report for [entry]; nothing
    when it throws. *)
Definition js_pushed (arguments_limit : Z) (this : JS.t)
  (entry : JS.ScriptCoverage) : list JS.CoverageEntry :=
  match JS.stop_entry arguments_limit this [] entry with
  | Return coverage => coverage
  | Throw _ => []
  end.





(** The ids of the scripts whose source arrived during [actions]. *)
Fixpoint js_arrived (actions : list JS.Action) : list string :=
  match actions with
  | [] => []
  | JS.ScriptSource event (Return _) :: rest =>
      JS.event_scriptId event :: js_arrived rest
  | _ :: rest => js_arrived rest
  end.


(** ** Sessions of the CSS collector *)

Module CSS := CSSCoverage.

Definition css_report (this : CSS.t) (tracking : CSS.RuleTrackingResponse)
  : Completion (list CSS.CoverageEntry) :=
  fst (CSS.stop_resume this (Return tracking) (Return tt)).

(** A rule-usage reply without what it says of the sheet [styleSheetId]. *)
Definition without_sheet (styleSheetId : string)
  (tracking : CSS.RuleTrackingResponse) : CSS.RuleTrackingResponse :=
  CSS.mkRuleTrackingResponse
    (filter
       (fun entry => negb (String.eqb (CSS.rule_styleSheetId entry) styleSheetId))
       (CSS.ruleUsage tracking)).

(** The ranges a rule-usage reply holds for the sheet [styleSheetId], in
    the order of the reply. *)
Definition usage_of (styleSheetId : string)
  (tracking : CSS.RuleTrackingResponse) : list CoverageRange :=
  map
    (fun entry =>
       mkCoverageRange (CSS.rule_startOffset entry) (CSS.rule_endOffset entry)
         (if CSS.used entry then 1 else 0))
    (filter (fun entry => String.eqb (CSS.rule_styleSheetId entry) styleSheetId)
       (CSS.ruleUsage tracking)).

(** An action of a session in which the sheet [styleSheetId] is only ever
    announced without a source URL. *)
Definition css_no_source_url (styleSheetId : string) (a : CSS.Action) : bool :=
  match a with
  | CSS.StyleSheetAdded event =>
      if String.eqb (CSS.styleSheetId (CSS.header event)) styleSheetId
      then String.eqb (CSS.sourceURL (CSS.header event)) ""
      else true
  | _ => true
  end.

(** The ids of the sheets whose text arrived during [actions]. *)
Fixpoint css_arrived (actions : list CSS.Action) : list string :=
  match actions with
  | [] => []
  | CSS.StyleSheetText event (Return _) :: rest =>
      CSS.styleSheetId (CSS.header event) :: css_arrived rest
  | _ :: rest => css_arrived rest
  end.

(** The array kept under [k] in the aggregation map, empty when there is
    none: [styleSheetIdToCoverage.get(k) || []]. *)
Definition ranges_at (m : JSMap.t (list CoverageRange)) (k : string)
  : list CoverageRange :=
  match JSMap.get m k with
  | Some ranges => ranges
  | None => []
  end.

(** The entry of the sheet [styleSheetId] in a report. *)
Definition css_entry (this : CSS.t) (tracking : CSS.RuleTrackingResponse)
  (styleSheetId : string) : CSS.CoverageEntry :=
  CSS.mkCoverageEntry (JSMap.get (CSS._stylesheetURLs this) styleSheetId)
    (convertToDisjointRanges (usage_of styleSheetId tracking))
    (JSMap.get (CSS._stylesheetSources this) styleSheetId).

(** ** Sample data *)

(** A collector at work that knows the URL of two scripts and the text of
    one of them. *)
Definition example_js : JS.t :=
  JS.mk true [("1", "a.js"); ("2", "b.js")]%string [("1", "f()")]%string []
    true false false.

(** A protocol result for a script without text, an unknown script and a
    script with both. *)
Definition example_profile : JS.ProfileResponse :=
  JS.mkProfileResponse
    [JS.mkScriptCoverage "2" "b.js"
       [JS.mkFunctionCoverage "g" [mkCoverageRange 0 9 1] false];
     JS.mkScriptCoverage "5" ""
       [JS.mkFunctionCoverage "" [mkCoverageRange 0 4 1] false];
     JS.mkScriptCoverage "1" "a.js"
       [JS.mkFunctionCoverage "f" [mkCoverageRange 0 3 1] false]]%string.

(** The reserved URL, as the comment on [startJSCoverage] spells it. *)
Definition example_evaluation_url : string := "__puppeteer_evaluation_script__".

(** A session reporting anonymous scripts: an anonymous script and a named
    one are parsed, the page navigates, the anonymous source arrives, then a
    third script is parsed and fetched and [stop] is called. *)
Definition example_js_actions : list JS.Action :=
  [JS.Start (JS.mkOptions None (Some true) None) (Return tt);
   JS.ScriptParsed (JS.mkScriptParsedEvent "4" "");
   JS.ScriptParsed (JS.mkScriptParsedEvent "5" "old.js");
   JS.ScriptSource (JS.mkScriptParsedEvent "5" "old.js") (Return "g()");
   JS.ExecutionContextsCleared;
   JS.ScriptSource (JS.mkScriptParsedEvent "4" "") (Return "eval")]%string.

Definition example_js_after : list JS.Action :=
  [JS.ScriptParsed (JS.mkScriptParsedEvent "6" "new.js");
   JS.ScriptSource (JS.mkScriptParsedEvent "6" "new.js") (Return "h()");
   JS.StopCalled]%string.

(** A limit on arguments of the order of what an engine takes. *)
Definition example_arguments_limit : Z := 125000.

Definition example_js_run (actions : list JS.Action)
  : JS.World * list JS.Observation :=
  match JS.run example_evaluation_url example_arguments_limit JS.fresh actions
  with
  | Some r => r
  | None => (JS.fresh, [])
  end.

(** A session with the default options in which the script "4" is
    anonymous. *)
Definition example_js_quiet_actions : list JS.Action :=
  [JS.Start (JS.mkOptions None None None) (Return tt);
   JS.ScriptParsed (JS.mkScriptParsedEvent "4" "");
   JS.ScriptParsed (JS.mkScriptParsedEvent "5" "old.js");
   JS.ScriptSource (JS.mkScriptParsedEvent "5" "old.js") (Return "g()");
   JS.StopCalled]%string.

Definition example_profile_456 : JS.ProfileResponse :=
  JS.mkProfileResponse
    [JS.mkScriptCoverage "4" ""
       [JS.mkFunctionCoverage "" [mkCoverageRange 0 4 1] false];
     JS.mkScriptCoverage "5" "old.js"
       [JS.mkFunctionCoverage "g" [mkCoverageRange 0 3 1] false];
     JS.mkScriptCoverage "6" "new.js"
       [JS.mkFunctionCoverage "h" [mkCoverageRange 0 3 2] false]]%string.





(** A CSS session: an inline sheet, a sheet fetched before a navigation and
    one fetched after it. *)
Definition example_css_actions : list CSS.Action :=
  [CSS.Start (CSS.mkOptions None) (Return tt);
   CSS.StyleSheetAdded
     (CSS.mkStyleSheetAddedEvent (CSS.mkStyleSheetHeader "9" ""));
   CSS.StyleSheetAdded
     (CSS.mkStyleSheetAddedEvent (CSS.mkStyleSheetHeader "3" "old.css"));
   CSS.StyleSheetText
     (CSS.mkStyleSheetAddedEvent (CSS.mkStyleSheetHeader "3" "old.css"))
     (Return "p{}")]%string.

Definition example_css_after : list CSS.Action :=
  [CSS.StyleSheetAdded
     (CSS.mkStyleSheetAddedEvent (CSS.mkStyleSheetHeader "8" "new.css"));
   CSS.StyleSheetText
     (CSS.mkStyleSheetAddedEvent (CSS.mkStyleSheetHeader "8" "new.css"))
     (Return "a{}");
   CSS.StopCalled]%string.

Definition example_css_run (actions : list CSS.Action)
  : CSS.World * list CSS.Observation :=
  match CSS.run CSS.fresh actions with
  | Some r => r
  | None => (CSS.fresh, [])
  end.

Definition example_tracking : CSS.RuleTrackingResponse :=
  CSS.mkRuleTrackingResponse
    [CSS.mkRuleUsage "9" 0 5 true; CSS.mkRuleUsage "3" 0 3 true]%string.


(* ================================================================== *)
(** * [class HTTPResponse] *)
(* ================================================================== *)

Module HTTPResponse.

(** A JavaScript string, as the sequence of its UTF-16 code units. *)
Definition JSString : Type := list Z.

(** The code units of a string of ASCII characters. *)
Definition units (s : string) : JSString :=
  map (fun c => Z.of_N (N_of_ascii c)) (list_ascii_of_string s).

(** [a === b] on strings. *)
Fixpoint units_eqb (a b : JSString) : bool :=
  match a, b with
  | [], [] => true
  | x :: a', y :: b' => (x =? y) && units_eqb a' b'
  | _, _ => false
  end.

(** Modelled from the spec: [ProtocolError] of [./Errors.js], which is not
    among the sources.  A protocol error has a message and, when the session
    made it from a failed command, the machine-readable message of the
    reply; any other error only has a message. *)
Inductive Error : Type :=
| ProtocolError (message : JSString) (originalMessage : option JSString)
| OtherError (message : JSString).

(** What a promise settles to. *)
Inductive Settled (A : Type) : Type :=
| Fulfilled (value : A)
| Rejected (reason : Error).

Arguments Fulfilled {A} value.
Arguments Rejected {A} reason.

(** What the class takes from outside: the types of the objects it only
    carries, and the functions of the language and of [vendor/std.ts] it
    calls.  [proto_accessor] says whether [Object.prototype] has the
    accessor [__proto__] of the language's Annex B; a runtime can delete it
    when it starts. *)
Record Platform : Type := mkPlatform
  { Bytes : Type;
    JSONValue : Type;
    SecurityDetailsPayload : Type;
    ResourceTiming : Type;
    Frame : Type;
    toLowerCase : JSString -> JSString;
    base64Decode : JSString -> Settled Bytes;
    encode : JSString -> Bytes;
    decode : Bytes -> JSString;
    JSON_parse : JSString -> Settled JSONValue;
    proto_accessor : bool }.

(** The own properties of an object with string values: [None] when the
    object has no own property of that name.  What a name gives that is only
    found on [Object.prototype] is not part of it. *)
Definition JSObject : Type := JSString -> option JSString.

(** [{}]: no own property. *)
Definition empty_object : JSObject := fun _ => None.

Definition proto : JSString := units "__proto__".

(** [o[k] = v] for a string [v], on an object made by [{}].  The data
    properties of [Object.prototype] are writable, so under their names too
    the assignment makes an own property, or updates it.  Under the name
    [__proto__] it calls the setter of [Object.prototype] when the accessor
    is there, and the setter does nothing with a value that is not an
    object. *)
Definition assign (accessor : bool) (o : JSObject) (k v : JSString)
  : JSObject :=
  if accessor && units_eqb k proto then o
  else fun k' => if units_eqb k' k then Some v else o k'.

(** [!!b] for a property that may be missing. *)
Definition to_boolean (b : option bool) : bool :=
  match b with
  | Some true => true
  | _ => false
  end.

Section WithPlatform.

Variable P : Platform.

(** What the class reads of its [HTTPRequest]. *)
Record Request : Type := mkRequest
  { request_url : JSString;
    _requestId : JSString;
    _fromMemoryCache : bool;
    request_frame : option (Frame P) }.

(** The response payload of the protocol; [payload_headers] lists the
    headers as [Object.keys] enumerates them. *)
Record ResponsePayload : Type := mkResponsePayload
  { remoteIPAddress : option JSString;
    remotePort : option Z;
    payload_statusText : JSString;
    fromDiskCache : option bool;
    fromServiceWorker : option bool;
    payload_status : Z;
    payload_headers : list (JSString * JSString);
    securityDetails : option (SecurityDetailsPayload P);
    timing : option (ResourceTiming P) }.

Record ExtraInfo : Type := mkExtraInfo
  { statusCode : Z;
    extra_headers : list (JSString * JSString);
    headersText : option JSString }.

(** The reply to [Network.getResponseBody]. *)
Record BodyResponse : Type := mkBodyResponse
  { body : JSString; base64Encoded : bool }.

(** The promise kept in [_contentPromise]: its callback has not run yet,
    or it waits for the reply to [Network.getResponseBody], or it is
    settled. *)
Inductive Content : Type :=
| Waiting
| Sent
| Done (outcome : Settled (Bytes P)).

(** The fields of the object.  [_bodyLoadedPromise] is [None] while
    pending, and holds what [_bodyLoadedPromiseFulfill] was first called
    with after that; [_contentPromise] is [None] for [null]; [_headers] is
    the object by its own properties. *)
Record t : Type := mk
  { _contentPromise : option Content;
    _bodyLoadedPromise : option (option Error);
    _headers : JSObject;
    _request : Request;
    _remoteAddress : option JSString * option Z;
    _statusText : JSString;
    _url : JSString;
    _fromDiskCache : bool;
    _fromServiceWorker : bool;
    _status : Z;
    _securityDetails : option (SecurityDetailsPayload P);
    _timing : option (ResourceTiming P) }.

(** [s.split("\r", 1)[0]]: what comes before the first carriage return. *)
Fixpoint before_cr (s : JSString) : JSString :=
  match s with
  | [] => []
  | c :: rest => if c =? 13 then [] else c :: before_cr rest
  end.

(** What follows the first space, if there is one: where a run of
    characters other than the space, then a space, leave the matcher. *)
Fixpoint after_space (s : JSString) : option JSString :=
  match s with
  | [] => None
  | c :: rest => if c =? 32 then Some rest else after_space rest
  end.

(** The characters the dot does not match. *)
Definition line_terminator (c : Z) : bool :=
  (c =? 10) || (c =? 13) || (c =? 8232) || (c =? 8233).

(** What a greedy run of dots takes. *)
Fixpoint dots (s : JSString) : JSString :=
  match s with
  | [] => []
  | c :: rest => if line_terminator c then [] else c :: dots rest
  end.

(** [firstLine.match(...)], as its group 1.  The pattern is a run of
    characters other than the space, a space, a second such run, a space,
    and in a group as many characters as the dot matches.  A run must stop
    at a space, so from the start of the line the match is the text up to
    the first space, the text up to the second, and the rest of the line;
    it exists when the line has two spaces, and when the line has fewer no
    later start can match either. *)
Definition match_status (firstLine : JSString) : option JSString :=
  match after_space firstLine with
  | None => None
  | Some rest =>
      match after_space rest with
      | None => None
      | Some rest' => Some (dots rest')
      end
  end.

Definition _parseStatusTextFromExtrInfo (extraInfo : option ExtraInfo)
  : option JSString :=
  match extraInfo with
  | None => None
  | Some extraInfo =>
      match headersText extraInfo with
      | None | Some [] => None
      | Some text =>
          match before_cr text with
          | [] => None
          | firstLine =>
              match match_status firstLine with
              | None | Some [] => None
              | Some statusText => Some statusText
              end
          end
      end
  end.

(** The loop over [Object.keys(headers)]. *)
Definition lower_headers (headers : list (JSString * JSString)) : JSObject :=
  fold_left
    (fun o kv => assign (proto_accessor P) o (toLowerCase P (fst kv)) (snd kv))
    headers empty_object.

(** [constructor(client, request, responsePayload, extraInfo)]; the
    security details are kept as the payload [SecurityDetails] is built
    from. *)
Definition new (request : Request) (responsePayload : ResponsePayload)
  (extraInfo : option ExtraInfo) : t :=
  {| _contentPromise := None;
     _bodyLoadedPromise := None;
     _headers :=
       lower_headers
         match extraInfo with
         | Some extraInfo => extra_headers extraInfo
         | None => payload_headers responsePayload
         end;
     _request := request;
     _remoteAddress :=
       (remoteIPAddress responsePayload, remotePort responsePayload);
     _statusText :=
       match _parseStatusTextFromExtrInfo extraInfo with
       | Some statusText => statusText
       | None => payload_statusText responsePayload
       end;
     _url := request_url request;
     _fromDiskCache := to_boolean (fromDiskCache responsePayload);
     _fromServiceWorker := to_boolean (fromServiceWorker responsePayload);
     _status :=
       match extraInfo with
       | Some extraInfo => statusCode extraInfo
       | None => payload_status responsePayload
       end;
     _securityDetails := securityDetails responsePayload;
     _timing := timing responsePayload |}.

Definition with_promises (this : t) (content : option Content)
  (bodyLoaded : option (option Error)) : t :=
  {| _contentPromise := content;
     _bodyLoadedPromise := bodyLoaded;
     _headers := _headers this;
     _request := _request this;
     _remoteAddress := _remoteAddress this;
     _statusText := _statusText this;
     _url := _url this;
     _fromDiskCache := _fromDiskCache this;
     _fromServiceWorker := _fromServiceWorker this;
     _status := _status this;
     _securityDetails := _securityDetails this;
     _timing := _timing this |}.

(** [_resolveBody(err)]: the promise takes the first value it is fulfilled
    with. *)
Definition _resolveBody (this : t) (err : option Error) : t :=
  match _bodyLoadedPromise this with
  | None => with_promises this (_contentPromise this) (Some err)
  | Some _ => this
  end.

Definition ok (this : t) : bool :=
  (_status this =? 0) || ((200 <=? _status this) && (_status this <=? 299)).

Definition fromCache (this : t) : bool :=
  _fromDiskCache this || _fromMemoryCache (_request this).

(** [arrayBuffer()]: the promise is made on the first call. *)
Definition arrayBuffer (this : t) : t :=
  match _contentPromise this with
  | None => with_promises this (Some Waiting) (_bodyLoadedPromise this)
  | Some _ => this
  end.

(** The callback given to [then], up to its [await]: [None] when it sends
    [Network.getResponseBody], the error it throws otherwise. *)
Definition body_callback (error : option Error) : option Error := error.

(** The [try] block of the callback, from its [await] on. *)
Definition body_tried (reply : Settled BodyResponse) : Settled (Bytes P) :=
  match reply with
  | Fulfilled response =>
      if base64Encoded response
      then base64Decode P (body response)
      else Fulfilled (encode P (body response))
  | Rejected error => Rejected error
  end.

(** The [catch] clause: what it throws for the error it caught. *)
Definition body_caught (error : Error) : Error :=
  match error with
  | ProtocolError message (Some originalMessage) =>
      if units_eqb originalMessage
           (units "No resource with given identifier found")
      then ProtocolError
             (units "Could not load body for this request. This might happen if the request is a preflight request.")
             None
      else error
  | _ => error
  end.

(** The callback from its [await] on. *)
Definition body_settled (reply : Settled BodyResponse) : Settled (Bytes P) :=
  match body_tried reply with
  | Fulfilled bytes => Fulfilled bytes
  | Rejected error => Rejected (body_caught error)
  end.

(** [text()] and [json()], from what [arrayBuffer()] settles to. *)
Definition text_of (content : Settled (Bytes P)) : Settled JSString :=
  match content with
  | Fulfilled bytes => Fulfilled (decode P bytes)
  | Rejected error => Rejected error
  end.

Definition json_of (content : Settled (Bytes P)) : Settled (JSONValue P) :=
  match text_of content with
  | Fulfilled text => JSON_parse P text
  | Rejected error => Rejected error
  end.

(** ** A response among its callers

    [sends] counts the [Network.getResponseBody] commands sent.  The
    callback of [then] runs once the body promise is fulfilled and the
    content promise exists; the reply can only come after the command. *)
Inductive Action : Type :=
| ResolveBody (err : option Error)
| ArrayBuffer
| Text
| Json
| ThenRuns
| BodyReply (reply : Settled BodyResponse).

Record World : Type := mkWorld { response : t; sends : nat }.

Definition step (w : World) (a : Action) : option World :=
  match a with
  | ResolveBody err => Some (mkWorld (_resolveBody (response w) err) (sends w))
  | ArrayBuffer | Text | Json =>
      Some (mkWorld (arrayBuffer (response w)) (sends w))
  | ThenRuns =>
      match _bodyLoadedPromise (response w), _contentPromise (response w) with
      | Some error, Some Waiting =>
          match body_callback error with
          | Some thrown =>
              Some (mkWorld
                      (with_promises (response w)
                         (Some (Done (Rejected thrown)))
                         (_bodyLoadedPromise (response w)))
                      (sends w))
          | None =>
              Some (mkWorld
                      (with_promises (response w) (Some Sent)
                         (_bodyLoadedPromise (response w)))
                      (S (sends w)))
          end
      | _, _ => None
      end
  | BodyReply reply =>
      match _contentPromise (response w) with
      | Some Sent =>
          Some (mkWorld
                  (with_promises (response w)
                     (Some (Done (body_settled reply)))
                     (_bodyLoadedPromise (response w)))
                  (sends w))
      | _ => None
      end
  end.

Fixpoint run (w : World) (actions : list Action) : option World :=
  match actions with
  | [] => Some w
  | a :: rest =>
      match step w a with
      | None => None
      | Some w' => run w' rest
      end
  end.

End WithPlatform.

End HTTPResponse.

(* ================================================================== *)
(** * Vocabulary of further properties *)
(* ================================================================== *)

(** [z] is an offset at which some input range starts or ends. *)
Definition is_endpoint (l : list CoverageRange) (z : Z) : Prop :=
  exists r, In r l /\ (z = startOffset r \/ z = endOffset r).

(** Some input range covers [p], whatever its count. *)
Definition covered (l : list CoverageRange) (p : Z) : bool :=
  existsb (fun r => covers r p) l.

(** Nested ranges that all have a positive count. *)
Definition counted_input : list CoverageRange :=
  [mkCoverageRange 0 10 1; mkCoverageRange 3 6 2; mkCoverageRange 12 14 1].

(** The ranges left of the nested example once its hole is cut out by
    hand. *)
Definition carved_input : list CoverageRange :=
  [mkCoverageRange 0 3 1; mkCoverageRange 6 10 5].

(** An action of a run in which no session reports anonymous scripts. *)
Definition js_sessions_off (a : JS.Action) : bool :=
  match a with
  | JS.Start options _ =>
      negb (JS.default false (JS.reportAnonymousScripts options))
  | _ => true
  end.

(** ** Responses *)

Module HR := HTTPResponse.

(** The headers the constructor reads. *)
Definition response_headers (P : HR.Platform) (payload : HR.ResponsePayload P)
  (extraInfo : option HR.ExtraInfo) : list (HR.JSString * HR.JSString) :=
  match extraInfo with
  | Some extraInfo => HR.extra_headers extraInfo
  | None => HR.payload_headers payload
  end.

(** A response just made, no command sent. *)
Definition new_response (P : HR.Platform) (request : HR.Request P)
  (payload : HR.ResponsePayload P) (extraInfo : option HR.ExtraInfo)
  : HR.World P :=
  HR.mkWorld (HR.new request payload extraInfo) 0.

(** What holds of the two promises and of the commands sent: no command
    before the callback ran, one while the reply is awaited, and once the
    content is settled either one command after a body loaded without
    error, or none and the error the body was resolved with. *)
Definition body_inv (P : HR.Platform) (w : HR.World P) : Prop :=
  match HR._contentPromise (HR.response w) with
  | None | Some (HR.Waiting _) => HR.sends w = 0%nat
  | Some (HR.Sent _) =>
      HR.sends w = 1%nat /\ HR._bodyLoadedPromise (HR.response w) = Some None
  | Some (HR.Done _ outcome) =>
      (HR.sends w = 1%nat
       /\ HR._bodyLoadedPromise (HR.response w) = Some None)
      \/ (HR.sends w = 0%nat
          /\ exists e,
               HR._bodyLoadedPromise (HR.response w) = Some (Some e)
               /\ outcome = HR.Rejected e)
  end.

(** Lower-casing of the ASCII letters, for the examples. *)
Definition ascii_lower (s : HR.JSString) : HR.JSString :=
  map (fun c => if (65 <=? c) && (c <=? 90) then c + 32 else c) s.

(** A platform for the examples: ASCII lower-casing, bodies kept as their
    code units, [Object.prototype] as the language has it. *)
Definition example_platform : HR.Platform :=
  HR.mkPlatform (Bytes := HR.JSString) (JSONValue := HR.JSString)
    unit unit unit ascii_lower
    (fun s => HR.Fulfilled s) (fun s => s) (fun b => b)
    (fun s => HR.Fulfilled s) true.

Definition example_request : HR.Request example_platform :=
  HR.mkRequest example_platform (HR.units "https://example.com/")
    (HR.units "17.1") false None.

Definition example_payload : HR.ResponsePayload example_platform :=
  HR.mkResponsePayload example_platform None None (HR.units "") None None 200
    [(HR.units "Content-Type", HR.units "text/html")] None None.

Definition example_extra : HR.ExtraInfo :=
  HR.mkExtraInfo 404
    [(HR.units "Set-Cookie", HR.units "a=1");
     (HR.units "Content-Type", HR.units "text/plain");
     (HR.units "set-cookie", HR.units "b=2")]
    (Some (HR.units "HTTP/1.1 404 Not Found"
             ++ [13; 10] ++ HR.units "Set-Cookie: a=1")).

(** Extra info whose headers text has line feeds only. *)
Definition example_extra_lf : HR.ExtraInfo :=
  HR.mkExtraInfo 200 []
    (Some (HR.units "HTTP/1.1 200 OK" ++ [10] ++ HR.units "X: y")).

(** A payload with a header named [__proto__]. *)
Definition example_proto_payload : HR.ResponsePayload example_platform :=
  HR.mkResponsePayload example_platform None None (HR.units "OK") None None 200
    [(HR.units "__proto__", HR.units "x"); (HR.units "ToString", HR.units "y")]
    None None.

(** A response whose body is asked for before and after it is loaded. *)
Definition example_body_actions : list HR.Action :=
  [HR.Text; HR.ResolveBody None; HR.ArrayBuffer; HR.ThenRuns; HR.Json;
   HR.BodyReply (HR.Fulfilled (HR.mkBodyResponse (HR.units "{}") false));
   HR.ResolveBody (Some (HR.OtherError (HR.units "late")));
   HR.ArrayBuffer].

(** A response whose body failed to load. *)
Definition example_failed_actions : list HR.Action :=
  [HR.ResolveBody (Some (HR.OtherError (HR.units "net::ERR_FAILED")));
   HR.ArrayBuffer; HR.ThenRuns; HR.Text].

Definition example_body_run (actions : list HR.Action)
  : HR.World example_platform :=
  match HR.run (new_response example_request example_payload None) actions with
  | Some w => w
  | None => new_response example_request example_payload None
  end.

(* ================================================================== *)
(** * Arrays and maps *)
(* ================================================================== *)

Lemma last_None {A : Type} (a : list A) : JSArray.last a = None -> a = [].
Proof.
  induction a as [|x [|y rest] IH]; simpl; intros H; try congruence.
  specialize (IH H). discriminate.
Qed.

Lemma last_Some {A : Type} (a : list A) (x : A) :
  JSArray.last a = Some x -> a = JSArray.pop a ++ [x].
Proof.
  unfold JSArray.pop.
  induction a as [|y rest IH]; [discriminate|].
  destruct rest as [|z rest'].
  - simpl. intros H. inversion H. reflexivity.
  - intros H. change (JSArray.last (z :: rest') = Some x) in H.
    specialize (IH H).
    change (y :: z :: rest' = y :: (removelast (z :: rest') ++ [x])).
    f_equal. exact IH.
Qed.

Lemma last_push {A : Type} (a : list A) (x : A) :
  JSArray.last (JSArray.push a x) = Some x.
Proof.
  unfold JSArray.push.
  induction a as [|y rest IH]; simpl; [reflexivity|].
  destruct (rest ++ [x]) eqn:E; [destruct rest; discriminate|exact IH].
Qed.

Lemma pop_push {A : Type} (a : list A) (x : A) :
  JSArray.pop (JSArray.push a x) = a.
Proof. unfold JSArray.pop, JSArray.push. apply removelast_last. Qed.

(** ** Sorting with a consistent comparator *)

Section Sorting.

Variable A : Type.
Variable comparefn : A -> A -> Z.

Let le (x y : A) : Prop := comparefn x y <= 0.

Hypothesis le_total : forall x y, le x y \/ le y x.
Hypothesis le_trans : forall x y z, le x y -> le y z -> le x z.

Lemma insert_In (x y : A) (a : list A) :
  In y (JSArray.insert comparefn x a) <-> y = x \/ In y a.
Proof.
  induction a as [|z rest IH]; simpl.
  - intuition.
  - destruct (comparefn x z <=? 0); simpl; [intuition|].
    rewrite IH. intuition.
Qed.

Lemma insert_sorted (x : A) (a : list A) :
  StronglySorted le a -> StronglySorted le (JSArray.insert comparefn x a).
Proof.
  induction 1 as [|z rest Hs IH Hz]; simpl.
  - constructor; [constructor|constructor].
  - destruct (comparefn x z <=? 0) eqn:E.
    + apply Z.leb_le in E.
      constructor; [constructor; assumption|].
      constructor; [exact E|].
      eapply Forall_impl; [|exact Hz]. intros w Hw. eapply le_trans; eauto.
    + apply Z.leb_gt in E.
      constructor; [exact IH|].
      apply Forall_forall. intros w Hw. apply insert_In in Hw.
      destruct Hw as [->|Hw].
      * destruct (le_total z x) as [H|H]; [exact H|unfold le in H; lia].
      * rewrite Forall_forall in Hz. auto.
Qed.

Lemma sort_sorted (a : list A) : StronglySorted le (JSArray.sort comparefn a).
Proof.
  induction a as [|x rest IH]; simpl; [constructor|].
  apply insert_sorted, IH.
Qed.

Lemma insert_perm (x : A) (a : list A) :
  Permutation (x :: a) (JSArray.insert comparefn x a).
Proof.
  induction a as [|z rest IH]; simpl; [reflexivity|].
  destruct (comparefn x z <=? 0); [reflexivity|].
  rewrite perm_swap. constructor. exact IH.
Qed.

Lemma sort_perm (a : list A) : Permutation a (JSArray.sort comparefn a).
Proof.
  induction a as [|x rest IH]; simpl; [reflexivity|].
  rewrite <- insert_perm. constructor. exact IH.
Qed.

Lemma sort_id (a : list A) :
  StronglySorted le a -> JSArray.sort comparefn a = a.
Proof.
  induction 1 as [|z rest Hs IH Hz]; simpl; [reflexivity|].
  rewrite IH. destruct rest as [|y rest']; simpl; [reflexivity|].
  inversion Hz as [|? ? Hy _]; subst.
  unfold le in Hy. apply Z.leb_le in Hy. rewrite Hy. reflexivity.
Qed.

End Sorting.

(** The comparator of the reducer is consistent. *)
Lemma before_total (a b : Point) : before a b \/ before b a.
Proof.
  unfold before, compare.
  rewrite (Z.eqb_sym (offset b)), (Z.eqb_sym (type b)).
  destruct (offset a =? offset b) eqn:Eo; simpl; [|lia].
  destruct (type a =? type b) eqn:Et; simpl; [|lia].
  apply Z.eqb_eq in Et. rewrite <- Et.
  destruct (type a =? 0); lia.
Qed.

Lemma before_trans (a b c : Point) : before a b -> before b c -> before a c.
Proof.
  unfold before, compare.
  destruct (offset a =? offset b) eqn:Eab;
    destruct (offset b =? offset c) eqn:Ebc;
    destruct (offset a =? offset c) eqn:Eac;
    rewrite ?Z.eqb_eq, ?Z.eqb_neq in *; simpl; try lia.
  destruct (type a =? type b) eqn:Tab;
    destruct (type b =? type c) eqn:Tbc;
    destruct (type a =? type c) eqn:Tac;
    rewrite ?Z.eqb_eq, ?Z.eqb_neq in *; simpl; try lia.
  destruct (type a =? 0) eqn:Ta; destruct (type b =? 0) eqn:Tb;
    rewrite ?Z.eqb_eq, ?Z.eqb_neq in *; try lia.
Qed.

Lemma before_offset (a b : Point) : before a b -> offset a <= offset b.
Proof.
  unfold before, compare.
  destruct (offset a =? offset b) eqn:E; simpl;
    rewrite ?Z.eqb_eq, ?Z.eqb_neq in *; lia.
Qed.

Lemma sorted_points_before (l : list Point) :
  StronglySorted before (JSArray.sort compare l).
Proof. apply sort_sorted; [apply before_total|apply before_trans]. Qed.

Lemma StronglySorted_impl {A : Type} (R S : A -> A -> Prop) (l : list A) :
  (forall x y, R x y -> S x y) -> StronglySorted R l -> StronglySorted S l.
Proof.
  intros H. induction 1; constructor; auto.
  eapply Forall_impl; [|eassumption]. auto.
Qed.

Lemma sorted_points_offset (l : list Point) :
  StronglySorted (fun a b => offset a <= offset b) (JSArray.sort compare l).
Proof.
  eapply StronglySorted_impl; [|apply sorted_points_before].
  apply before_offset.
Qed.

(* ================================================================== *)
(** * The scanning loop keeps its results apart *)
(* ================================================================== *)

Lemma gapped_nil : gapped [].
Proof. split; constructor. Qed.

Lemma StronglySorted_snoc {A : Type} (R : A -> A -> Prop) (l : list A) (x : A) :
  StronglySorted R l -> Forall (fun y => R y x) l ->
  StronglySorted R (l ++ [x]).
Proof.
  induction 1 as [|y rest Hs IH Hy]; simpl; intros Hx.
  - constructor; constructor.
  - inversion Hx; subst. constructor; [auto|].
    apply Forall_app. split; [assumption|]. constructor; [assumption|constructor].
Qed.

Lemma StronglySorted_app_inv {A : Type} (R : A -> A -> Prop) (l1 l2 : list A) :
  StronglySorted R (l1 ++ l2) ->
  StronglySorted R l1 /\ StronglySorted R l2
  /\ forall x y, In x l1 -> In y l2 -> R x y.
Proof.
  induction l1 as [|a l1 IH]; simpl; intros H.
  - repeat split; [constructor|assumption|contradiction].
  - inversion H as [|? ? Hs Ha]; subst.
    destruct (IH Hs) as (H1 & H2 & H3).
    apply Forall_app in Ha. destruct Ha as [Ha1 Ha2].
    repeat split; [constructor; assumption|assumption|].
    intros x y [->|Hx] Hy; [|auto].
    rewrite Forall_forall in Ha2. auto.
Qed.

Lemma gapped_snoc (l : list Range) (x : Range) :
  gapped l -> start x < end_ x -> Forall (fun r => end_ r < start x) l ->
  gapped (l ++ [x]).
Proof.
  intros [Hn Hs] Hx Hl. split.
  - apply Forall_app. split; [assumption|]. constructor; [assumption|constructor].
  - apply StronglySorted_snoc; assumption.
Qed.

Lemma gapped_snoc_inv (l : list Range) (x : Range) :
  gapped (l ++ [x]) ->
  gapped l /\ start x < end_ x /\ Forall (fun r => end_ r < start x) l.
Proof.
  intros [Hn Hs]. apply Forall_app in Hn. destruct Hn as [Hn Hx].
  apply StronglySorted_app_inv in Hs. destruct Hs as (H1 & _ & H3).
  inversion Hx; subst. repeat split; try assumption.
  apply Forall_forall. intros r Hr. apply H3; [assumption|left; reflexivity].
Qed.

Lemma gapped_filter (f : Range -> bool) (l : list Range) :
  gapped l -> gapped (filter f l).
Proof.
  intros [Hn Hs]. split.
  - apply Forall_forall. intros r Hr. apply filter_In in Hr.
    rewrite Forall_forall in Hn. apply Hn, Hr.
  - clear Hn. induction Hs as [|a l Hs IH Ha]; simpl; [constructor|].
    destruct (f a); [|assumption].
    constructor; [assumption|].
    apply Forall_forall. intros r Hr. apply filter_In in Hr.
    rewrite Forall_forall in Ha. apply Ha, Hr.
Qed.

Lemma record_segment_settled (s : Sweep) (point : Point) :
  settled_results s -> lastOffset s < offset point ->
  gapped (record_segment s point)
  /\ Forall (fun r => end_ r <= offset point) (record_segment s point).
Proof.
  intros [Hg Hl] Hlt. unfold record_segment.
  destruct (JSArray.last (results s)) as [lastResult|] eqn:E.
  - pose proof (last_Some _ E) as Hsplit.
    set (l' := JSArray.pop (results s)) in *. clearbody l'. clear E.
    rewrite Hsplit in *. clear Hsplit.
    apply gapped_snoc_inv in Hg. destruct Hg as (Hg & Hlr & Hsep).
    apply Forall_app in Hl. destruct Hl as [Hl Hlast].
    inversion Hlast as [|? ? Hle _]; subst.
    assert (Hl' : Forall (fun r => end_ r <= offset point) l')
      by (eapply Forall_impl; [|exact Hl]; simpl; intros; lia).
    destruct (end_ lastResult =? lastOffset s) eqn:Eq; unfold JSArray.push.
    + split.
      * apply gapped_snoc; simpl; [assumption|lia|assumption].
      * apply Forall_app. split; [assumption|].
        constructor; [simpl; lia|constructor].
    + apply Z.eqb_neq in Eq.
      assert (Hall : Forall (fun r => end_ r < lastOffset s)
                       (l' ++ [lastResult])).
      { apply Forall_app. split.
        - eapply Forall_impl; [|exact Hsep]. simpl. intros; lia.
        - constructor; [lia|constructor]. }
      split.
      * apply gapped_snoc; simpl; [|lia|assumption].
        apply gapped_snoc; assumption.
      * apply Forall_app. split.
        -- eapply Forall_impl; [|exact Hall]. simpl. intros; lia.
        -- constructor; [simpl; lia|constructor].
  - apply last_None in E. rewrite E. unfold JSArray.push. simpl. split.
    + apply (gapped_snoc (l := [])); simpl; [apply gapped_nil|lia|constructor].
    + constructor; [simpl; lia|constructor].
Qed.

Lemma records_lt (s : Sweep) (point : Point) :
  records s point = true -> lastOffset s < offset point.
Proof.
  unfold records. destruct (JSArray.last (hitCountStack s)); [|discriminate].
  intros H. apply andb_true_iff in H. destruct H as [H _].
  apply Z.ltb_lt. exact H.
Qed.

Lemma scan_settled (s : Sweep) (point : Point) :
  settled_results s ->
  (results s <> [] -> lastOffset s <= offset point) ->
  settled_results (scan s point).
Proof.
  intros Hs Hle. unfold settled_results, scan. simpl.
  destruct (records s point) eqn:E.
  - apply records_lt in E. apply record_segment_settled; assumption.
  - destruct Hs as [Hg Hl]. split; [assumption|].
    destruct (results s) as [|r rs] eqn:Er; [constructor|].
    assert (lastOffset s <= offset point) by (apply Hle; discriminate).
    eapply Forall_impl; [|exact Hl]. simpl. intros; lia.
Qed.

Lemma fold_scan_settled (points : list Point) (s : Sweep) :
  StronglySorted (fun a b => offset a <= offset b) points ->
  settled_results s ->
  (results s <> [] -> Forall (fun q => lastOffset s <= offset q) points) ->
  settled_results (fold_left scan points s).
Proof.
  intros Hsorted. revert s.
  induction Hsorted as [|p rest Hs IH Hp]; simpl; intros s Hset Hle.
  - assumption.
  - apply IH.
    + apply scan_settled; [assumption|].
      intros Hne. specialize (Hle Hne). inversion Hle; assumption.
    + intros _. simpl. exact Hp.
Qed.

Lemma sweep_gapped (nestedRanges : list CoverageRange) :
  gapped (results (sweep (JSArray.sort compare (points_of nestedRanges)))).
Proof.
  unfold sweep.
  apply fold_scan_settled.
  - apply sorted_points_offset.
  - split; [apply gapped_nil|constructor].
  - intros H. exfalso. apply H. reflexivity.
Qed.

Lemma convertToDisjointRanges_gapped (nestedRanges : list CoverageRange) :
  gapped (convertToDisjointRanges nestedRanges).
Proof. apply gapped_filter, sweep_gapped. Qed.

Lemma convertToDisjointRanges_wide (nestedRanges : list CoverageRange) :
  Forall (fun r => wide r = true) (convertToDisjointRanges nestedRanges).
Proof.
  apply Forall_forall. intros r Hr.
  unfold convertToDisjointRanges in Hr. apply filter_In in Hr. apply Hr.
Qed.

Lemma gapped_sorted_by_start (l : list Range) :
  gapped l -> StronglySorted (fun a b => start a < start b) l.
Proof.
  intros [Hn Hs]. induction Hs as [|a l Hs IH Ha]; [constructor|].
  inversion Hn as [|? ? Hna Hnl]; subst.
  constructor; [auto|].
  eapply Forall_impl; [|exact Ha]. simpl. intros; lia.
Qed.

Lemma gapped_disjoint (l : list Range) :
  gapped l -> ForallOrdPairs disjoint l.
Proof.
  intros [_ Hs]. induction Hs as [|a l Hs IH Ha]; constructor; [|assumption].
  eapply Forall_impl; [|exact Ha].
  intros b Hb p [[_ H1] [H2 _]]. simpl in Hb. lia.
Qed.

(** C3.  Whatever the input, the ranges the reducer returns are sorted by
    strictly ascending start offset, no two of them share a position, and
    each is at least 2 wide. *)
Theorem convertToDisjointRanges_disjoint_sorted_wide
  (nestedRanges : list CoverageRange) :
  let output := convertToDisjointRanges nestedRanges in
  ForallOrdPairs disjoint output
  /\ StronglySorted (fun a b => start a < start b) output
  /\ Forall (fun r => 2 <= end_ r - start r) output.
Proof.
  simpl. pose proof (convertToDisjointRanges_gapped nestedRanges) as Hg.
  split; [apply gapped_disjoint; assumption|].
  split; [apply gapped_sorted_by_start; assumption|].
  eapply Forall_impl; [|apply convertToDisjointRanges_wide].
  intros r Hr. unfold wide in Hr. apply Z.ltb_lt in Hr. lia.
Qed.

(* ================================================================== *)
(** * Reducing a reduced list *)
(* ================================================================== *)

Lemma points_of_counted_offsets (g : list Range) (z : Z) :
  Forall (fun r => z < start r /\ start r < end_ r) g ->
  Forall (fun q => z < offset q) (points_of (map as_counted g)).
Proof.
  induction 1 as [|r g [H1 H2] Hg IH]; simpl; [constructor|].
  constructor; [simpl; lia|]. constructor; [simpl; lia|]. exact IH.
Qed.

Lemma lt_offset_before (a b : Point) : offset a < offset b -> before a b.
Proof.
  unfold before, compare. intros H.
  assert (E : (offset a =? offset b) = false) by (apply Z.eqb_neq; lia).
  rewrite E. simpl. lia.
Qed.

Lemma points_of_counted_sorted (g : list Range) :
  gapped g -> StronglySorted before (points_of (map as_counted g)).
Proof.
  intros [Hn Hs]. induction Hs as [|r g Hs IH Hr]; simpl; [constructor|].
  inversion Hn as [|? ? Hnr Hng]; subst.
  assert (Hrest : Forall (fun q => end_ r < offset q)
                    (points_of (map as_counted g))).
  { apply points_of_counted_offsets.
    rewrite Forall_forall in *. intros x Hx. split; auto. }
  constructor; [constructor; [auto|]|].
  - eapply Forall_impl; [|exact Hrest].
    intros q Hq. apply lt_offset_before. simpl. exact Hq.
  - constructor.
    + apply lt_offset_before. simpl. exact Hnr.
    + eapply Forall_impl; [|exact Hrest].
      intros q Hq. apply lt_offset_before. simpl in *. lia.
Qed.

(** Scanning the two points of a range that stands apart from the results
    pushes it, and leaves the stack empty. *)
Lemma scan_counted_range (done : list Range) (last : Z) (r : Range) :
  gapped (done ++ [r]) ->
  scan (scan (mkSweep [] done last) (mkPoint (start r) 0 (as_counted r)))
    (mkPoint (end_ r) 1 (as_counted r))
  = mkSweep [] (done ++ [r]) (end_ r).
Proof.
  intros Hdr.
  apply gapped_snoc_inv in Hdr. destruct Hdr as (Hd & Hlt & Hsep).
  unfold scan, records, record_segment. cbn.
  assert (E1 : (start r <? end_ r) = true) by (apply Z.ltb_lt; assumption).
  rewrite E1. cbn. f_equal.
  destruct (JSArray.last done) as [lastResult|] eqn:E.
  - apply last_Some in E. rewrite E in Hsep.
    apply Forall_app in Hsep. destruct Hsep as [_ Hsep].
    inversion Hsep; subst.
    assert (E3 : (end_ lastResult =? start r) = false)
      by (apply Z.eqb_neq; lia).
    rewrite E3. unfold JSArray.push. destruct r; reflexivity.
  - unfold JSArray.push. destruct r; reflexivity.
Qed.

Lemma scan_counted (g : list Range) :
  forall (done : list Range) (last : Z),
    gapped (done ++ g) ->
    results (fold_left scan (points_of (map as_counted g))
               (mkSweep [] done last))
    = done ++ g.
Proof.
  induction g as [|r g IH]; intros done last Hg.
  - simpl. rewrite app_nil_r. reflexivity.
  - assert (Hr : gapped (done ++ [r]) /\ gapped ((done ++ [r]) ++ g)).
    { rewrite <- app_assoc. simpl. split; [|assumption].
      destruct Hg as [Hn Hs]. split.
      - apply Forall_app in Hn. destruct Hn as [Hn1 Hn2].
        inversion Hn2; subst. apply Forall_app. split; [assumption|].
        constructor; [assumption|constructor].
      - replace (done ++ r :: g) with ((done ++ [r]) ++ g) in Hs
          by (rewrite <- app_assoc; reflexivity).
        apply StronglySorted_app_inv in Hs. apply Hs. }
    destruct Hr as [Hdr Hrest].
    change (points_of (map as_counted (r :: g)))
      with (mkPoint (start r) 0 (as_counted r)
              :: mkPoint (end_ r) 1 (as_counted r)
              :: points_of (map as_counted g)).
    cbn [fold_left].
    rewrite scan_counted_range by assumption.
    rewrite IH by assumption.
    rewrite <- app_assoc. reflexivity.
Qed.

Lemma filter_all {A : Type} (f : A -> bool) (l : list A) :
  Forall (fun x => f x = true) l -> filter f l = l.
Proof.
  induction 1 as [|x l Hx Hl IH]; simpl; [reflexivity|].
  rewrite Hx, IH. reflexivity.
Qed.

Lemma convertToDisjointRanges_fixed (g : list Range) :
  gapped g -> Forall (fun r => wide r = true) g ->
  convertToDisjointRanges (map as_counted g) = g.
Proof.
  intros Hg Hw. unfold convertToDisjointRanges.
  rewrite sort_id by (apply points_of_counted_sorted; assumption).
  unfold sweep, sweep_init.
  rewrite scan_counted by assumption.
  simpl. apply filter_all. assumption.
Qed.

(** C5.  The reducer is idempotent: its output, each range read back with
    count 1, is reduced to itself. *)
Theorem convertToDisjointRanges_idempotent
  (nestedRanges : list CoverageRange) :
  convertToDisjointRanges
    (map as_counted (convertToDisjointRanges nestedRanges))
  = convertToDisjointRanges nestedRanges.
Proof.
  apply convertToDisjointRanges_fixed.
  - apply convertToDisjointRanges_gapped.
  - apply convertToDisjointRanges_wide.
Qed.
(** C2.  The worked examples of the reducer: one range is returned as it
    is; a nested zero-count range is carved out of its parent; overlapping
    counted ranges coalesce; a range of width 1 is filtered out; and no
    input gives no output. *)
Theorem convertToDisjointRanges_examples :
  convertToDisjointRanges [mkCoverageRange 0 10 1] = [mkRange 0 10]
  /\ convertToDisjointRanges [mkCoverageRange 0 10 1; mkCoverageRange 3 6 0]
     = [mkRange 0 3; mkRange 6 10]
  /\ convertToDisjointRanges [mkCoverageRange 0 2 1; mkCoverageRange 1 2 1]
     = [mkRange 0 2]
  /\ convertToDisjointRanges [mkCoverageRange 5 6 1] = []
  /\ convertToDisjointRanges [] = [].
Proof. repeat split; vm_compute; reflexivity. Qed.

(* ================================================================== *)
(** * Maps *)
(* ================================================================== *)

Lemma get_set_same {V : Type} (m : JSMap.t V) (k : string) (v : V) :
  JSMap.get (JSMap.set m k v) k = Some v.
Proof.
  induction m as [|[k' v'] rest IH]; simpl.
  - rewrite String.eqb_refl. reflexivity.
  - destruct (String.eqb k' k) eqn:E; simpl; rewrite E; [reflexivity|exact IH].
Qed.

Lemma get_set_other {V : Type} (m : JSMap.t V) (k k' : string) (v : V) :
  k <> k' -> JSMap.get (JSMap.set m k v) k' = JSMap.get m k'.
Proof.
  intros Hne. induction m as [|[k0 v0] rest IH]; simpl.
  - apply String.eqb_neq in Hne. rewrite Hne. reflexivity.
  - destruct (String.eqb k0 k) eqn:E; simpl.
    + apply String.eqb_eq in E. subst k0.
      apply String.eqb_neq in Hne. rewrite Hne. reflexivity.
    + destruct (String.eqb k0 k'); [reflexivity|exact IH].
Qed.

Lemma get_keys {V : Type} (m : JSMap.t V) (k : string) :
  In k (JSMap.keys m) <-> exists v, JSMap.get m k = Some v.
Proof.
  unfold JSMap.keys. induction m as [|[k0 v0] rest IH]; simpl.
  - split; [contradiction|intros [v H]; discriminate].
  - destruct (String.eqb k0 k) eqn:E.
    + apply String.eqb_eq in E. split; [eauto|auto].
    + apply String.eqb_neq in E. rewrite IH. split; [|auto].
      intros [H|H]; [contradiction|exact H].
Qed.

Lemma keys_set_together {V W : Type} (m1 : JSMap.t V) (m2 : JSMap.t W)
  (k : string) (v : V) (w : W) :
  JSMap.keys m1 = JSMap.keys m2 ->
  JSMap.keys (JSMap.set m1 k v) = JSMap.keys (JSMap.set m2 k w).
Proof.
  unfold JSMap.keys. revert m2.
  induction m1 as [|[k1 v1] rest1 IH]; intros [|[k2 v2] rest2]; simpl;
    intros H; try discriminate; [reflexivity|].
  inversion H; subst.
  destruct (String.eqb k2 k); simpl; f_equal; auto.
Qed.

Lemma remove_first_In {A : Type} (eqb : A -> A -> bool) (x y : A) (l : list A) :
  In y (remove_first eqb x l) -> In y l.
Proof.
  induction l as [|z rest IH]; simpl; [auto|].
  destruct (eqb x z); simpl; intuition.
Qed.

(* ================================================================== *)
(** * The JS collector *)
(* ================================================================== *)

Lemma for_of_filter {A B : Type} (body : B -> A -> Completion B)
  (keep : A -> bool) (items : list A) :
  (forall item acc, In item items -> keep item = false ->
                    body acc item = Return acc) ->
  forall acc, for_of body items acc = for_of body (filter keep items) acc.
Proof.
  induction items as [|item rest IH]; intros H acc; [reflexivity|].
  assert (Hrest : forall x acc0, In x rest -> keep x = false ->
                                 body acc0 x = Return acc0)
    by (intros x acc0 Hx; apply H; right; exact Hx).
  simpl. destruct (keep item) eqn:E; simpl.
  - destruct (body acc item); [apply IH; exact Hrest|reflexivity].
  - rewrite (H item acc) by (auto; left; reflexivity). apply IH. exact Hrest.
Qed.

Section JSStop.

Variable arguments_limit : Z.

Lemma js_flatten_loop (funcs : list JS.FunctionCoverage) :
  forall flattenRanges,
    for_of (fun flattenRanges func =>
              JS.push_spread arguments_limit flattenRanges (JS.func_ranges func))
      funcs flattenRanges
    = if forallb
           (fun func =>
              Z.of_nat (List.length (JS.func_ranges func)) <=? arguments_limit)
           funcs
      then Return (flattenRanges ++ flat_map JS.func_ranges funcs)
      else Throw RangeError.
Proof.
  induction funcs as [|func rest IH]; intros flattenRanges; simpl.
  - rewrite app_nil_r. reflexivity.
  - unfold JS.push_spread.
    destruct (Z.of_nat (List.length (JS.func_ranges func)) <=? arguments_limit);
      simpl; [|reflexivity].
    rewrite IH, <- app_assoc. reflexivity.
Qed.

Lemma js_flatten_cases (entry : JS.ScriptCoverage) :
  JS.flatten arguments_limit entry
  = if js_spreads arguments_limit entry
    then Return (flat_map JS.func_ranges (JS.functions entry))
    else Throw RangeError.
Proof.
  unfold JS.flatten, js_spreads. rewrite js_flatten_loop. reflexivity.
Qed.

Lemma js_stop_entry_cases (this : JS.t) (coverage : list JS.CoverageEntry)
  (entry : JS.ScriptCoverage) :
  JS.stop_entry arguments_limit this coverage entry
  = if js_missing this entry then Return coverage
    else if js_spreads arguments_limit entry
         then Return (coverage ++ js_pushed arguments_limit this entry)
         else Throw RangeError.
Proof.
  unfold js_pushed, JS.stop_entry, js_missing, JSArray.push.
  destruct (JSMap.get (JS._scriptSources this) (JS.entry_scriptId entry))
    as [text|]; [|reflexivity].
  rewrite js_flatten_cases.
  destruct (JSMap.get (JS._scriptURLs this) (JS.entry_scriptId entry))
    as [u|]; simpl;
    [destruct (truthy u); simpl|];
    destruct (JS._reportAnonymousScripts this); simpl;
    try reflexivity;
    destruct (js_spreads arguments_limit entry); try reflexivity;
    destruct (JS._includeRawScriptCoverage this); reflexivity.
Qed.

Lemma js_missing_skipped (this : JS.t) (coverage : list JS.CoverageEntry)
  (entry : JS.ScriptCoverage) :
  js_missing this entry = true ->
  JS.stop_entry arguments_limit this coverage entry = Return coverage.
Proof.
  intros H. rewrite js_stop_entry_cases, H. reflexivity.
Qed.

Lemma js_missing_pushed (this : JS.t) (entry : JS.ScriptCoverage) :
  js_missing this entry = true -> js_pushed arguments_limit this entry = [].
Proof.
  intros H. unfold js_pushed. rewrite js_missing_skipped by exact H.
  reflexivity.
Qed.


Lemma js_loop_cases (this : JS.t) (entries : list JS.ScriptCoverage) :
  forall coverage,
    for_of (JS.stop_entry arguments_limit this) entries coverage
    = if forallb (js_passes arguments_limit this) entries
      then Return (coverage ++ flat_map (js_pushed arguments_limit this) entries)
      else Throw RangeError.
Proof.
  induction entries as [|entry rest IH]; intros coverage; simpl.
  - rewrite app_nil_r. reflexivity.
  - rewrite js_stop_entry_cases. unfold js_passes at 1.
    destruct (js_missing this entry) eqn:Em; simpl.
    + rewrite IH, js_missing_pushed by exact Em. reflexivity.
    + destruct (js_spreads arguments_limit entry); simpl; [|reflexivity].
      rewrite IH, <- app_assoc. reflexivity.
Qed.

Lemma js_report_loop (this : JS.t) (profileResponse : JS.ProfileResponse) :
  js_report arguments_limit this profileResponse
  = for_of (JS.stop_entry arguments_limit this) (JS.result profileResponse) [].
Proof. reflexivity. Qed.

Lemma js_report_cases (this : JS.t) (profileResponse : JS.ProfileResponse) :
  js_report arguments_limit this profileResponse
  = if forallb (js_passes arguments_limit this) (JS.result profileResponse)
    then Return (flat_map (js_pushed arguments_limit this)
                   (JS.result profileResponse))
    else Throw RangeError.
Proof.
  rewrite js_report_loop, js_loop_cases. reflexivity.
Qed.


(** Results that are skipped can as well be left out of the reply. *)
Lemma js_report_filter (this : JS.t) (profileResponse : JS.ProfileResponse)
  (keep : JS.ScriptCoverage -> bool) :
  (forall entry, In entry (JS.result profileResponse) ->
                 keep entry = false -> js_missing this entry = true) ->
  js_report arguments_limit this profileResponse
  = js_report arguments_limit this
      (JS.mkProfileResponse (filter keep (JS.result profileResponse))).
Proof.
  intros H. rewrite !js_report_loop. simpl. apply for_of_filter.
  intros entry acc Hin Hkeep. apply js_missing_skipped. auto.
Qed.

End JSStop.

(** C4.  [start] on a collector that is collecting, and [stop] on one that
    is idle, fail with the usage error and hand the object back as it was:
    the flag, both maps and every other field. *)
Theorem start_stop_usage_error (arguments_limit : Z)
  (js_on js_off : JS.t) (css_on css_off : CSS.t)
  (js_options : JS.Options) (css_options : CSS.Options)
  (settled : Completion unit)
  (profile : Completion JS.ProfileResponse)
  (tracking : Completion CSS.RuleTrackingResponse)
  (disabled : Completion unit) :
  JS._enabled js_on = true -> JS._enabled js_off = false ->
  CSS._enabled css_on = true -> CSS._enabled css_off = false ->
  JS.start js_on js_options settled
  = (Throw (InvalidStateError "JSCoverage is already enabled"), js_on)
  /\ JS.stop arguments_limit js_off profile
     = (Throw (InvalidStateError "JSCoverage is not enabled"), js_off)
  /\ CSS.start css_on css_options settled
     = (Throw (InvalidStateError "CSSCoverage is already enabled"), css_on)
  /\ CSS.stop css_off tracking disabled
     = (Throw (InvalidStateError "CSSCoverage is not enabled"), css_off).
Proof.
  intros H1 H2 H3 H4.
  unfold JS.start, JS.stop, JS.stop_begin, CSS.start, CSS.stop, CSS.stop_begin.
  rewrite H1, H2, H3, H4. simpl. repeat split.
Qed.

Lemma start_stop_usage_error_witness :
  JS.start (JS.mk true [("7", "a.js")] [("7", "f()")] [] true false false)%string
    (JS.mkOptions None None None) (Return tt)
  = (Throw (InvalidStateError "JSCoverage is already enabled"),
     JS.mk true [("7", "a.js")] [("7", "f()")] [] true false false)%string
  /\ JS.stop example_arguments_limit JS.new (Return (JS.mkProfileResponse []))
     = (Throw (InvalidStateError "JSCoverage is not enabled"), JS.new)
  /\ CSS.start (CSS.mk true [("3", "a.css")] [("3", "p{}")] [] true false)%string
       (CSS.mkOptions None) (Return tt)
     = (Throw (InvalidStateError "CSSCoverage is already enabled"),
        CSS.mk true [("3", "a.css")] [("3", "p{}")] [] true false)%string
  /\ CSS.stop CSS.new (Return (CSS.mkRuleTrackingResponse [])) (Return tt)
     = (Throw (InvalidStateError "CSSCoverage is not enabled"), CSS.new).
Proof.
  apply (@start_stop_usage_error example_arguments_limit); reflexivity.
Defined.




(** ** Sessions *)

Section JSSessions.

Variable EVALUATION_SCRIPT_URL : string.
Variable arguments_limit : Z.

Local Abbreviation step := (JS.step EVALUATION_SCRIPT_URL arguments_limit).
Local Abbreviation run := (JS.run EVALUATION_SCRIPT_URL arguments_limit).
Local Abbreviation report := (js_report arguments_limit).

Lemma js_run_cons (w : JS.World) (a : JS.Action) (rest : list JS.Action)
  (w' : JS.World) (obs : list JS.Observation) :
  run w (a :: rest) = Some (w', obs) ->
  exists w1 o obs', step w a = Some (w1, o) /\ run w1 rest = Some (w', obs').
Proof.
  simpl. destruct (step w a) as [[w1 o]|]; [|discriminate].
  destruct (JS.run _ _ w1 rest) as [[w2 obs']|] eqn:E; [|discriminate].
  intros H. inversion H; subst. eauto.
Qed.


(** A property kept by every step of the allowed kind holds at the end of
    a run of such steps. *)
Lemma js_run_invariant (P : JS.World -> Prop) (ok : JS.Action -> bool) :
  (forall w a w' o, P w -> ok a = true -> step w a = Some (w', o) -> P w') ->
  forall actions w w' obs,
    P w -> forallb ok actions = true -> run w actions = Some (w', obs) -> P w'.
Proof.
  intros Hstep. induction actions as [|a rest IH]; intros w w' obs HP Hok Hrun.
  - simpl in Hrun. inversion Hrun; subst. exact HP.
  - simpl in Hok. apply andb_true_iff in Hok. destruct Hok as [Ha Hrest].
    apply js_run_cons in Hrun. destruct Hrun as (w1 & o & obs' & Hs & Hr).
    eapply IH; [|exact Hrest|exact Hr]. eapply Hstep; eauto.
Qed.


Lemma js_start_cases (this : JS.t) (options : JS.Options)
  (settled : Completion unit) :
  snd (JS.start this options settled) = this
  \/ snd (JS.start this options settled)
     = JS.mk true [] []
         ["Debugger.scriptParsed"; "Runtime.executionContextsCleared"]%string
         (JS.default true (JS.resetOnNavigation options))
         (JS.default false (JS.reportAnonymousScripts options))
         (JS.default false (JS.includeRawScriptCoverage options)).
Proof.
  unfold JS.start. destruct (JS._enabled this); simpl; auto.
Qed.


(** *** Anonymous scripts when they are not reported *)




(** *** Anonymous scripts when they are reported *)





(** *** After a reset *)

Lemma js_text_arrived_step (w : JS.World) (a : JS.Action) (w' : JS.World)
  (o : JS.Observation) (k : string) :
  step w a = Some (w', o) ->
  JSMap.get (JS._scriptSources (JS.collector w')) k <> None ->
  JSMap.get (JS._scriptSources (JS.collector w)) k <> None
  \/ In k (js_arrived [a]).
Proof.
  intros Hs Hk.
  destruct a as [options settled|event|event response| | |settled];
    simpl in Hs.
  - destruct (JS.start (JS.collector w) options settled) as [outcome this] eqn:E.
    inversion Hs; subst; simpl in Hk.
    pose proof (js_start_cases (JS.collector w) options settled) as Hc.
    rewrite E in Hc. simpl in Hc.
    destruct Hc as [-> | ->]; [auto|]. simpl in Hk. congruence.
  - destruct (JS._onScriptParsed_sends _ (JS.collector w) event);
      inversion Hs; subst; auto.
  - destruct (existsb (JS.event_eqb event) (JS.fetching w)); [|discriminate].
    inversion Hs; subst; simpl in Hk.
    destruct response as [scriptSource|e]; simpl in *; [|auto].
    destruct (String.eqb (JS.event_scriptId event) k) eqn:E.
    + apply String.eqb_eq in E. auto.
    + apply String.eqb_neq in E. rewrite get_set_other in Hk by assumption.
      auto.
  - inversion Hs; subst; simpl in Hk. unfold JS._onExecutionContextsCleared in Hk.
    destruct (negb (JS._resetOnNavigation (JS.collector w)));
      simpl in Hk; [auto|congruence].
  - unfold JS.stop_begin in Hs.
    destruct (JS._enabled (JS.collector w)); simpl in Hs;
      inversion Hs; subst; auto.
  - destruct (JS.stopping w); [discriminate|].
    destruct settled; simpl in Hs; inversion Hs; subst; auto.
Qed.

Lemma js_arrived_cons (a : JS.Action) (rest : list JS.Action) :
  js_arrived (a :: rest) = js_arrived [a] ++ js_arrived rest.
Proof.
  destruct a as [| |event [text|e]| | |]; reflexivity.
Qed.

Lemma js_text_arrived_run (actions : list JS.Action) :
  forall (w w' : JS.World) (obs : list JS.Observation) (k : string),
    run w actions = Some (w', obs) ->
    JSMap.get (JS._scriptSources (JS.collector w')) k <> None ->
    JSMap.get (JS._scriptSources (JS.collector w)) k <> None
    \/ In k (js_arrived actions).
Proof.
  induction actions as [|a rest IH]; intros w w' obs k Hrun Hk.
  - simpl in Hrun. inversion Hrun; subst. auto.
  - apply js_run_cons in Hrun. destruct Hrun as (w1 & o & obs' & Hs & Hr).
    rewrite js_arrived_cons.
    destruct (IH _ _ _ _ Hr Hk) as [H|H].
    + destruct (@js_text_arrived_step w a w1 o k Hs H) as [H'|H']; [auto|].
      right. apply in_or_app. auto.
    + right. apply in_or_app. auto.
Qed.

Lemma js_reset_run (after : list JS.Action) (w0 w : JS.World)
  (obs : list JS.Observation) (profileResponse : JS.ProfileResponse) :
  JS._resetOnNavigation (JS.collector w0) = true ->
  run w0 (JS.ExecutionContextsCleared :: after) = Some (w, obs) ->
  report (JS.collector w) profileResponse
  = report (JS.collector w)
      (only_scripts (js_arrived after) profileResponse).
Proof.
  intros Hreset Hrun.
  apply js_run_cons in Hrun. destruct Hrun as (w1 & o & obs' & Hs & Hr).
  simpl in Hs. inversion Hs; subst w1 o. clear Hs.
  unfold only_scripts. apply js_report_filter.
  intros entry _ Hout. unfold js_missing.
  destruct (JSMap.get (JS._scriptSources (JS.collector w))
              (JS.entry_scriptId entry)) eqn:E; [|reflexivity].
  exfalso.
  destruct (@js_text_arrived_run after _ _ _ (JS.entry_scriptId entry) Hr)
    as [H|H].
  - congruence.
  - simpl in H. unfold JS._onExecutionContextsCleared in H.
    rewrite Hreset in H. simpl in H. congruence.
  - assert (Ht : existsb (String.eqb (JS.entry_scriptId entry))
                   (js_arrived after) = true).
    { apply existsb_exists. exists (JS.entry_scriptId entry).
      split; [exact H|apply String.eqb_refl]. }
    congruence.
Qed.

End JSSessions.

(* ================================================================== *)
(** * The CSS collector *)
(* ================================================================== *)

Lemma css_run_cons (w : CSS.World) (a : CSS.Action) (rest : list CSS.Action)
  (w' : CSS.World) (obs : list CSS.Observation) :
  CSS.run w (a :: rest) = Some (w', obs) ->
  exists w1 o obs',
    CSS.step w a = Some (w1, o) /\ CSS.run w1 rest = Some (w', obs').
Proof.
  simpl. destruct (CSS.step w a) as [[w1 o]|]; [|discriminate].
  destruct (CSS.run w1 rest) as [[w2 obs']|] eqn:E; [|discriminate].
  intros H. inversion H; subst. eauto.
Qed.

Lemma css_run_invariant (P : CSS.World -> Prop) (ok : CSS.Action -> bool) :
  (forall w a w' o,
      P w -> ok a = true -> CSS.step w a = Some (w', o) -> P w') ->
  forall actions w w' obs,
    P w -> forallb ok actions = true ->
    CSS.run w actions = Some (w', obs) -> P w'.
Proof.
  intros Hstep. induction actions as [|a rest IH]; intros w w' obs HP Hok Hrun.
  - simpl in Hrun. inversion Hrun; subst. exact HP.
  - simpl in Hok. apply andb_true_iff in Hok. destruct Hok as [Ha Hrest].
    apply css_run_cons in Hrun. destruct Hrun as (w1 & o & obs' & Hs & Hr).
    eapply IH; [|exact Hrest|exact Hr]. eapply Hstep; eauto.
Qed.

Lemma forallb_true {A : Type} (l : list A) : forallb (fun _ => true) l = true.
Proof. induction l; simpl; auto. Qed.

Lemma css_start_cases (this : CSS.t) (options : CSS.Options)
  (settled : Completion unit) :
  snd (CSS.start this options settled) = this
  \/ exists reset,
      snd (CSS.start this options settled)
      = CSS.mk true [] []
          ["CSS.styleSheetAdded"; "Runtime.executionContextsCleared"]%string
          reset (CSS._reportAnonymousScripts this).
Proof.
  unfold CSS.start. destruct (CSS._enabled this); simpl; eauto.
Qed.

Lemma css_fetching_same (event : CSS.StyleSheetAddedEvent)
  (fetching : list CSS.StyleSheetAddedEvent) :
  existsb (CSS.event_eqb event) fetching = true ->
  exists event',
    In event' fetching
    /\ CSS.styleSheetId (CSS.header event')
       = CSS.styleSheetId (CSS.header event).
Proof.
  intros H. apply existsb_exists in H. destruct H as (event' & Hin & Heq).
  unfold CSS.event_eqb in Heq. apply andb_true_iff in Heq.
  destruct Heq as [Heq _]. apply String.eqb_eq in Heq. eauto.
Qed.

(** ** The report, sheet by sheet *)

Lemma ranges_at_aggregate (m : JSMap.t (list CoverageRange))
  (entry : CSS.RuleUsage) (k : string) :
  ranges_at (CSS.aggregate m entry) k
  = ranges_at m k
      ++ (if String.eqb (CSS.rule_styleSheetId entry) k
          then [mkCoverageRange (CSS.rule_startOffset entry)
                  (CSS.rule_endOffset entry)
                  (if CSS.used entry then 1 else 0)]
          else []).
Proof.
  unfold ranges_at, CSS.aggregate, JSArray.push.
  destruct (String.eqb (CSS.rule_styleSheetId entry) k) eqn:E.
  - apply String.eqb_eq in E. subst k. rewrite get_set_same. reflexivity.
  - apply String.eqb_neq in E. rewrite get_set_other by assumption.
    rewrite app_nil_r. reflexivity.
Qed.

Lemma ranges_at_aggregated (usage : list CSS.RuleUsage) (k : string) :
  forall m,
    ranges_at (fold_left CSS.aggregate usage m) k
    = ranges_at m k ++ usage_of k (CSS.mkRuleTrackingResponse usage).
Proof.
  unfold usage_of. simpl.
  induction usage as [|entry rest IH]; intros m; simpl.
  - rewrite app_nil_r. reflexivity.
  - rewrite IH, ranges_at_aggregate, <- app_assoc. f_equal.
    destruct (String.eqb (CSS.rule_styleSheetId entry) k); reflexivity.
Qed.

Lemma css_loop_map (this : CSS.t) (m : JSMap.t (list CoverageRange))
  (ids : list string) :
  forall coverage,
    fold_left (CSS.stop_entry this m) ids coverage
    = coverage
        ++ map (fun id =>
                  CSS.mkCoverageEntry
                    (JSMap.get (CSS._stylesheetURLs this) id)
                    (convertToDisjointRanges (ranges_at m id))
                    (JSMap.get (CSS._stylesheetSources this) id)) ids.
Proof.
  induction ids as [|id rest IH]; intros coverage; simpl.
  - rewrite app_nil_r. reflexivity.
  - rewrite IH. unfold CSS.stop_entry, JSArray.push.
    rewrite <- app_assoc. reflexivity.
Qed.

Lemma css_report_map (this : CSS.t) (tracking : CSS.RuleTrackingResponse) :
  css_report this tracking
  = Return (map (css_entry this tracking)
              (JSMap.keys (CSS._stylesheetURLs this))).
Proof.
  unfold css_report, CSS.stop_resume. simpl.
  rewrite css_loop_map. simpl. f_equal.
  apply map_ext. intros id. unfold css_entry.
  rewrite ranges_at_aggregated. destruct tracking. reflexivity.
Qed.

Lemma usage_of_without (k styleSheetId : string)
  (tracking : CSS.RuleTrackingResponse) :
  k <> styleSheetId ->
  usage_of k (without_sheet styleSheetId tracking) = usage_of k tracking.
Proof.
  intros Hne. unfold usage_of, without_sheet. simpl. f_equal.
  induction (CSS.ruleUsage tracking) as [|entry rest IH]; simpl;
    [reflexivity|].
  destruct (String.eqb (CSS.rule_styleSheetId entry) styleSheetId) eqn:E1;
    simpl.
  - apply String.eqb_eq in E1.
    assert (E2 : String.eqb (CSS.rule_styleSheetId entry) k = false)
      by (apply String.eqb_neq; congruence).
    rewrite E2. exact IH.
  - destruct (String.eqb (CSS.rule_styleSheetId entry) k); [f_equal|];
      exact IH.
Qed.

(** ** What the maps hold during a session *)

Lemma css_together_step (w : CSS.World) (a : CSS.Action) (w' : CSS.World)
  (o : CSS.Observation) :
  JSMap.keys (CSS._stylesheetURLs (CSS.collector w))
  = JSMap.keys (CSS._stylesheetSources (CSS.collector w)) ->
  CSS.step w a = Some (w', o) ->
  JSMap.keys (CSS._stylesheetURLs (CSS.collector w'))
  = JSMap.keys (CSS._stylesheetSources (CSS.collector w')).
Proof.
  intros Hk Hs.
  destruct a as [options settled|event|event response| | |tracking disabled];
    simpl in Hs.
  - destruct (CSS.start (CSS.collector w) options settled)
      as [outcome this] eqn:E.
    inversion Hs; subst; simpl.
    pose proof (css_start_cases (CSS.collector w) options settled) as Hc.
    rewrite E in Hc. simpl in Hc.
    destruct Hc as [-> | [reset ->]]; [assumption|reflexivity].
  - destruct (CSS._onStyleSheet_sends (CSS.collector w) event);
      inversion Hs; subst; assumption.
  - destruct (existsb (CSS.event_eqb event) (CSS.fetching w)); [|discriminate].
    inversion Hs; subst; simpl.
    destruct response; simpl; [|assumption].
    apply keys_set_together. assumption.
  - inversion Hs; subst; simpl. unfold CSS._onExecutionContextsCleared.
    destruct (negb (CSS._resetOnNavigation (CSS.collector w)));
      [assumption|reflexivity].
  - unfold CSS.stop_begin in Hs.
    destruct (CSS._enabled (CSS.collector w)); simpl in Hs;
      inversion Hs; subst; assumption.
  - destruct (CSS.stopping w); [discriminate|].
    destruct tracking; simpl in Hs;
      [destruct disabled; simpl in Hs|]; inversion Hs; subst; assumption.
Qed.

Lemma css_no_source_url_step (styleSheetId : string) (w : CSS.World)
  (a : CSS.Action) (w' : CSS.World) (o : CSS.Observation) :
  ((forall event, In event (CSS.fetching w) ->
                  CSS.styleSheetId (CSS.header event) <> styleSheetId)
   /\ JSMap.get (CSS._stylesheetURLs (CSS.collector w)) styleSheetId = None) ->
  css_no_source_url styleSheetId a = true ->
  CSS.step w a = Some (w', o) ->
  (forall event, In event (CSS.fetching w') ->
                 CSS.styleSheetId (CSS.header event) <> styleSheetId)
  /\ JSMap.get (CSS._stylesheetURLs (CSS.collector w')) styleSheetId = None.
Proof.
  intros (Hfetch & Hnone) Hok Hs.
  destruct a as [options settled|event|event response| | |tracking disabled];
    simpl in Hs, Hok.
  - destruct (CSS.start (CSS.collector w) options settled)
      as [outcome this] eqn:E.
    inversion Hs; subst; simpl.
    pose proof (css_start_cases (CSS.collector w) options settled) as Hc.
    rewrite E in Hc. simpl in Hc.
    destruct Hc as [-> | [reset ->]]; simpl; auto.
  - destruct (CSS._onStyleSheet_sends (CSS.collector w) event) eqn:E;
      inversion Hs; subst; simpl; [|auto].
    split; [|assumption].
    intros event' [<-|Hin]; [|auto].
    intros Hid. rewrite Hid, String.eqb_refl in Hok.
    apply String.eqb_eq in Hok.
    unfold CSS._onStyleSheet_sends, truthy in E. rewrite Hok in E.
    discriminate.
  - destruct (existsb (CSS.event_eqb event) (CSS.fetching w)) eqn:E;
      [|discriminate].
    inversion Hs; subst; simpl.
    apply css_fetching_same in E. destruct E as (event' & Hin & Hid).
    assert (Hne : CSS.styleSheetId (CSS.header event) <> styleSheetId)
      by (rewrite <- Hid; auto).
    split.
    + intros e He. apply remove_first_In in He. auto.
    + destruct response; simpl; [|assumption].
      rewrite get_set_other by assumption. assumption.
  - inversion Hs; subst; simpl. unfold CSS._onExecutionContextsCleared.
    destruct (negb (CSS._resetOnNavigation (CSS.collector w))); simpl; auto.
  - unfold CSS.stop_begin in Hs.
    destruct (CSS._enabled (CSS.collector w)); simpl in Hs;
      inversion Hs; subst; auto.
  - destruct (CSS.stopping w); [discriminate|].
    destruct tracking; simpl in Hs;
      [destruct disabled; simpl in Hs|]; inversion Hs; subst; auto.
Qed.

Lemma css_text_arrived_step (w : CSS.World) (a : CSS.Action) (w' : CSS.World)
  (o : CSS.Observation) (k : string) :
  CSS.step w a = Some (w', o) ->
  JSMap.get (CSS._stylesheetURLs (CSS.collector w')) k <> None ->
  JSMap.get (CSS._stylesheetURLs (CSS.collector w)) k <> None
  \/ In k (css_arrived [a]).
Proof.
  intros Hs Hk.
  destruct a as [options settled|event|event response| | |tracking disabled];
    simpl in Hs.
  - destruct (CSS.start (CSS.collector w) options settled)
      as [outcome this] eqn:E.
    inversion Hs; subst; simpl in Hk.
    pose proof (css_start_cases (CSS.collector w) options settled) as Hc.
    rewrite E in Hc. simpl in Hc.
    destruct Hc as [-> | [reset ->]]; [auto|]. simpl in Hk. congruence.
  - destruct (CSS._onStyleSheet_sends (CSS.collector w) event);
      inversion Hs; subst; auto.
  - destruct (existsb (CSS.event_eqb event) (CSS.fetching w)); [|discriminate].
    inversion Hs; subst; simpl in Hk.
    destruct response as [text|e]; simpl in *; [|auto].
    destruct (String.eqb (CSS.styleSheetId (CSS.header event)) k) eqn:E.
    + apply String.eqb_eq in E. auto.
    + apply String.eqb_neq in E. rewrite get_set_other in Hk by assumption.
      auto.
  - inversion Hs; subst; simpl in Hk.
    unfold CSS._onExecutionContextsCleared in Hk.
    destruct (negb (CSS._resetOnNavigation (CSS.collector w)));
      simpl in Hk; [auto|congruence].
  - unfold CSS.stop_begin in Hs.
    destruct (CSS._enabled (CSS.collector w)); simpl in Hs;
      inversion Hs; subst; auto.
  - destruct (CSS.stopping w); [discriminate|].
    destruct tracking; simpl in Hs;
      [destruct disabled; simpl in Hs|]; inversion Hs; subst; auto.
Qed.

Lemma css_arrived_cons (a : CSS.Action) (rest : list CSS.Action) :
  css_arrived (a :: rest) = css_arrived [a] ++ css_arrived rest.
Proof.
  destruct a as [| |event [text|e]| | |]; reflexivity.
Qed.

Lemma css_text_arrived_run (actions : list CSS.Action) :
  forall (w w' : CSS.World) (obs : list CSS.Observation) (k : string),
    CSS.run w actions = Some (w', obs) ->
    JSMap.get (CSS._stylesheetURLs (CSS.collector w')) k <> None ->
    JSMap.get (CSS._stylesheetURLs (CSS.collector w)) k <> None
    \/ In k (css_arrived actions).
Proof.
  induction actions as [|a rest IH]; intros w w' obs k Hrun Hk.
  - simpl in Hrun. inversion Hrun; subst. auto.
  - apply css_run_cons in Hrun. destruct Hrun as (w1 & o & obs' & Hs & Hr).
    rewrite css_arrived_cons.
    destruct (IH _ _ _ _ Hr Hk) as [H|H].
    + destruct (@css_text_arrived_step w a w1 o k Hs H) as [H'|H']; [auto|].
      right. apply in_or_app. auto.
    + right. apply in_or_app. auto.
Qed.

(* ================================================================== *)
(** * The collectors' properties *)
(* ================================================================== *)




(** C8.  After a reset.  When [_resetOnNavigation] is set and the
    execution contexts are cleared, whatever happens next, the JS report is
    what it would be had the protocol only spoken of the scripts whose
    source arrived after the clearing, and the CSS report has entries only
    for sheets whose text arrived after it. *)
Theorem reset_isolates_navigation (EVALUATION_SCRIPT_URL : string)
  (arguments_limit : Z) :
  (forall after w0 w obs,
      JS._resetOnNavigation (JS.collector w0) = true ->
      JS.run EVALUATION_SCRIPT_URL arguments_limit w0
        (JS.ExecutionContextsCleared :: after)
      = Some (w, obs) ->
      forall profileResponse,
        js_report arguments_limit (JS.collector w) profileResponse
        = js_report arguments_limit (JS.collector w)
            (only_scripts (js_arrived after) profileResponse))
  /\ (forall after w0 w obs,
        CSS._resetOnNavigation (CSS.collector w0) = true ->
        CSS.run w0 (CSS.ExecutionContextsCleared :: after) = Some (w, obs) ->
        forall tracking,
          exists ids,
            Forall (fun id => In id (css_arrived after)) ids
            /\ css_report (CSS.collector w) tracking
               = Return (map (css_entry (CSS.collector w) tracking) ids)).
Proof.
  split.
  - intros after w0 w obs Hreset Hrun profileResponse.
    eapply js_reset_run; eassumption.
  - intros after w0 w obs Hreset Hrun tracking.
    exists (JSMap.keys (CSS._stylesheetURLs (CSS.collector w))).
    split; [|apply css_report_map].
    apply css_run_cons in Hrun. destruct Hrun as (w1 & o & obs' & Hs & Hr).
    simpl in Hs. inversion Hs; subst w1 o. clear Hs.
    apply Forall_forall. intros k Hk.
    apply get_keys in Hk. destruct Hk as [v Hv].
    destruct (@css_text_arrived_run after _ _ _ k Hr) as [H|H].
    + congruence.
    + simpl in H. unfold CSS._onExecutionContextsCleared in H.
      rewrite Hreset in H. simpl in H. congruence.
    + exact H.
Qed.

Lemma reset_isolates_navigation_witness :
  js_report example_arguments_limit
    (JS.collector
       (fst (example_js_run (example_js_actions ++ example_js_after))))
    example_profile_456
  = js_report example_arguments_limit
      (JS.collector
         (fst (example_js_run (example_js_actions ++ example_js_after))))
      (only_scripts ["4"; "6"]%string example_profile_456)
  /\ exists ids,
       Forall (fun id => In id ["8"]%string) ids
       /\ css_report
            (CSS.collector
               (fst (example_css_run
                       (example_css_actions
                          ++ CSS.ExecutionContextsCleared :: example_css_after))))
            example_tracking
          = Return
              (map
                 (css_entry
                    (CSS.collector
                       (fst (example_css_run
                               (example_css_actions
                                  ++ CSS.ExecutionContextsCleared
                                  :: example_css_after))))
                    example_tracking) ids).
Proof.
  destruct (reset_isolates_navigation example_evaluation_url
              example_arguments_limit) as [Hjs Hcss].
  split.
  - apply (Hjs (JS.ScriptSource (JS.mkScriptParsedEvent "4" "") (Return "eval")
                  :: example_js_after)%string
             (fst (example_js_run (firstn 4 example_js_actions)))
             _
             (skipn 4 (snd (example_js_run
                              (example_js_actions ++ example_js_after)))));
      vm_compute; reflexivity.
  - apply (Hcss example_css_after
             (fst (example_css_run example_css_actions))
             _
             (skipn 4
                (snd (example_css_run
                        (example_css_actions
                           ++ CSS.ExecutionContextsCleared
                           :: example_css_after)))));
      vm_compute; reflexivity.
Defined.

(** C9.  Style sheets in the report.  In a run of a new collector in which
    a sheet is only announced without a source URL, the sheet is never a key
    of the registry and every report is what it would be had the protocol
    held no rule usage for it.  A report has one entry for each registered
    sheet, in the order of registration, with the URL and the text of the
    registry; and the entry of a sheet without rule usage has no range. *)
Theorem css_sheets_reported :
  (forall styleSheetId actions w obs,
      CSS.run CSS.fresh actions = Some (w, obs) ->
      forallb (css_no_source_url styleSheetId) actions = true ->
      ~ In styleSheetId (JSMap.keys (CSS._stylesheetURLs (CSS.collector w)))
      /\ forall tracking,
           css_report (CSS.collector w) tracking
           = css_report (CSS.collector w) (without_sheet styleSheetId tracking))
  /\ (forall this tracking,
        css_report this tracking
        = Return (map (css_entry this tracking)
                    (JSMap.keys (CSS._stylesheetURLs this))))
  /\ (forall this tracking styleSheetId,
        In styleSheetId (JSMap.keys (CSS._stylesheetURLs this)) ->
        usage_of styleSheetId tracking = [] ->
        exists coverage,
          css_report this tracking = Return coverage
          /\ In (CSS.mkCoverageEntry
                   (JSMap.get (CSS._stylesheetURLs this) styleSheetId) []
                   (JSMap.get (CSS._stylesheetSources this) styleSheetId))
               coverage).
Proof.
  split; [|split].
  - intros styleSheetId actions w obs Hrun Hok.
    pose (P := fun x : CSS.World =>
      (forall event, In event (CSS.fetching x) ->
                     CSS.styleSheetId (CSS.header event) <> styleSheetId)
      /\ JSMap.get (CSS._stylesheetURLs (CSS.collector x)) styleSheetId = None).
    assert (HP : P w).
    { eapply (@css_run_invariant P (css_no_source_url styleSheetId));
        [| |exact Hok|exact Hrun].
      - intros x a x' o. apply css_no_source_url_step.
      - unfold P. simpl. split; [intros event []|reflexivity]. }
    destruct HP as [_ Hnone].
    assert (Hnot : ~ In styleSheetId
                     (JSMap.keys (CSS._stylesheetURLs (CSS.collector w)))).
    { intros Hin. apply get_keys in Hin. destruct Hin as [v Hv]. congruence. }
    split; [exact Hnot|].
    intros tracking. rewrite !css_report_map. f_equal.
    apply map_ext_in. intros k Hk. unfold css_entry.
    rewrite usage_of_without; [reflexivity|].
    intros ->. contradiction.
  - apply css_report_map.
  - intros this tracking styleSheetId Hin Hnone.
    rewrite css_report_map. eexists. split; [reflexivity|].
    apply in_map_iff. exists styleSheetId. split; [|exact Hin].
    unfold css_entry. rewrite Hnone. reflexivity.
Qed.

Lemma css_sheets_reported_witness :
  (~ In "9"%string
       (JSMap.keys
          (CSS._stylesheetURLs
             (CSS.collector (fst (example_css_run example_css_actions)))))
   /\ css_report (CSS.collector (fst (example_css_run example_css_actions)))
        example_tracking
      = css_report (CSS.collector (fst (example_css_run example_css_actions)))
          (without_sheet "9" example_tracking))
  /\ exists coverage,
       css_report (CSS.collector (fst (example_css_run example_css_actions)))
         (CSS.mkRuleTrackingResponse [])
       = Return coverage
       /\ In (CSS.mkCoverageEntry (Some "old.css") [] (Some "p{}"))%string
            coverage.
Proof.
  destruct css_sheets_reported as (Hnone & _ & Hempty).
  split.
  - destruct (Hnone "9"%string example_css_actions
                (fst (example_css_run example_css_actions))
                (snd (example_css_run example_css_actions))
                eq_refl eq_refl) as [H1 H2].
    split; [exact H1|apply H2].
  - apply (Hempty (CSS.collector (fst (example_css_run example_css_actions)))
             (CSS.mkRuleTrackingResponse []) "3"%string).
    + left. reflexivity.
    + reflexivity.
Defined.

(** C10.  In every state a new CSS collector can come to, the URL map and
    the text map have the same keys, in the same order; so every entry of a
    report has a URL and a text. *)
Theorem css_maps_together (actions : list CSS.Action) (w : CSS.World)
  (obs : list CSS.Observation) :
  CSS.run CSS.fresh actions = Some (w, obs) ->
  JSMap.keys (CSS._stylesheetURLs (CSS.collector w))
  = JSMap.keys (CSS._stylesheetSources (CSS.collector w))
  /\ forall tracking disabled coverage,
       fst (CSS.stop_resume (CSS.collector w) tracking disabled)
       = Return coverage ->
       Forall (fun entry =>
                 CSS.url entry <> None /\ CSS.text entry <> None) coverage.
Proof.
  intros Hrun.
  assert (Hkeys : JSMap.keys (CSS._stylesheetURLs (CSS.collector w))
                  = JSMap.keys (CSS._stylesheetSources (CSS.collector w))).
  { eapply (@css_run_invariant
              (fun x => JSMap.keys (CSS._stylesheetURLs (CSS.collector x))
                        = JSMap.keys (CSS._stylesheetSources (CSS.collector x)))
              (fun _ => true));
      [| |apply forallb_true|exact Hrun].
    - intros x a x' o Hx _. apply css_together_step. exact Hx.
    - reflexivity. }
  split; [exact Hkeys|].
  intros tracking disabled coverage Hstop.
  destruct tracking as [tracking|e]; [|discriminate].
  destruct disabled as [[]|e]; [|discriminate].
  change (css_report (CSS.collector w) tracking = Return coverage) in Hstop.
  rewrite css_report_map in Hstop. inversion Hstop; subst coverage.
  apply Forall_forall. intros entry Hin.
  apply in_map_iff in Hin. destruct Hin as (k & <- & Hk).
  unfold css_entry. simpl. split.
  - apply get_keys in Hk. destruct Hk as [v ->]. discriminate.
  - rewrite Hkeys in Hk. apply get_keys in Hk. destruct Hk as [v ->].
    discriminate.
Qed.

Lemma css_maps_together_witness :
  JSMap.keys
    (CSS._stylesheetURLs
       (CSS.collector
          (fst (example_css_run (example_css_actions ++ example_css_after)))))
  = JSMap.keys
      (CSS._stylesheetSources
         (CSS.collector
            (fst (example_css_run (example_css_actions ++ example_css_after)))))
  /\ forall tracking disabled coverage,
       fst (CSS.stop_resume
              (CSS.collector
                 (fst (example_css_run
                         (example_css_actions ++ example_css_after))))
              tracking disabled)
       = Return coverage ->
       Forall (fun entry =>
                 CSS.url entry <> None /\ CSS.text entry <> None) coverage.
Proof.
  apply (@css_maps_together (example_css_actions ++ example_css_after) _
           (snd (example_css_run (example_css_actions ++ example_css_after)))).
  vm_compute. reflexivity.
Defined.

(* ================================================================== *)
(** * What the reducer reports: the hot positions *)
(* ================================================================== *)

(** ** Lists cut in two by a property that, once true, stays true *)

Lemma filter_none {A : Type} (f : A -> bool) (l : list A) :
  Forall (fun x => f x = false) l -> filter f l = [].
Proof.
  induction 1 as [|x l Hx Hl IH]; simpl; [reflexivity|].
  rewrite Hx. exact IH.
Qed.

Lemma split_monotone {A : Type} (R : A -> A -> Prop) (P : A -> bool)
  (l : list A) :
  StronglySorted R l ->
  (forall a b, In a l -> In b l -> R a b -> P a = true -> P b = true) ->
  l = filter (fun x => negb (P x)) l ++ filter P l.
Proof.
  induction 1 as [|a l Hs IH Ha]; intros Hmono; [reflexivity|].
  simpl. destruct (P a) eqn:E; simpl.
  - assert (Hall : Forall (fun x => P x = true) l).
    { rewrite Forall_forall in *. intros b Hb.
      apply (Hmono a b); simpl; auto. }
    rewrite filter_none, filter_all; [reflexivity|assumption|].
    eapply Forall_impl; [|exact Hall]. simpl. intros b ->. reflexivity.
  - f_equal. apply IH. intros x y Hx Hy. apply Hmono; simpl; auto.
Qed.

Lemma StronglySorted_filter {A : Type} (R : A -> A -> Prop) (f : A -> bool)
  (l : list A) :
  StronglySorted R l -> StronglySorted R (filter f l).
Proof.
  induction 1 as [|a l Hs IH Ha]; simpl; [constructor|].
  destruct (f a); [|assumption].
  constructor; [assumption|].
  apply Forall_forall. intros r Hr. apply filter_In in Hr.
  rewrite Forall_forall in Ha. apply Ha, Hr.
Qed.

Lemma filter_length_perm {A : Type} (f : A -> bool) (l l' : list A) :
  Permutation l l' -> List.length (filter f l) = List.length (filter f l').
Proof.
  induction 1 as [|x l l' H IH|x y l|l l' l'' H1 IH1 H2 IH2]; simpl.
  - reflexivity.
  - destruct (f x); simpl; congruence.
  - destruct (f x), (f y); reflexivity.
  - congruence.
Qed.

Lemma last_map {A B : Type} (f : A -> B) (l : list A) :
  JSArray.last (map f l) = option_map f (JSArray.last l).
Proof.
  induction l as [|x [|y rest] IH]; try reflexivity.
  exact IH.
Qed.

Lemma last_app_cons {A : Type} (l : list A) (x : A) :
  JSArray.last (l ++ [x]) = Some x.
Proof. apply last_push. Qed.

Lemma last_app_nil {A : Type} (l1 l2 : list A) :
  l2 = [] -> JSArray.last (l1 ++ l2) = JSArray.last l1.
Proof. intros ->. rewrite app_nil_r. reflexivity. Qed.

(** ** More on sorting: what comes first, what comes last, what is kept *)

Section SortingMore.

Variable A : Type.
Variable comparefn : A -> A -> Z.

Let le (x y : A) : Prop := comparefn x y <= 0.

Hypothesis le_total : forall x y, le x y \/ le y x.
Hypothesis le_trans : forall x y z, le x y -> le y z -> le x z.

Lemma insert_first (x : A) (a : list A) :
  Forall (le x) a -> JSArray.insert comparefn x a = x :: a.
Proof.
  intros H. destruct a as [|y rest]; [reflexivity|].
  inversion H as [|? ? Hy _]; subst. simpl.
  unfold le in Hy. apply Z.leb_le in Hy. rewrite Hy. reflexivity.
Qed.

Lemma filter_insert (keep : A -> bool) (x : A) (a : list A) :
  StronglySorted le a ->
  filter keep (JSArray.insert comparefn x a)
  = if keep x then JSArray.insert comparefn x (filter keep a)
    else filter keep a.
Proof.
  induction 1 as [|y rest Hs IH Hy]; simpl.
  - destruct (keep x); reflexivity.
  - destruct (comparefn x y <=? 0) eqn:E; simpl.
    + apply Z.leb_le in E.
      destruct (keep x) eqn:Kx; [|reflexivity].
      destruct (keep y) eqn:Ky.
      * simpl. apply Z.leb_le in E. rewrite E. reflexivity.
      * symmetry. apply insert_first.
        apply Forall_forall. intros z Hz. apply filter_In in Hz.
        rewrite Forall_forall in Hy. eapply le_trans; [exact E|].
        apply Hy, Hz.
    + rewrite IH. destruct (keep y) eqn:Ky; [|reflexivity].
      destruct (keep x); [|reflexivity].
      simpl. rewrite E. reflexivity.
Qed.

Lemma filter_sort (keep : A -> bool) (a : list A) :
  filter keep (JSArray.sort comparefn a)
  = JSArray.sort comparefn (filter keep a).
Proof.
  induction a as [|x rest IH]; simpl; [reflexivity|].
  rewrite filter_insert by (apply sort_sorted; assumption).
  rewrite IH. destruct (keep x); reflexivity.
Qed.

Lemma last_sorted_greatest (a : list A) (b : A) :
  StronglySorted le a -> JSArray.last a = Some b -> Forall (fun y => le y b) a.
Proof.
  induction 1 as [|y rest Hs IH Hy]; intros Hb; [constructor|].
  destruct rest as [|z rest'].
  - simpl in Hb. inversion Hb; subst. constructor; [|constructor].
    destruct (le_total b b); assumption.
  - change (JSArray.last (z :: rest') = Some b) in Hb.
    specialize (IH Hb). constructor; [|exact IH].
    inversion Hy as [|? ? Hyz _]; subst.
    inversion IH as [|? ? Hzb _]; subst. eapply le_trans; eassumption.
Qed.

Lemma last_insert (x : A) (a : list A) :
  StronglySorted le a ->
  JSArray.last (JSArray.insert comparefn x a)
  = match JSArray.last a with
    | None => Some x
    | Some b => if comparefn x b <=? 0 then Some b else Some x
    end.
Proof.
  induction 1 as [|y rest Hs IH Hy]; [reflexivity|].
  assert (Hsorted : StronglySorted le (y :: rest)) by (constructor; assumption).
  simpl JSArray.insert.
  destruct (comparefn x y <=? 0) eqn:E.
  - change (JSArray.last (x :: y :: rest)) with (JSArray.last (y :: rest)).
    destruct (JSArray.last (y :: rest)) as [b|] eqn:Eb.
    + pose proof (last_sorted_greatest Hsorted Eb) as Hall.
      inversion Hall as [|? ? Hyb _]; subst.
      apply Z.leb_le in E.
      assert (Hxb : le x b) by (eapply le_trans; eassumption).
      unfold le in Hxb. apply Z.leb_le in Hxb. rewrite Hxb. reflexivity.
    + apply last_None in Eb. discriminate.
  - destruct rest as [|z rest'].
    + simpl. rewrite E. reflexivity.
    + change (JSArray.last (y :: z :: rest'))
        with (JSArray.last (z :: rest')).
      rewrite <- IH.
      destruct (JSArray.insert comparefn x (z :: rest')) eqn:Ei;
        [|reflexivity].
      simpl in Ei. destruct (comparefn x z <=? 0); discriminate.
Qed.

End SortingMore.

(** ** The innermost range is the last start point the sort puts down *)

Lemma compare_start_points (r b : CoverageRange) :
  (compare (start_point r) (start_point b) <=? 0) = negb (deeper r b).
Proof.
  unfold compare, deeper, start_point. simpl.
  destruct (startOffset r =? startOffset b) eqn:E; simpl.
  - apply Z.eqb_eq in E. rewrite E, Z.ltb_irrefl, Z.eqb_refl. simpl.
    destruct (endOffset r <? endOffset b) eqn:El; simpl;
      [apply Z.ltb_lt in El; apply Z.leb_gt; lia
      |apply Z.ltb_ge in El; apply Z.leb_le; lia].
  - apply Z.eqb_neq in E.
    assert (E' : (startOffset b =? startOffset r) = false)
      by (apply Z.eqb_neq; lia).
    rewrite E'. simpl. rewrite orb_false_r.
    destruct (startOffset b <? startOffset r) eqn:El; simpl;
      [apply Z.ltb_lt in El; apply Z.leb_gt; lia
      |apply Z.ltb_ge in El; apply Z.leb_le; lia].
Qed.

Lemma last_sorted_start_points (l : list CoverageRange) :
  JSArray.last (JSArray.sort compare (map start_point l))
  = option_map start_point (deepest l).
Proof.
  induction l as [|r rest IH]; [reflexivity|].
  simpl JSArray.sort.
  rewrite (@last_insert _ compare before_total before_trans)
    by apply sorted_points_before.
  rewrite IH. simpl.
  destruct (deepest rest) as [b|]; simpl; [|reflexivity].
  rewrite compare_start_points.
  destruct (deeper r b); reflexivity.
Qed.

Lemma points_of_start_covering (l : list CoverageRange) (p : Z) :
  filter (fun q => is_start q && covers (range q) p) (points_of l)
  = map start_point (filter (fun r => covers r p) l).
Proof.
  induction l as [|r rest IH]; [reflexivity|].
  change (points_of (r :: rest))
    with (start_point r :: end_point r :: points_of rest).
  cbn [filter]. rewrite IH.
  change (is_start (end_point r)) with false.
  change (is_start (start_point r)) with true.
  change (range (start_point r)) with r.
  cbn [andb filter]. destruct (covers r p); reflexivity.
Qed.

Lemma innermost_last_start (l : list CoverageRange) (p : Z) :
  JSArray.last
    (filter (fun q => is_start q && covers (range q) p)
       (JSArray.sort compare (points_of l)))
  = option_map start_point (innermost l p).
Proof.
  rewrite (@filter_sort _ compare before_total before_trans).
  rewrite points_of_start_covering.
  apply last_sorted_start_points.
Qed.

Lemma deepest_In (l : list CoverageRange) (r : CoverageRange) :
  deepest l = Some r -> In r l.
Proof.
  revert r. induction l as [|a rest IH]; intros r; simpl; [discriminate|].
  destruct (deepest rest) as [b|].
  - destruct (deeper a b); intros H; inversion H; subst; auto.
  - intros H; inversion H; auto.
Qed.

Lemma deepest_None (l : list CoverageRange) : deepest l = None -> l = [].
Proof.
  destruct l as [|a rest]; [reflexivity|]. simpl.
  destruct (deepest rest) as [b|]; [destruct (deeper a b)|]; discriminate.
Qed.

Lemma innermost_covers (l : list CoverageRange) (p : Z) (r : CoverageRange) :
  innermost l p = Some r -> In r l /\ covers r p = true.
Proof.
  unfold innermost. intros H. apply deepest_In in H.
  apply filter_In in H. exact H.
Qed.

Lemma innermost_none (l : list CoverageRange) (p : Z) :
  (forall r, In r l -> covers r p = false) -> innermost l p = None.
Proof.
  intros H. unfold innermost. rewrite filter_none; [reflexivity|].
  apply Forall_forall. exact H.
Qed.

(** ** The points of an input *)

Lemma points_of_In (l : list CoverageRange) (q : Point) :
  In q (points_of l)
  <-> exists r, In r l /\ (q = start_point r \/ q = end_point r).
Proof.
  induction l as [|a rest IH]; simpl.
  - split; [contradiction|intros (r & [] & _)].
  - rewrite IH. unfold start_point, end_point. split.
    + intros [H|[H|(r & Hr & H)]]; eauto 6.
    + intros (r & [->|Hr] & [H|H]); eauto 6.
Qed.

Lemma sorted_points_In (l : list CoverageRange) (q : Point) :
  In q (JSArray.sort compare (points_of l))
  <-> exists r, In r l /\ (q = start_point r \/ q = end_point r).
Proof.
  rewrite <- points_of_In. split; apply Permutation_in.
  - symmetry. apply sort_perm.
  - apply sort_perm.
Qed.

Lemma count_end_points (l : list CoverageRange) (y : Z) :
  List.length
    (filter (fun q => negb (is_start q) && (offset q =? y)) (points_of l))
  = List.length (filter (fun r => endOffset r =? y) l).
Proof.
  induction l as [|r rest IH]; [reflexivity|].
  change (points_of (r :: rest))
    with (start_point r :: end_point r :: points_of rest).
  cbn [filter].
  change (is_start (start_point r)) with true.
  change (is_start (end_point r)) with false.
  change (offset (end_point r)) with (endOffset r).
  cbn [negb andb]. destruct (endOffset r =? y); simpl; rewrite IH; reflexivity.
Qed.

Lemma count_start_points_ending (l : list CoverageRange) (y : Z) :
  List.length
    (filter (fun q => is_start q && (endOffset (range q) =? y)) (points_of l))
  = List.length (filter (fun r => endOffset r =? y) l).
Proof.
  induction l as [|r rest IH]; [reflexivity|].
  change (points_of (r :: rest))
    with (start_point r :: end_point r :: points_of rest).
  cbn [filter].
  change (is_start (start_point r)) with true.
  change (is_start (end_point r)) with false.
  change (range (start_point r)) with r.
  cbn [andb]. destruct (endOffset r =? y); simpl; rewrite IH; reflexivity.
Qed.

(** ** The stack over a run of points *)

Lemma scan_stack (points : list Point) :
  forall s,
    hitCountStack (fold_left scan points s)
    = fold_left stack_step points (hitCountStack s).
Proof.
  induction points as [|q rest IH]; intros s; [reflexivity|].
  simpl. rewrite IH. reflexivity.
Qed.

Lemma stack_pops (ends : list Point) :
  forall (kept popped : list Z),
    Forall (fun q => is_start q = false) ends ->
    List.length popped = List.length ends ->
    fold_left stack_step ends (kept ++ popped) = kept.
Proof.
  induction ends as [|q rest IH]; intros kept popped Hends Hlen.
  - destruct popped; [|discriminate]. simpl. apply app_nil_r.
  - inversion Hends as [|? ? Hq Hrest]; subst.
    destruct (exists_last (l := popped)) as (popped' & c & ->).
    { intros ->. discriminate. }
    simpl. unfold stack_step at 2. unfold is_start in Hq. rewrite Hq.
    unfold JSArray.pop. rewrite app_assoc, removelast_last.
    apply IH; [assumption|].
    rewrite length_app in Hlen. simpl in Hlen. lia.
Qed.

Lemma stack_pushes (starts : list Point) :
  forall stack,
    Forall (fun q => is_start q = true) starts ->
    fold_left stack_step starts stack = stack ++ counts starts.
Proof.
  induction starts as [|q rest IH]; intros stack Hstarts.
  - simpl. symmetry. apply app_nil_r.
  - inversion Hstarts as [|? ? Hq Hrest]; subst.
    simpl. unfold stack_step at 2. unfold is_start in Hq. rewrite Hq.
    rewrite IH by assumption. unfold JSArray.push.
    rewrite <- app_assoc. reflexivity.
Qed.

(** ** The results over a run of points at one offset *)

Lemma record_same_offset (s : Sweep) (q q' : Point) :
  offset q = offset q' ->
  records s q = records s q' /\ record_segment s q = record_segment s q'.
Proof.
  intros H. unfold records, record_segment. rewrite H. split; reflexivity.
Qed.

Lemma scan_no_record (points : list Point) (y : Z) :
  forall s,
    lastOffset s = y ->
    Forall (fun q => offset q = y) points ->
    results (fold_left scan points s) = results s
    /\ lastOffset (fold_left scan points s) = y.
Proof.
  induction points as [|q rest IH]; intros s Hlast Hall; [auto|].
  apply Forall_cons_iff in Hall. destruct Hall as [Hq Hrest].
  simpl. destruct (IH (scan s q)) as [H1 H2]; [exact Hq|assumption|].
  rewrite H1, H2. split; [|reflexivity].
  unfold scan, records. simpl. rewrite Hlast, Hq, Z.ltb_irrefl.
  destruct (JSArray.last (hitCountStack s)); reflexivity.
Qed.

Lemma scan_block (q : Point) (rest : list Point) (s : Sweep) :
  Forall (fun q' => offset q' = offset q) rest ->
  results (fold_left scan (q :: rest) s)
  = (if records s q then record_segment s q else results s)
  /\ lastOffset (fold_left scan (q :: rest) s) = offset q.
Proof.
  intros Hall. simpl.
  destruct (@scan_no_record rest (offset q) (scan s q)) as [H1 H2];
    [reflexivity|assumption|].
  rewrite H1, H2. split; reflexivity.
Qed.

Lemma in_some_app (l1 l2 : list Range) (p : Z) :
  in_some (l1 ++ l2) p <-> in_some l1 p \/ in_some l2 p.
Proof.
  unfold in_some. split.
  - intros (r & Hr & Hp). apply in_app_or in Hr. destruct Hr; eauto.
  - intros [(r & Hr & Hp)|(r & Hr & Hp)]; exists r; split; auto;
      apply in_or_app; auto.
Qed.

Lemma in_some_one (r : Range) (p : Z) : in_some [r] p <-> in_range r p.
Proof.
  unfold in_some. split.
  - intros (r' & [<-|[]] & Hp). exact Hp.
  - intros Hp. exists r. split; [left; reflexivity|exact Hp].
Qed.

Lemma in_some_nil (p : Z) : ~ in_some [] p.
Proof. intros (r & [] & _). Qed.

Lemma record_segment_in (s : Sweep) (q : Point) (p : Z) :
  settled_results s -> lastOffset s < offset q ->
  (in_some (record_segment s q) p
   <-> in_some (results s) p \/ lastOffset s <= p < offset q).
Proof.
  intros [Hg Hl] Hlt. unfold record_segment.
  destruct (JSArray.last (results s)) as [lastResult|] eqn:E.
  - pose proof (last_Some _ E) as Hsplit.
    set (l' := JSArray.pop (results s)) in *. clearbody l'. clear E.
    rewrite Hsplit in *. clear Hsplit.
    apply gapped_snoc_inv in Hg. destruct Hg as (Hg & Hlr & Hsep).
    destruct (end_ lastResult =? lastOffset s) eqn:Eq; unfold JSArray.push;
      rewrite !in_some_app, !in_some_one; unfold in_range; simpl.
    + apply Z.eqb_eq in Eq. intuition lia.
    + tauto.
  - apply last_None in E. rewrite E. unfold JSArray.push. simpl.
    rewrite in_some_one. unfold in_range. simpl.
    split; [auto|]. intros [H|H]; [destruct (in_some_nil H)|exact H].
Qed.

Lemma filter_filter {A : Type} (f g : A -> bool) (l : list A) :
  filter f (filter g l) = filter (fun x => g x && f x) l.
Proof.
  induction l as [|x rest IH]; [reflexivity|].
  simpl. destruct (g x); simpl; [destruct (f x)|]; rewrite IH; reflexivity.
Qed.

Lemma lower_bound (points : list Point) :
  exists y, Forall (fun q => y < offset q) points.
Proof.
  induction points as [|q rest [y Hy]].
  - exists 0. constructor.
  - exists (Z.min y (offset q) - 1). constructor; [lia|].
    eapply Forall_impl; [|exact Hy]. simpl. intros; lia.
Qed.

(** ** The loop over the sorted points of nested ranges *)

Section Sweeping.

Variable l : list CoverageRange.

Hypothesis l_well_formed : well_formed l.
Hypothesis l_nested : properly_nested l.

Let points : list Point := JSArray.sort compare (points_of l).

Lemma start_point_facts (q : Point) :
  In q points -> is_start q = true ->
  In (range q) l
  /\ offset q = startOffset (range q)
  /\ offset q < endOffset (range q)
  /\ In (end_point (range q)) points.
Proof.
  intros Hq Hs. apply sorted_points_In in Hq.
  destruct Hq as (r & Hr & [->| ->]); [|discriminate].
  simpl. unfold well_formed in l_well_formed.
  rewrite Forall_forall in l_well_formed.
  repeat split; [assumption|apply l_well_formed; assumption|].
  apply sorted_points_In. eauto.
Qed.

Lemma end_point_facts (q : Point) :
  In q points -> is_start q = false ->
  offset q = endOffset (range q) /\ type q = 1.
Proof.
  intros Hq Hs. apply sorted_points_In in Hq.
  destruct Hq as (r & Hr & [->| ->]); [discriminate|].
  split; reflexivity.
Qed.


Section Cut.

Variables (y y' : Z) (done block ahead : list Point).

Hypothesis Hcut : cut points y y' done block ahead.

Lemma cut_In_done (q : Point) : In q done -> In q points.
Proof.
  intros H. rewrite (cut_points Hcut). apply in_or_app. auto.
Qed.

Lemma cut_In_block (q : Point) : In q block -> In q points.
Proof.
  intros H. rewrite (cut_points Hcut).
  apply in_or_app. right. apply in_or_app. auto.
Qed.

Lemma cut_In_ahead (q : Point) : In q ahead -> In q points.
Proof.
  intros H. rewrite (cut_points Hcut).
  apply in_or_app. right. apply in_or_app. auto.
Qed.

Lemma cut_offsets (q : Point) :
  In q points -> offset q <= y \/ y' <= offset q.
Proof.
  rewrite (cut_points Hcut). intros H.
  pose proof (cut_done Hcut) as Hd. pose proof (cut_block Hcut) as Hb.
  pose proof (cut_ahead Hcut) as Ha. rewrite Forall_forall in Hd, Hb, Ha.
  apply in_app_or in H. destruct H as [H|H]; [left; auto|].
  apply in_app_or in H. destruct H as [H|H]; right.
  - rewrite (Hb q H). lia.
  - specialize (Ha q H). lia.
Qed.

(** A range open at [y] stays open until [y'] at least. *)
Lemma open_until (q : Point) :
  In q points -> opened y q = true -> y' <= endOffset (range q).
Proof.
  intros Hq Ho. unfold opened in Ho. apply andb_true_iff in Ho.
  destruct Ho as [Hs Hy]. apply Z.ltb_lt in Hy.
  destruct (start_point_facts q Hq Hs) as (_ & _ & _ & Hend).
  destruct (cut_offsets _ Hend) as [H|H]; simpl in H; lia.
Qed.

Lemma block_sorted : StronglySorted before block.
Proof.
  pose proof (sorted_points_before (points_of l)) as H.
  fold points in H. rewrite (cut_points Hcut) in H.
  apply StronglySorted_app_inv in H. destruct H as (_ & H & _).
  apply StronglySorted_app_inv in H. apply H.
Qed.

Lemma done_sorted : StronglySorted before done.
Proof.
  pose proof (sorted_points_before (points_of l)) as H.
  fold points in H. rewrite (cut_points Hcut) in H.
  apply StronglySorted_app_inv in H. apply H.
Qed.

(** In a block the ends come first. *)
Lemma block_split :
  block = filter (fun q => negb (is_start q)) block ++ filter is_start block.
Proof.
  apply (split_monotone (R := before)); [exact block_sorted|].
  intros a b Ha Hb Hab Hsa.
  destruct (is_start b) eqn:Hsb; [reflexivity|exfalso].
  destruct (end_point_facts b (cut_In_block b Hb) Hsb) as [_ Htb].
  pose proof (cut_block Hcut) as Hblock. rewrite Forall_forall in Hblock.
  unfold before, compare in Hab.
  rewrite (Hblock a Ha), (Hblock b Hb), Z.eqb_refl in Hab. simpl in Hab.
  unfold is_start in Hsa. apply Z.eqb_eq in Hsa.
  rewrite Hsa, Htb in Hab. simpl in Hab. lia.
Qed.

(** Every start of the block opens a range. *)
Lemma block_opened : filter (opened y') block = filter is_start block.
Proof.
  apply filter_ext_in. intros q Hq. unfold opened.
  destruct (is_start q) eqn:Hs; [|reflexivity]. simpl.
  destruct (start_point_facts q (cut_In_block q Hq) Hs) as (_ & _ & Hlt & _).
  pose proof (cut_block Hcut) as Hblock. rewrite Forall_forall in Hblock.
  rewrite (Hblock q Hq) in Hlt. apply Z.ltb_lt. exact Hlt.
Qed.

(** The ranges still open at [y'] are the ones open at [y] that do not end
    at [y']. *)
Lemma open_kept :
  filter (fun q => negb (endOffset (range q) =? y')) (filter (opened y) done)
  = filter (opened y') done.
Proof.
  rewrite filter_filter. apply filter_ext_in. intros q Hq.
  pose proof (cut_lt Hcut) as Hlt.
  destruct (opened y q) eqn:Ho; simpl.
  - pose proof (open_until q (cut_In_done q Hq) Ho) as Hu.
    unfold opened in *. apply andb_true_iff in Ho. destruct Ho as [-> _].
    simpl. destruct (endOffset (range q) =? y') eqn:E; simpl; symmetry.
    + apply Z.eqb_eq in E. apply Z.ltb_ge. lia.
    + apply Z.eqb_neq in E. apply Z.ltb_lt. lia.
  - unfold opened in *. destruct (is_start q); [|reflexivity]. simpl in *.
    apply Z.ltb_ge in Ho. symmetry. apply Z.ltb_ge. lia.
Qed.

(** As many ranges open at [y] end at [y'] as the block has ends. *)
Lemma open_popped :
  List.length
    (filter (fun q => endOffset (range q) =? y') (filter (opened y) done))
  = List.length (filter (fun q => negb (is_start q)) block).
Proof.
  pose proof (cut_lt Hcut) as Hlt.
  pose proof (cut_done Hcut) as Hd. pose proof (cut_block Hcut) as Hb.
  pose proof (cut_ahead Hcut) as Ha. rewrite Forall_forall in Hd, Hb, Ha.
  transitivity (List.length (filter (fun r => endOffset r =? y') l)).
  - rewrite <- count_start_points_ending.
    rewrite (filter_length_perm _ (sort_perm compare (points_of l))).
    fold points. rewrite (cut_points Hcut), !filter_app, !length_app.
    rewrite (@filter_none _ _ block), (@filter_none _ _ ahead).
    + simpl. rewrite Nat.add_0_r, filter_filter. f_equal.
      apply filter_ext. intros q. unfold opened.
      destruct (is_start q); [|reflexivity]. simpl.
      destruct (endOffset (range q) =? y') eqn:E;
        [|apply andb_false_r].
      apply Z.eqb_eq in E. rewrite andb_true_r. apply Z.ltb_lt. lia.
    + apply Forall_forall. intros q Hq.
      destruct (is_start q) eqn:Hs; [|reflexivity]. simpl.
      destruct (start_point_facts q (cut_In_ahead q Hq) Hs)
        as (_ & _ & Hlt' & _).
      specialize (Ha q Hq). apply Z.eqb_neq. lia.
    + apply Forall_forall. intros q Hq.
      destruct (is_start q) eqn:Hs; [|reflexivity]. simpl.
      destruct (start_point_facts q (cut_In_block q Hq) Hs)
        as (_ & _ & Hlt' & _).
      rewrite (Hb q Hq) in Hlt'. apply Z.eqb_neq. lia.
  - rewrite <- (count_end_points l y').
    rewrite (filter_length_perm _ (sort_perm compare (points_of l))).
    fold points. rewrite (cut_points Hcut), !filter_app, !length_app.
    rewrite (@filter_none _ _ done), (@filter_none _ _ ahead).
    + simpl. rewrite Nat.add_0_r. f_equal.
      apply filter_ext_in. intros q Hq. rewrite (Hb q Hq), Z.eqb_refl.
      apply andb_true_r.
    + apply Forall_forall. intros q Hq. specialize (Ha q Hq).
      apply andb_false_iff. right. apply Z.eqb_neq. lia.
    + apply Forall_forall. intros q Hq. specialize (Hd q Hq).
      apply andb_false_iff. right. apply Z.eqb_neq. lia.
Qed.

(** Among the ranges open at [y], in the order they were opened, the ones
    that end at [y'] come last: this is where nesting is needed. *)
Lemma open_split :
  filter (opened y) done
  = filter (fun q => negb (endOffset (range q) =? y')) (filter (opened y) done)
      ++ filter (fun q => endOffset (range q) =? y') (filter (opened y) done).
Proof.
  apply (split_monotone (R := before)
           (fun q => endOffset (range q) =? y')).
  { apply StronglySorted_filter. exact done_sorted. }
  intros a b Ha Hb Hab Hea.
  apply filter_In in Ha. destruct Ha as [Ha Hoa].
  apply filter_In in Hb. destruct Hb as [Hb Hob].
  pose proof (cut_done Hcut) as Hd. rewrite Forall_forall in Hd.
  pose proof (Hd a Ha) as Hda. pose proof (Hd b Hb) as Hdb.
  apply cut_In_done in Ha, Hb.
  pose proof (open_until a Ha Hoa) as Hua.
  pose proof (open_until b Hb Hob) as Hub.
  unfold opened in Hoa, Hob.
  apply andb_true_iff in Hoa. destruct Hoa as [Hsa Hya].
  apply andb_true_iff in Hob. destruct Hob as [Hsb Hyb].
  apply Z.ltb_lt in Hya, Hyb.
  destruct (start_point_facts a Ha Hsa) as (Hla & Hoa & Hwa & _).
  destruct (start_point_facts b Hb Hsb) as (Hlb & Hob & Hwb & _).
  apply Z.eqb_eq in Hea. apply Z.eqb_eq.
  pose proof (cut_lt Hcut) as Hlt.
  destruct (l_nested _ _ Hla Hlb) as [H|[H|[H|H]]]; try lia.
  pose proof (before_offset Hab) as Hoff.
  unfold before, compare in Hab.
  assert (Eo : (offset a =? offset b) = true) by (apply Z.eqb_eq; lia).
  unfold is_start in Hsa, Hsb. apply Z.eqb_eq in Hsa, Hsb.
  rewrite Eo, Hsa, Hsb in Hab. simpl in Hab. lia.
Qed.

(** The stack after the block holds the counts of the ranges open at
    [y']. *)
Lemma block_stack (s : Sweep) :
  hitCountStack s = counts (filter (opened y) done) ->
  hitCountStack (fold_left scan block s)
  = counts (filter (opened y') (done ++ block)).
Proof.
  intros Hstack.
  rewrite scan_stack, Hstack, open_split. unfold counts at 1.
  rewrite map_app, block_split, fold_left_app.
  rewrite stack_pops.
  - rewrite stack_pushes.
    + rewrite open_kept, <- block_split, filter_app, block_opened.
      unfold counts. rewrite map_app. reflexivity.
    + apply Forall_forall. intros q Hq. apply filter_In in Hq. apply Hq.
  - apply Forall_forall. intros q Hq. apply filter_In in Hq.
    apply negb_true_iff. apply Hq.
  - rewrite length_map. apply open_popped.
Qed.

(** Between [y] and [y'] the top of the stack is the count of the innermost
    range. *)
Lemma top_innermost (p : Z) :
  y <= p < y' ->
  JSArray.last (counts (filter (opened y) done))
  = option_map count (innermost l p).
Proof.
  intros Hp.
  pose proof (cut_done Hcut) as Hd. pose proof (cut_block Hcut) as Hb.
  pose proof (cut_ahead Hcut) as Ha. rewrite Forall_forall in Hd, Hb, Ha.
  assert (Hfilter :
    filter (fun q => is_start q && covers (range q) p) points
    = filter (opened y) done).
  { rewrite (cut_points Hcut), !filter_app.
    rewrite (@filter_none _ _ block), (@filter_none _ _ ahead).
    - rewrite !app_nil_r. apply filter_ext_in. intros q Hq.
      destruct (opened y q) eqn:Ho.
      + pose proof (open_until q (cut_In_done q Hq) Ho) as Hu.
        unfold opened in Ho. apply andb_true_iff in Ho. destruct Ho as [Hs _].
        destruct (start_point_facts q (cut_In_done q Hq) Hs)
          as (_ & Ho & _ & _).
        rewrite Hs. simpl. unfold covers. specialize (Hd q Hq).
        apply andb_true_iff. split; [apply Z.leb_le|apply Z.ltb_lt]; lia.
      + unfold opened in Ho. destruct (is_start q); [|reflexivity].
        simpl in *. apply Z.ltb_ge in Ho. unfold covers.
        apply andb_false_iff. right. apply Z.ltb_ge. lia.
    - apply Forall_forall. intros q Hq.
      destruct (is_start q) eqn:Hs; [|reflexivity]. simpl.
      destruct (start_point_facts q (cut_In_ahead q Hq) Hs)
        as (_ & Ho & _ & _).
      specialize (Ha q Hq). unfold covers.
      apply andb_false_iff. left. apply Z.leb_gt. lia.
    - apply Forall_forall. intros q Hq.
      destruct (is_start q) eqn:Hs; [|reflexivity]. simpl.
      destruct (start_point_facts q (cut_In_block q Hq) Hs)
        as (_ & Ho & _ & _).
      specialize (Hb q Hq). unfold covers.
      apply andb_false_iff. left. apply Z.leb_gt. lia. }
  unfold counts. rewrite last_map, <- Hfilter.
  unfold points. rewrite innermost_last_start.
  destruct (innermost l p); reflexivity.
Qed.

(** The loop keeps its invariant across a block. *)
Lemma block_inv (s : Sweep) :
  block <> [] ->
  sweep_inv l y done s ->
  sweep_inv l y' (done ++ block) (fold_left scan block s).
Proof.
  intros Hne (Hdone & Hstack & Hlast & Hgap & Hends & Hhot).
  pose proof (cut_lt Hcut) as Hlt.
  pose proof (cut_block Hcut) as Hb.
  assert (Hex : exists q0 block', block = q0 :: block').
  { clear Hb. destruct block as [|q0 block']; [contradiction|eauto]. }
  destruct Hex as (q0 & block' & Eblock).
  assert (Hq0 : offset q0 = y').
  { rewrite Eblock in Hb. inversion Hb; assumption. }
  assert (Hblock' : Forall (fun q => offset q = offset q0) block').
  { rewrite Eblock in Hb. inversion Hb; subst.
    eapply Forall_impl; [|eassumption]. simpl. intros; congruence. }
  destruct (scan_block q0 s Hblock') as [Hres Hlast'].
  rewrite <- Eblock in Hres, Hlast'.
  assert (Hrec : records s q0 = true ->
                 lastOffset s = y /\ settled_results s).
  { intros Hr. unfold records in Hr.
    destruct Hlast as [Hl|Hl]; [|rewrite Hl in Hr; discriminate].
    split; [exact Hl|]. split; [exact Hgap|]. rewrite Hl. exact Hends. }
  repeat split.
  - apply Forall_app. split; [|eapply Forall_impl; [|exact Hb]; simpl; lia].
    eapply Forall_impl; [|exact Hdone]. simpl. intros; lia.
  - apply block_stack. exact Hstack.
  - left. rewrite Hlast'. exact Hq0.
  - rewrite Hres. destruct (records s q0) eqn:Hr; [|apply Hgap].
    destruct (Hrec eq_refl) as [Hl Hset].
    apply record_segment_settled; [exact Hset|lia].
  - rewrite Hres. destruct (records s q0) eqn:Hr; [|apply Hgap].
    destruct (Hrec eq_refl) as [Hl Hset].
    apply record_segment_settled; [exact Hset|lia].
  - rewrite Hres. destruct (records s q0) eqn:Hr.
    + destruct (Hrec eq_refl) as [Hl Hset]. rewrite <- Hq0.
      apply record_segment_settled; [exact Hset|lia].
    + eapply Forall_impl; [|exact Hends]. simpl. intros; lia.
  - (* the results hold only hot positions *)
    rewrite Hres. intros Hin.
    destruct (Z_lt_le_dec p y) as [Hpy|Hpy].
    + apply Hhot; [exact Hpy|].
      destruct (records s q0) eqn:Hr; [|exact Hin].
      destruct (Hrec eq_refl) as [Hl Hset].
      apply record_segment_in in Hin; [|exact Hset|lia].
      destruct Hin as [Hin|Hin]; [exact Hin|lia].
    + destruct (records s q0) eqn:Hr.
      * destruct (Hrec eq_refl) as [Hl _].
        unfold records in Hr. rewrite Hstack in Hr.
        rewrite (@top_innermost p) in Hr by lia.
        unfold hot. destruct (innermost l p); simpl in Hr; [|discriminate].
        apply andb_true_iff in Hr. apply Hr.
      * destruct Hin as (r & Hr' & Hp). rewrite Forall_forall in Hends.
        specialize (Hends r Hr'). unfold in_range in Hp. lia.
  - (* every hot position is in the results *)
    rewrite Hres. intros Hp.
    destruct (Z_lt_le_dec p y) as [Hpy|Hpy].
    + apply (Hhot p Hpy) in Hp.
      destruct (records s q0) eqn:Hr; [|exact Hp].
      destruct (Hrec eq_refl) as [Hl Hset].
      apply record_segment_in; [exact Hset|lia|]. left. exact Hp.
    + assert (Hr : records s q0 = true).
      { unfold records. rewrite Hstack.
        rewrite (@top_innermost p) by lia.
        unfold hot in Hp. destruct (innermost l p) eqn:Ei; [|discriminate].
        simpl. rewrite Hp, andb_true_r.
        destruct Hlast as [Hl|Hl].
        - rewrite Hl. apply Z.ltb_lt. lia.
        - rewrite Hstack in Hl.
          pose proof (@top_innermost p) as Ht. rewrite Hl, Ei in Ht.
          simpl in Ht. specialize (Ht ltac:(lia)). discriminate. }
      rewrite Hr. destruct (Hrec Hr) as [Hl Hset].
      apply record_segment_in; [exact Hset|lia|]. right. lia.
Qed.

End Cut.


Lemma ahead_sorted (done ahead : list Point) :
  points = done ++ ahead -> StronglySorted before ahead.
Proof.
  intros H. pose proof (sorted_points_before (points_of l)) as Hs.
  fold points in Hs. rewrite H in Hs.
  apply StronglySorted_app_inv in Hs. apply Hs.
Qed.

(** From any point between two blocks the loop runs to the end keeping its
    invariant. *)
Lemma sweep_inv_run (n : nat) :
  forall (ahead done : list Point) (y : Z) (s : Sweep),
    (List.length ahead <= n)%nat ->
    points = done ++ ahead ->
    Forall (fun q => y < offset q) ahead ->
    sweep_inv l y done s ->
    exists y', sweep_inv l y' points (fold_left scan ahead s).
Proof.
  induction n as [|n IH]; intros ahead done y s Hlen Hpoints Hahead Hinv.
  - destruct ahead; [|simpl in Hlen; lia].
    rewrite app_nil_r in Hpoints. rewrite Hpoints. exists y. exact Hinv.
  - destruct ahead as [|q0 rest0] eqn:Eahead.
    { rewrite app_nil_r in Hpoints. rewrite Hpoints. exists y. exact Hinv. }
    rewrite <- Eahead in *.
    pose (far := fun q => offset q0 <? offset q).
    pose proof (ahead_sorted done ahead Hpoints) as Hsorted.
    assert (Hsplit : ahead = filter (fun q => negb (far q)) ahead
                             ++ filter far ahead).
    { apply (split_monotone (R := before) far Hsorted).
      intros a b _ _ Hab Ha. unfold far in *.
      apply Z.ltb_lt in Ha. apply Z.ltb_lt.
      pose proof (before_offset Hab). lia. }
    set (block := filter (fun q => negb (far q)) ahead) in *.
    set (rest := filter far ahead) in *.
    assert (Hq0 : In q0 block).
    { apply filter_In. split; [rewrite Eahead; left; reflexivity|].
      unfold far. rewrite Z.ltb_irrefl. reflexivity. }
    assert (Hcut : cut points y (offset q0) done block rest).
    { constructor.
      - rewrite Hpoints. f_equal. exact Hsplit.
      - rewrite Eahead in Hahead. inversion Hahead; assumption.
      - apply Hinv.
      - apply Forall_forall. intros q Hq. apply filter_In in Hq.
        destruct Hq as [Hq Hnear]. unfold far in Hnear.
        apply negb_true_iff, Z.ltb_ge in Hnear.
        rewrite Eahead in Hsorted, Hq. inversion Hsorted as [|? ? _ Hall]; subst.
        destruct Hq as [<-|Hq]; [reflexivity|].
        rewrite Forall_forall in Hall.
        pose proof (before_offset (Hall q Hq)). lia.
      - apply Forall_forall. intros q Hq. apply filter_In in Hq.
        destruct Hq as [_ Hfar]. apply Z.ltb_lt. exact Hfar. }
    assert (Hne : block <> []) by (intros E; rewrite E in Hq0; contradiction).
    pose proof (block_inv Hcut Hne Hinv) as Hinv'.
    replace (fold_left scan ahead s)
      with (fold_left scan rest (fold_left scan block s))
      by (rewrite <- fold_left_app, <- Hsplit; reflexivity).
    apply (IH rest (done ++ block) (offset q0)).
    + assert (Hl : List.length ahead
                   = (List.length block + List.length rest)%nat)
        by (rewrite Hsplit at 1; apply length_app).
      destruct block; [contradiction|]. simpl in Hl. lia.
    + rewrite <- app_assoc. apply (cut_points Hcut).
    + apply (cut_ahead Hcut).
    + exact Hinv'.
Qed.

Lemma sweep_inv_init (y : Z) :
  Forall (fun q => y < offset q) points -> sweep_inv l y [] sweep_init.
Proof.
  intros Hy. unfold sweep_inv, sweep_init. simpl.
  split; [constructor|]. split; [reflexivity|]. split; [right; reflexivity|].
  split; [apply gapped_nil|]. split; [constructor|].
  intros p Hp. split.
  - intros H. destruct (in_some_nil H).
  - intros H. exfalso. unfold hot in H.
    destruct (innermost l p) as [r|] eqn:E; [|discriminate].
    apply innermost_covers in E. destruct E as [Hr Hc].
    assert (Hin : In (start_point r) points)
      by (apply sorted_points_In; eauto).
    rewrite Forall_forall in Hy. specialize (Hy _ Hin). simpl in Hy.
    unfold covers in Hc. apply andb_true_iff in Hc. destruct Hc as [Hc _].
    apply Z.leb_le in Hc. lia.
Qed.

(** The results of the loop hold the hot positions and no other. *)
Lemma sweep_hot (p : Z) :
  in_some (results (sweep points)) p <-> hot l p = true.
Proof.
  destruct (lower_bound points) as [y0 Hy0].
  destruct (@sweep_inv_run (List.length points) points [] y0 sweep_init)
    as [y Hinv]; [lia|reflexivity|exact Hy0|apply sweep_inv_init; exact Hy0|].
  fold (sweep points) in Hinv.
  destruct Hinv as (Hdone & _ & _ & _ & Hends & Hhot).
  destruct (Z_lt_le_dec p y) as [Hp|Hp]; [apply Hhot; exact Hp|].
  split.
  - intros (r & Hr & Hin). rewrite Forall_forall in Hends.
    specialize (Hends r Hr). unfold in_range in Hin. lia.
  - intros H. exfalso. unfold hot in H.
    destruct (innermost l p) as [r|] eqn:E; [|discriminate].
    apply innermost_covers in E. destruct E as [Hr Hc].
    assert (Hin : In (end_point r) points)
      by (apply sorted_points_In; eauto).
    rewrite Forall_forall in Hdone. specialize (Hdone _ Hin). simpl in Hdone.
    unfold covers in Hc. apply andb_true_iff in Hc. destruct Hc as [_ Hc].
    apply Z.ltb_lt in Hc. lia.
Qed.

End Sweeping.


(** ** The output as the runs of hot positions *)

Lemma gapped_apart (g : list Range) (r r' : Range) :
  gapped g -> In r g -> In r' g ->
  r = r' \/ end_ r < start r' \/ end_ r' < start r.
Proof.
  intros [_ Hs]. induction Hs as [|a g Hs IH Ha]; [contradiction|].
  rewrite Forall_forall in Ha.
  intros [<-|Hr] [<-|Hr'].
  - left. reflexivity.
  - right. left. apply Ha. assumption.
  - right. right. apply Ha. assumption.
  - apply IH; assumption.
Qed.

Lemma gapped_nonempty (g : list Range) (r : Range) :
  gapped g -> In r g -> start r < end_ r.
Proof.
  intros [Hn _] Hr. rewrite Forall_forall in Hn. apply Hn. exact Hr.
Qed.

Lemma hot_covered (l : list CoverageRange) (p : Z) :
  hot l p = true -> covered_by_counted l p = true.
Proof.
  unfold hot, covered_by_counted. intros H.
  destruct (innermost l p) as [r|] eqn:E; [|discriminate].
  apply innermost_covers in E. destruct E as [Hr Hc].
  apply existsb_exists. exists r. split; [exact Hr|].
  rewrite Hc, H. reflexivity.
Qed.

(** A range of results that are apart and hold the hot positions starts
    and ends where the heat does. *)
Lemma run_is_maximal (l : list CoverageRange) (g : list Range) (r : Range) :
  gapped g ->
  (forall p, in_some g p <-> hot l p = true) ->
  In r g ->
  hot l (start r - 1) = false /\ hot l (end_ r) = false.
Proof.
  intros Hg Hhot Hr. pose proof (@gapped_nonempty g r Hg Hr) as Hlt.
  split.
  - destruct (hot l (start r - 1)) eqn:E; [exfalso|reflexivity].
    apply Hhot in E. destruct E as (r' & Hr' & Hp). unfold in_range in Hp.
    pose proof (@gapped_nonempty g r' Hg Hr').
    destruct (@gapped_apart g r r' Hg Hr Hr') as [->|[H'|H']]; lia.
  - destruct (hot l (end_ r)) eqn:E; [exfalso|reflexivity].
    apply Hhot in E. destruct E as (r' & Hr' & Hp). unfold in_range in Hp.
    pose proof (@gapped_nonempty g r' Hg Hr').
    destruct (@gapped_apart g r r' Hg Hr Hr') as [->|[H'|H']]; lia.
Qed.

(** C1, as the code has it.  For well-formed, properly nested input ranges,
    call a position hot when the innermost range covering it has a positive
    count.  Then every position of an output range is hot, and so covered by
    a range with a positive count; an output range is a maximal run of hot
    positions; every maximal run of hot positions at least 2 wide is an
    output range; and no position lies in two output ranges. *)
Theorem convertToDisjointRanges_hot_runs (l : list CoverageRange) :
  well_formed l -> properly_nested l ->
  (forall r p,
      In r (convertToDisjointRanges l) -> in_range r p ->
      hot l p = true /\ covered_by_counted l p = true)
  /\ (forall r,
        In r (convertToDisjointRanges l) ->
        hot l (start r - 1) = false /\ hot l (end_ r) = false)
  /\ (forall a b,
        a + 1 < b ->
        (forall p, a <= p < b -> hot l p = true) ->
        hot l (a - 1) = false -> hot l b = false ->
        In (mkRange a b) (convertToDisjointRanges l))
  /\ (forall p r r',
        In r (convertToDisjointRanges l) ->
        In r' (convertToDisjointRanges l) ->
        in_range r p -> in_range r' p -> r = r').
Proof.
  intros Hwf Hnested.
  pose proof (sweep_gapped l) as Hg.
  pose proof (sweep_hot Hwf Hnested) as Hhot.
  unfold convertToDisjointRanges.
  set (g := results (sweep (JSArray.sort compare (points_of l)))) in *.
  split; [|split; [|split]].
  - intros r p Hr Hp. apply filter_In in Hr. destruct Hr as [Hr _].
    assert (H : hot l p = true) by (apply Hhot; exists r; auto).
    split; [exact H|apply hot_covered; exact H].
  - intros r Hr. apply filter_In in Hr. destruct Hr as [Hr _].
    eapply run_is_maximal; eassumption.
  - intros a b Hab Hrun Hbelow Habove.
    assert (Ha : hot l a = true) by (apply Hrun; lia).
    apply Hhot in Ha. destruct Ha as (r & Hr & Hp). unfold in_range in Hp.
    destruct (@run_is_maximal l g r Hg Hhot Hr) as [Hs He].
    assert (Hin : forall p, in_range r p -> hot l p = true)
      by (intros p Hp'; apply Hhot; exists r; auto).
    assert (Hstart : start r = a).
    { destruct (Z.eq_dec (start r) a) as [E|E]; [exact E|exfalso].
      assert (H : hot l (a - 1) = true) by (apply Hin; unfold in_range; lia).
      congruence. }
    assert (Hend : end_ r = b).
    { destruct (Z_lt_le_dec (end_ r) b) as [E|E].
      - assert (H : hot l (end_ r) = true) by (apply Hrun; lia). congruence.
      - destruct (Z.eq_dec (end_ r) b) as [E'|E']; [exact E'|exfalso].
        assert (H : hot l b = true) by (apply Hin; unfold in_range; lia).
        congruence. }
    apply filter_In. destruct r as [ra rb]. simpl in *. subst ra rb.
    split; [exact Hr|]. unfold wide. simpl. apply Z.ltb_lt. lia.
  - intros p r r' Hr Hr' Hp Hp'.
    apply filter_In in Hr, Hr'. destruct Hr as [Hr _], Hr' as [Hr' _].
    unfold in_range in *.
    destruct (@gapped_apart g r r' Hg Hr Hr') as [H|[H|H]]; [exact H|lia|lia].
Qed.

Lemma carve_out_nested : well_formed carve_out_input /\ properly_nested carve_out_input.
Proof.
  split.
  - repeat constructor; simpl; lia.
  - intros a b [<-|[<-|[]]] [<-|[<-|[]]]; unfold nested_or_apart; simpl; lia.
Qed.

Lemma convertToDisjointRanges_hot_runs_witness :
  (well_formed carve_out_input /\ properly_nested carve_out_input)
  /\ (forall r p,
        In r (convertToDisjointRanges carve_out_input) -> in_range r p ->
        hot carve_out_input p = true
        /\ covered_by_counted carve_out_input p = true)
  /\ In (mkRange 6 10) (convertToDisjointRanges carve_out_input).
Proof.
  split; [exact carve_out_nested|].
  destruct (convertToDisjointRanges_hot_runs
              (proj1 carve_out_nested) (proj2 carve_out_nested))
    as (Hsound & _ & Hcomplete & _).
  split; [exact Hsound|].
  apply Hcomplete.
  - lia.
  - intros p Hp.
    assert (H : p = 6 \/ p = 7 \/ p = 8 \/ p = 9) by lia.
    destruct H as [->|[->|[->| ->]]]; reflexivity.
  - reflexivity.
  - reflexivity.
Defined.

(** C1 as the specification words it fails on the specification's own
    nested example.  The output range from 0 to 3 is not a maximal run of
    positions covered by a range with a positive count, since position 3 is
    covered by one too; and position 4, covered by the range of count 1,
    lies in no output range. *)
Lemma carve_out_counterexample :
  convertToDisjointRanges carve_out_input = [mkRange 0 3; mkRange 6 10]
  /\ covered_by_counted carve_out_input 3 = true
  /\ covered_by_counted carve_out_input 4 = true
  /\ ~ in_some (convertToDisjointRanges carve_out_input) 4.
Proof.
  split; [reflexivity|]. split; [reflexivity|]. split; [reflexivity|].
  intros (r & Hr & Hp). unfold in_range in Hp.
  destruct Hr as [<-|[<-|[]]]; simpl in Hp; lia.
Qed.

(** Without nesting the stack no longer follows the ranges: here the
    positions 5 to 7 are reported although the only range covering them
    has count 0. *)
Lemma crossing_ranges_reported :
  convertToDisjointRanges crossing_input = [mkRange 0 3; mkRange 5 8]
  /\ covered_by_counted crossing_input 6 = false.
Proof. split; reflexivity. Qed.

(* ================================================================== *)
(** * Further properties of the reducer *)
(* ================================================================== *)

(** ** Where output ranges start and end *)

Lemma record_segment_offsets (P : Z -> Prop) (s : Sweep) (q : Point) :
  P (lastOffset s) -> P (offset q) ->
  Forall (fun r => P (start r) /\ P (end_ r)) (results s) ->
  Forall (fun r => P (start r) /\ P (end_ r)) (record_segment s q).
Proof.
  intros Hl Hq Hres. unfold record_segment.
  destruct (JSArray.last (results s)) as [lastResult|] eqn:E.
  - pose proof (last_Some _ E) as Hsplit.
    assert (Hlr : P (start lastResult)).
    { rewrite Forall_forall in Hres. apply (Hres lastResult).
      rewrite Hsplit. apply in_or_app. right. left. reflexivity. }
    assert (Hpop : Forall (fun r => P (start r) /\ P (end_ r))
                     (JSArray.pop (results s))).
    { rewrite Hsplit in Hres. apply Forall_app in Hres. apply Hres. }
    destruct (end_ lastResult =? lastOffset s); unfold JSArray.push;
      apply Forall_app; split; try assumption;
      (constructor; [simpl; auto|constructor]).
  - unfold JSArray.push. apply Forall_app. split; [assumption|].
    constructor; [simpl; auto|constructor].
Qed.

Lemma scan_offsets (P : Z -> Prop) (points : list Point) :
  Forall (fun q => P (offset q)) points ->
  forall s,
    (hitCountStack s <> [] -> P (lastOffset s)) ->
    Forall (fun r => P (start r) /\ P (end_ r)) (results s) ->
    Forall (fun r => P (start r) /\ P (end_ r))
      (results (fold_left scan points s)).
Proof.
  induction 1 as [|q rest Hq Hrest IH]; intros s Hl Hres; [exact Hres|].
  simpl. apply IH.
  - intros _. simpl. exact Hq.
  - simpl. destruct (records s q) eqn:Er; [|exact Hres].
    apply record_segment_offsets; [|exact Hq|exact Hres].
    apply Hl. intros Hnil. unfold records in Er. rewrite Hnil in Er.
    discriminate.
Qed.

(** X1.  Whatever the input, an output range starts and ends at offsets at
    which input ranges start or end: the reducer invents no boundary. *)
Theorem convertToDisjointRanges_endpoints (l : list CoverageRange) (r : Range) :
  In r (convertToDisjointRanges l) ->
  is_endpoint l (start r) /\ is_endpoint l (end_ r).
Proof.
  intros Hr. unfold convertToDisjointRanges in Hr. apply filter_In in Hr.
  destruct Hr as [Hr _]. revert r Hr. apply Forall_forall.
  apply scan_offsets.
  - apply Forall_forall. intros q Hq. apply sorted_points_In in Hq.
    destruct Hq as (r & Hr & [->| ->]); exists r; simpl; auto.
  - intros H. exfalso. apply H. reflexivity.
  - constructor.
Qed.

Lemma convertToDisjointRanges_endpoints_witness :
  In (mkRange 6 10) (convertToDisjointRanges carve_out_input)
  /\ is_endpoint carve_out_input 6 /\ is_endpoint carve_out_input 10.
Proof.
  assert (H : In (mkRange 6 10) (convertToDisjointRanges carve_out_input))
    by (right; left; reflexivity).
  split; [exact H|].
  exact (@convertToDisjointRanges_endpoints carve_out_input (mkRange 6 10) H).
Defined.

(** ** Input without a positive count *)

Lemma scan_cold (points : list Point) :
  Forall (fun q => count (range q) <= 0) points ->
  forall s,
    Forall (fun c => c <= 0) (hitCountStack s) ->
    results (fold_left scan points s) = results s.
Proof.
  induction 1 as [|q rest Hq Hrest IH]; intros s Hstack; [reflexivity|].
  simpl. rewrite IH.
  - simpl. unfold records.
    destruct (JSArray.last (hitCountStack s)) as [c|] eqn:E; [|reflexivity].
    apply last_Some in E. rewrite E in Hstack.
    apply Forall_app in Hstack. destruct Hstack as [_ Hc].
    inversion Hc as [|? ? Hle _]; subst.
    assert (E0 : (0 <? c) = false) by (apply Z.ltb_ge; exact Hle).
    rewrite E0, andb_false_r. reflexivity.
  - simpl. destruct (type q =? 0).
    + unfold JSArray.push. apply Forall_app. split; [assumption|].
      constructor; [exact Hq|constructor].
    + unfold JSArray.pop. apply Forall_forall. intros c Hc.
      rewrite Forall_forall in Hstack. apply Hstack.
      destruct (hitCountStack s) as [|c0 st]; [contradiction|].
      assert (Hne : c0 :: st <> []) by discriminate.
      destruct (exists_last Hne) as (st' & c' & E). rewrite E in *.
      rewrite removelast_last in Hc. apply in_or_app. auto.
Qed.

(** X2.  Whatever the input, when no input range has a positive count the
    reducer returns nothing. *)
Theorem convertToDisjointRanges_cold (l : list CoverageRange) :
  Forall (fun r => count r <= 0) l -> convertToDisjointRanges l = [].
Proof.
  intros Hcold. unfold convertToDisjointRanges, sweep.
  rewrite scan_cold; [reflexivity| |constructor].
  apply Forall_forall. intros q Hq. apply sorted_points_In in Hq.
  rewrite Forall_forall in Hcold.
  destruct Hq as (r & Hr & [->| ->]); simpl; auto.
Qed.

Lemma convertToDisjointRanges_cold_witness :
  Forall (fun r => count r <= 0)
    [mkCoverageRange 0 10 0; mkCoverageRange 3 6 0; mkCoverageRange 4 20 0]
  /\ convertToDisjointRanges
       [mkCoverageRange 0 10 0; mkCoverageRange 3 6 0; mkCoverageRange 4 20 0]
     = [].
Proof.
  assert (H : Forall (fun r => count r <= 0)
                [mkCoverageRange 0 10 0; mkCoverageRange 3 6 0;
                 mkCoverageRange 4 20 0])
    by (repeat constructor; simpl; lia).
  split; [exact H|]. exact (convertToDisjointRanges_cold H).
Defined.

(** ** The comparator *)

(** X3.  The comparator handed to [sort] is consistent: swapping its
    arguments negates its result, and "not after" is transitive. *)
Theorem compare_consistent (a b c : Point) :
  compare b a = - compare a b
  /\ (compare a b <= 0 -> compare b c <= 0 -> compare a c <= 0).
Proof.
  split; [|apply before_trans].
  unfold compare.
  rewrite (Z.eqb_sym (offset b)), (Z.eqb_sym (type b)).
  destruct (offset a =? offset b) eqn:Eo; simpl; [|lia].
  destruct (type a =? type b) eqn:Et; simpl; [|lia].
  apply Z.eqb_eq in Et. rewrite <- Et.
  destruct (type a =? 0); lia.
Qed.

Lemma compare_consistent_witness :
  compare (end_point (mkCoverageRange 0 5 1))
    (start_point (mkCoverageRange 5 9 1)) <= 0
  /\ compare (start_point (mkCoverageRange 5 9 1))
       (start_point (mkCoverageRange 5 7 1)) <= 0
  /\ compare (end_point (mkCoverageRange 0 5 1))
       (start_point (mkCoverageRange 5 7 1)) <= 0.
Proof.
  assert (H1 : compare (end_point (mkCoverageRange 0 5 1))
                 (start_point (mkCoverageRange 5 9 1)) <= 0)
    by (vm_compute; discriminate).
  assert (H2 : compare (start_point (mkCoverageRange 5 9 1))
                 (start_point (mkCoverageRange 5 7 1)) <= 0)
    by (vm_compute; discriminate).
  split; [exact H1|]. split; [exact H2|].
  exact (proj2 (compare_consistent _ _ _) H1 H2).
Defined.

(** ** Input with positive counts only *)

Lemma hot_covered_positive (l : list CoverageRange) (p : Z) :
  Forall (fun r => 0 < count r) l -> hot l p = covered l p.
Proof.
  intros Hpos. rewrite Forall_forall in Hpos.
  unfold hot, covered.
  destruct (innermost l p) as [r|] eqn:E.
  - apply innermost_covers in E. destruct E as [Hr Hc].
    assert (E0 : (0 <? count r) = true) by (apply Z.ltb_lt; auto).
    rewrite E0. symmetry. apply existsb_exists. eauto.
  - unfold innermost in E. apply deepest_None in E.
    destruct (existsb (fun r => covers r p) l) eqn:Ex; [|reflexivity].
    apply existsb_exists in Ex. destruct Ex as (r & Hr & Hc).
    assert (Hin : In r (filter (fun r => covers r p) l))
      by (apply filter_In; auto).
    rewrite E in Hin. contradiction.
Qed.

Lemma hot_run_reported (l : list CoverageRange) (g : list Range) (a b : Z) :
  gapped g ->
  (forall p, in_some g p <-> hot l p = true) ->
  a + 1 < b ->
  (forall p, a <= p < b -> hot l p = true) ->
  hot l (a - 1) = false -> hot l b = false ->
  In (mkRange a b) (filter wide g).
Proof.
  intros Hg Hhot Hab Hrun Hbelow Habove.
  assert (Ha : hot l a = true) by (apply Hrun; lia).
  apply Hhot in Ha. destruct Ha as (r & Hr & Hp). unfold in_range in Hp.
  destruct (@run_is_maximal l g r Hg Hhot Hr) as [Hs He].
  assert (Hin : forall p, in_range r p -> hot l p = true)
    by (intros p Hp'; apply Hhot; exists r; auto).
  assert (Hstart : start r = a).
  { destruct (Z.eq_dec (start r) a) as [E|E]; [exact E|exfalso].
    assert (H : hot l (a - 1) = true) by (apply Hin; unfold in_range; lia).
    congruence. }
  assert (Hend : end_ r = b).
  { destruct (Z_lt_le_dec (end_ r) b) as [E|E].
    - assert (H : hot l (end_ r) = true) by (apply Hrun; lia). congruence.
    - destruct (Z.eq_dec (end_ r) b) as [E'|E']; [exact E'|exfalso].
      assert (H : hot l b = true) by (apply Hin; unfold in_range; lia).
      congruence. }
  apply filter_In. destruct r as [ra rb]. simpl in *. subst ra rb.
  split; [exact Hr|]. unfold wide. simpl. apply Z.ltb_lt. lia.
Qed.

(** X4.  When the input ranges are well formed, properly nested and all
    have a positive count, the output ranges are the maximal runs of
    covered positions that are at least 2 wide: every position of an
    output range is covered, the positions just before and just after it
    are not, and every such run is an output range. *)
Theorem convertToDisjointRanges_covered_runs (l : list CoverageRange) :
  well_formed l -> properly_nested l -> Forall (fun r => 0 < count r) l ->
  (forall r p,
      In r (convertToDisjointRanges l) -> in_range r p -> covered l p = true)
  /\ (forall r,
        In r (convertToDisjointRanges l) ->
        covered l (start r - 1) = false /\ covered l (end_ r) = false)
  /\ (forall a b,
        a + 1 < b ->
        (forall p, a <= p < b -> covered l p = true) ->
        covered l (a - 1) = false -> covered l b = false ->
        In (mkRange a b) (convertToDisjointRanges l)).
Proof.
  intros Hwf Hnested Hpos.
  pose proof (sweep_gapped l) as Hg.
  pose proof (sweep_hot Hwf Hnested) as Hhot.
  pose proof (fun p => @hot_covered_positive l p Hpos) as Heq.
  unfold convertToDisjointRanges.
  set (g := results (sweep (JSArray.sort compare (points_of l)))) in *.
  split; [|split].
  - intros r p Hr Hp. apply filter_In in Hr. destruct Hr as [Hr _].
    rewrite <- Heq. apply Hhot. exists r. auto.
  - intros r Hr. apply filter_In in Hr. destruct Hr as [Hr _].
    rewrite <- !Heq. eapply run_is_maximal; eassumption.
  - intros a b Hab Hrun Hbelow Habove.
    apply (@hot_run_reported l g a b Hg Hhot Hab).
    + intros p Hp. rewrite Heq. auto.
    + rewrite Heq. exact Hbelow.
    + rewrite Heq. exact Habove.
Qed.

(** ** The output depends on the hot positions only *)

Lemma gapped_head_least (a : Range) (g : list Range) (p : Z) :
  gapped (a :: g) -> in_some (a :: g) p -> start a <= p.
Proof.
  intros [Hn Hs] (r & [<-|Hr] & Hp); unfold in_range in Hp; [lia|].
  inversion Hs as [|? ? _ Ha]; subst. rewrite Forall_forall in Ha.
  specialize (Ha r Hr). inversion Hn; subst. lia.
Qed.

Lemma gapped_tail_beyond (a : Range) (g : list Range) (p : Z) :
  gapped (a :: g) -> in_some g p -> end_ a < p.
Proof.
  intros [Hn Hs] (r & Hr & Hp). unfold in_range in Hp.
  inversion Hs as [|? ? _ Ha]; subst. rewrite Forall_forall in Ha.
  specialize (Ha r Hr). lia.
Qed.

Lemma gapped_tail (a : Range) (g : list Range) :
  gapped (a :: g) -> gapped g /\ start a < end_ a.
Proof.
  intros [Hn Hs]. inversion Hn; subst. inversion Hs; subst.
  repeat split; assumption.
Qed.

Lemma in_some_cons (a : Range) (g : list Range) (p : Z) :
  in_some (a :: g) p <-> in_range a p \/ in_some g p.
Proof.
  change (a :: g) with ([a] ++ g). rewrite in_some_app, in_some_one.
  reflexivity.
Qed.

(** Two lists of ranges kept apart that hold the same positions are the
    same list. *)
Lemma gapped_ext (g1 : list Range) :
  forall g2,
    gapped g1 -> gapped g2 ->
    (forall p, in_some g1 p <-> in_some g2 p) -> g1 = g2.
Proof.
  induction g1 as [|a g1 IH]; intros [|b g2] H1 H2 Hsame.
  - reflexivity.
  - exfalso. destruct (gapped_tail H2) as [_ Hb].
    apply (@in_some_nil (start b)). apply Hsame.
    apply in_some_cons. left. unfold in_range. lia.
  - exfalso. destruct (gapped_tail H1) as [_ Ha].
    apply (@in_some_nil (start a)). apply Hsame.
    apply in_some_cons. left. unfold in_range. lia.
  - destruct (gapped_tail H1) as [H1' Ha].
    destruct (gapped_tail H2) as [H2' Hb].
    assert (Hab : start b <= start a).
    { apply (gapped_head_least H2). apply Hsame.
      apply in_some_cons. left. unfold in_range. lia. }
    assert (Hba : start a <= start b).
    { apply (gapped_head_least H1). apply Hsame.
      apply in_some_cons. left. unfold in_range. lia. }
    assert (Hend1 : end_ b <= end_ a).
    { destruct (Z_lt_le_dec (end_ a) (end_ b)) as [Hlt|Hle]; [exfalso|exact Hle].
      assert (Hin : in_some (a :: g1) (end_ a)).
      { apply Hsame. apply in_some_cons. left. unfold in_range. lia. }
      apply in_some_cons in Hin. destruct Hin as [Hin|Hin].
      - unfold in_range in Hin. lia.
      - pose proof (gapped_tail_beyond H1 Hin). lia. }
    assert (Hend2 : end_ a <= end_ b).
    { destruct (Z_lt_le_dec (end_ b) (end_ a)) as [Hlt|Hle]; [exfalso|exact Hle].
      assert (Hin : in_some (b :: g2) (end_ b)).
      { apply Hsame. apply in_some_cons. left. unfold in_range. lia. }
      apply in_some_cons in Hin. destruct Hin as [Hin|Hin].
      - unfold in_range in Hin. lia.
      - pose proof (gapped_tail_beyond H2 Hin). lia. }
    assert (Eab : a = b).
    { destruct a as [sa ea], b as [sb eb]. simpl in *. f_equal; lia. }
    subst b. f_equal. apply IH; try assumption.
    intros p. split; intros Hp.
    + assert (Hin : in_some (a :: g2) p)
        by (apply Hsame; apply in_some_cons; auto).
      apply in_some_cons in Hin. destruct Hin as [Hin|Hin]; [|exact Hin].
      pose proof (gapped_tail_beyond H1 Hp). unfold in_range in Hin. lia.
    + assert (Hin : in_some (a :: g1) p)
        by (apply Hsame; apply in_some_cons; auto).
      apply in_some_cons in Hin. destruct Hin as [Hin|Hin]; [|exact Hin].
      pose proof (gapped_tail_beyond H2 Hp). unfold in_range in Hin. lia.
Qed.

(** X5.  Two well-formed, properly nested inputs under which the same
    positions are hot are reduced to the same output: of the input, only
    the hot positions matter. *)
Theorem convertToDisjointRanges_ext (l1 l2 : list CoverageRange) :
  well_formed l1 -> properly_nested l1 ->
  well_formed l2 -> properly_nested l2 ->
  (forall p, hot l1 p = hot l2 p) ->
  convertToDisjointRanges l1 = convertToDisjointRanges l2.
Proof.
  intros Hwf1 Hn1 Hwf2 Hn2 Hsame.
  unfold convertToDisjointRanges. f_equal.
  apply gapped_ext; try apply sweep_gapped.
  intros p. rewrite (sweep_hot Hwf1 Hn1), (sweep_hot Hwf2 Hn2), Hsame.
  reflexivity.
Qed.

(** ** The stack at the end of the loop *)

(** X6.  On well-formed, properly nested input the sorted points form a
    valid parenthesis sequence: when the loop ends, the stack is empty. *)
Theorem sweep_balanced (l : list CoverageRange) :
  well_formed l -> properly_nested l ->
  hitCountStack (sweep (JSArray.sort compare (points_of l))) = [].
Proof.
  intros Hwf Hnested.
  set (points := JSArray.sort compare (points_of l)).
  destruct (lower_bound points) as [y0 Hy0].
  destruct (@sweep_inv_run l Hwf Hnested (List.length points) points [] y0
              sweep_init)
    as [y Hinv]; [lia|reflexivity|exact Hy0|apply sweep_inv_init; exact Hy0|].
  fold (sweep points) in Hinv.
  destruct Hinv as (Hdone & Hstack & _).
  rewrite Hstack, filter_none; [reflexivity|].
  apply Forall_forall. intros q Hq. unfold opened.
  destruct (is_start q) eqn:Hs; [|reflexivity]. simpl.
  destruct (start_point_facts Hwf q Hq Hs) as (_ & _ & _ & Hend).
  rewrite Forall_forall in Hdone. specialize (Hdone _ Hend). simpl in Hdone.
  apply Z.ltb_ge. exact Hdone.
Qed.

(** ** Sample inputs of the further properties *)

Lemma counted_input_ok :
  well_formed counted_input /\ properly_nested counted_input
  /\ Forall (fun r => 0 < count r) counted_input.
Proof.
  split; [|split].
  - repeat constructor; simpl; lia.
  - intros a b [<-|[<-|[<-|[]]]] [<-|[<-|[<-|[]]]];
      unfold nested_or_apart; simpl; lia.
  - repeat constructor; simpl; lia.
Qed.

Lemma carved_input_ok : well_formed carved_input /\ properly_nested carved_input.
Proof.
  split.
  - repeat constructor; simpl; lia.
  - intros a b [<-|[<-|[]]] [<-|[<-|[]]]; unfold nested_or_apart; simpl; lia.
Qed.

Lemma carved_same_hot (p : Z) : hot carve_out_input p = hot carved_input p.
Proof.
  unfold hot, innermost, carve_out_input, carved_input, covers. simpl.
  repeat match goal with
         | |- context [?a <=? ?b] => destruct (Z.leb_spec a b)
         | |- context [?a <? ?b] => destruct (Z.ltb_spec a b)
         end; simpl; try reflexivity; lia.
Qed.

Lemma convertToDisjointRanges_covered_runs_witness :
  (well_formed counted_input /\ properly_nested counted_input
   /\ Forall (fun r => 0 < count r) counted_input)
  /\ (forall r p,
        In r (convertToDisjointRanges counted_input) -> in_range r p ->
        covered counted_input p = true)
  /\ (forall r,
        In r (convertToDisjointRanges counted_input) ->
        covered counted_input (start r - 1) = false
        /\ covered counted_input (end_ r) = false).
Proof.
  split; [exact counted_input_ok|].
  destruct (convertToDisjointRanges_covered_runs
              (proj1 counted_input_ok) (proj1 (proj2 counted_input_ok))
              (proj2 (proj2 counted_input_ok)))
    as (H1 & H2 & _).
  split; assumption.
Defined.

Lemma convertToDisjointRanges_ext_witness :
  convertToDisjointRanges carve_out_input = convertToDisjointRanges carved_input.
Proof.
  exact (convertToDisjointRanges_ext
           (proj1 carve_out_nested) (proj2 carve_out_nested)
           (proj1 carved_input_ok) (proj2 carved_input_ok)
           carved_same_hot).
Defined.

Lemma sweep_balanced_witness :
  hitCountStack (sweep (JSArray.sort compare (points_of counted_input))) = [].
Proof.
  exact (sweep_balanced (proj1 counted_input_ok)
           (proj1 (proj2 counted_input_ok))).
Defined.

(* ================================================================== *)
(** * Further properties of the collectors *)
(* ================================================================== *)

(** ** What an entry of the JS report is made of *)

Lemma js_pushed_cases (arguments_limit : Z) (this : JS.t)
  (entry : JS.ScriptCoverage) (e : JS.CoverageEntry) :
  In e (js_pushed arguments_limit this entry) ->
  JS.flatten arguments_limit entry
  = Return (flat_map JS.func_ranges (JS.functions entry))
  /\ JS.ranges e
     = convertToDisjointRanges (flat_map JS.func_ranges (JS.functions entry))
  /\ JSMap.get (JS._scriptSources this) (JS.entry_scriptId entry)
     = Some (JS.text e)
  /\ JS.rawScriptCoverage e
     = (if JS._includeRawScriptCoverage this then Some entry else None)
  /\ ((JS._reportAnonymousScripts this = true
       /\ truthy_opt (JSMap.get (JS._scriptURLs this) (JS.entry_scriptId entry))
          = false
       /\ JS.url e = ("debugger://VM" ++ JS.entry_scriptId entry)%string)
      \/ (JSMap.get (JS._scriptURLs this) (JS.entry_scriptId entry)
          = Some (JS.url e)
          /\ (JS._reportAnonymousScripts this = false
              \/ truthy (JS.url e) = true))).
Proof.
  unfold js_pushed, JS.stop_entry, JSArray.push.
  rewrite js_flatten_cases.
  destruct (JSMap.get (JS._scriptSources this) (JS.entry_scriptId entry))
    as [text|]; [|contradiction].
  destruct (JSMap.get (JS._scriptURLs this) (JS.entry_scriptId entry))
    as [u|] eqn:Eu; simpl;
    [destruct (truthy u) eqn:Et; simpl|];
    destruct (JS._reportAnonymousScripts this) eqn:Er; simpl;
    try contradiction;
    (destruct (js_spreads arguments_limit entry); [|contradiction]);
    destruct (JS._includeRawScriptCoverage this); simpl;
    intros [<-|[]]; simpl;
    repeat (split; [reflexivity|]);
    first [left; repeat split; reflexivity
          |right; split; [reflexivity|auto]].
Qed.

Lemma js_report_In (arguments_limit : Z) (this : JS.t)
  (profileResponse : JS.ProfileResponse)
  (coverage : list JS.CoverageEntry) (e : JS.CoverageEntry) :
  js_report arguments_limit this profileResponse = Return coverage ->
  In e coverage ->
  exists entry,
    In entry (JS.result profileResponse)
    /\ In e (js_pushed arguments_limit this entry).
Proof.
  rewrite js_report_cases.
  destruct (forallb _ _); [|discriminate].
  intros H He. inversion H; subst coverage.
  apply in_flat_map in He. exact He.
Qed.

(** X7.  Every entry of a JS report is made from one protocol result whose
    script has a registered text: it has that text, the reduced ranges of
    all the functions of the result, which the inner loop gathered without
    a throw, and the result itself as [rawScriptCoverage] exactly when
    [_includeRawScriptCoverage] is set. *)
Theorem js_report_entries (arguments_limit : Z) (this : JS.t)
  (profileResponse : JS.ProfileResponse)
  (coverage : list JS.CoverageEntry) (e : JS.CoverageEntry) :
  js_report arguments_limit this profileResponse = Return coverage ->
  In e coverage ->
  exists entry flattenRanges,
    In entry (JS.result profileResponse)
    /\ JS.flatten arguments_limit entry = Return flattenRanges
    /\ flattenRanges = flat_map JS.func_ranges (JS.functions entry)
    /\ JS.ranges e = convertToDisjointRanges flattenRanges
    /\ JSMap.get (JS._scriptSources this) (JS.entry_scriptId entry)
       = Some (JS.text e)
    /\ JS.rawScriptCoverage e
       = (if JS._includeRawScriptCoverage this then Some entry else None).
Proof.
  intros Hreport He.
  destruct (@js_report_In arguments_limit this profileResponse coverage e
              Hreport He) as (entry & Hin & Hentry).
  exists entry, (flat_map JS.func_ranges (JS.functions entry)).
  apply js_pushed_cases in Hentry. tauto.
Qed.

Lemma js_report_entries_witness :
  exists entry flattenRanges,
    In entry (JS.result example_profile)
    /\ JS.flatten example_arguments_limit entry = Return flattenRanges
    /\ flattenRanges = flat_map JS.func_ranges (JS.functions entry)
    /\ [mkRange 0 3] = convertToDisjointRanges flattenRanges
    /\ JSMap.get (JS._scriptSources example_js) (JS.entry_scriptId entry)
       = Some "f()"%string
    /\ None
       = (if JS._includeRawScriptCoverage example_js
          then Some entry else None).
Proof.
  exact (@js_report_entries example_arguments_limit example_js example_profile
           [JS.mkCoverageEntry "a.js" [mkRange 0 3] "f()" None]%string
           (JS.mkCoverageEntry "a.js" [mkRange 0 3] "f()" None)%string
           eq_refl (or_introl eq_refl)).
Defined.

(** ** The ranges of a report *)

Lemma css_report_In (this : CSS.t) (tracking : CSS.RuleTrackingResponse)
  (coverage : list CSS.CoverageEntry) (e : CSS.CoverageEntry) :
  css_report this tracking = Return coverage -> In e coverage ->
  exists id,
    In id (JSMap.keys (CSS._stylesheetURLs this))
    /\ e = css_entry this tracking id.
Proof.
  rewrite css_report_map. intros H He. inversion H; subst coverage.
  apply in_map_iff in He. destruct He as (id & <- & Hid). eauto.
Qed.

Lemma reduced_apart (l : list CoverageRange) :
  ForallOrdPairs disjoint (convertToDisjointRanges l)
  /\ StronglySorted (fun a b => start a < start b) (convertToDisjointRanges l)
  /\ Forall (fun r => 2 <= end_ r - start r) (convertToDisjointRanges l).
Proof.
  pose proof (convertToDisjointRanges_gapped l) as Hg.
  split; [apply gapped_disjoint; assumption|].
  split; [apply gapped_sorted_by_start; assumption|].
  eapply Forall_impl; [|apply convertToDisjointRanges_wide].
  intros r Hr. unfold wide in Hr. apply Z.ltb_lt in Hr. lia.
Qed.

(** X8.  In every entry of a JS or CSS report the ranges are pairwise
    disjoint, in ascending order, and at least 2 wide, whatever ranges the
    protocol gave. *)
Theorem report_ranges_apart :
  (forall arguments_limit this profileResponse coverage e,
      js_report arguments_limit this profileResponse = Return coverage ->
      In e coverage ->
      ForallOrdPairs disjoint (JS.ranges e)
      /\ StronglySorted (fun a b => start a < start b) (JS.ranges e)
      /\ Forall (fun r => 2 <= end_ r - start r) (JS.ranges e))
  /\ (forall this tracking coverage e,
        css_report this tracking = Return coverage -> In e coverage ->
        ForallOrdPairs disjoint (CSS.ranges e)
        /\ StronglySorted (fun a b => start a < start b) (CSS.ranges e)
        /\ Forall (fun r => 2 <= end_ r - start r) (CSS.ranges e)).
Proof.
  split.
  - intros arguments_limit this profileResponse coverage e Hreport He.
    destruct (@js_report_In arguments_limit this profileResponse coverage e
                Hreport He) as (entry & _ & Hentry).
    apply js_pushed_cases in Hentry. destruct Hentry as (_ & -> & _).
    apply reduced_apart.
  - intros this tracking coverage e Hreport He.
    destruct (@css_report_In this tracking coverage e Hreport He) as (id & _ & ->).
    unfold css_entry. simpl. apply reduced_apart.
Qed.

Lemma report_ranges_apart_witness :
  Forall (fun r => 2 <= end_ r - start r) [mkRange 0 3].
Proof.
  exact (proj2 (proj2
    (proj1 report_ranges_apart example_arguments_limit example_js
       example_profile
       [JS.mkCoverageEntry "a.js" [mkRange 0 3] "f()" None]%string
       (JS.mkCoverageEntry "a.js" [mkRange 0 3] "f()" None)%string
       eq_refl (or_introl eq_refl)))).
Defined.

(** ** A new session starts from nothing *)

(** X9.  [start] on an idle collector empties the registry: whatever
    follows, a report has entries only for the scripts, or the sheets,
    whose text arrived after that [start]. *)
Theorem start_isolates_sessions (EVALUATION_SCRIPT_URL : string)
  (arguments_limit : Z) :
  (forall options settled after w0 w obs,
      JS._enabled (JS.collector w0) = false ->
      JS.run EVALUATION_SCRIPT_URL arguments_limit w0
        (JS.Start options settled :: after)
      = Some (w, obs) ->
      forall profileResponse,
        js_report arguments_limit (JS.collector w) profileResponse
        = js_report arguments_limit (JS.collector w)
            (only_scripts (js_arrived after) profileResponse))
  /\ (forall options settled after w0 w obs,
        CSS._enabled (CSS.collector w0) = false ->
        CSS.run w0 (CSS.Start options settled :: after) = Some (w, obs) ->
        forall tracking,
          exists ids,
            Forall (fun id => In id (css_arrived after)) ids
            /\ css_report (CSS.collector w) tracking
               = Return (map (css_entry (CSS.collector w) tracking) ids)).
Proof.
  split.
  - intros options settled after w0 w obs Hidle Hrun profileResponse.
    apply js_run_cons in Hrun. destruct Hrun as (w1 & o & obs' & Hs & Hr).
    simpl in Hs. unfold JS.start in Hs. rewrite Hidle in Hs. simpl in Hs.
    inversion Hs; subst w1 o. clear Hs.
    unfold only_scripts. apply js_report_filter.
    intros entry _ Hout. unfold js_missing.
    destruct (JSMap.get (JS._scriptSources (JS.collector w))
                (JS.entry_scriptId entry)) eqn:E; [|reflexivity].
    exfalso.
    destruct (@js_text_arrived_run EVALUATION_SCRIPT_URL arguments_limit
                after _ _ _ (JS.entry_scriptId entry) Hr) as [H|H].
    + congruence.
    + simpl in H. congruence.
    + assert (Ht : existsb (String.eqb (JS.entry_scriptId entry))
                     (js_arrived after) = true).
      { apply existsb_exists. exists (JS.entry_scriptId entry).
        split; [exact H|apply String.eqb_refl]. }
      congruence.
  - intros options settled after w0 w obs Hidle Hrun tracking.
    exists (JSMap.keys (CSS._stylesheetURLs (CSS.collector w))).
    split; [|apply css_report_map].
    apply css_run_cons in Hrun. destruct Hrun as (w1 & o & obs' & Hs & Hr).
    simpl in Hs. unfold CSS.start in Hs. rewrite Hidle in Hs. simpl in Hs.
    inversion Hs; subst w1 o. clear Hs.
    apply Forall_forall. intros k Hk.
    apply get_keys in Hk. destruct Hk as [v Hv].
    destruct (@css_text_arrived_run after _ _ _ k Hr) as [H|H].
    + congruence.
    + simpl in H. congruence.
    + exact H.
Qed.

Lemma start_isolates_sessions_witness :
  js_report example_arguments_limit
    (JS.collector
       (fst (example_js_run
               (example_js_quiet_actions ++ example_js_actions))))
    example_profile_456
  = js_report example_arguments_limit
      (JS.collector
         (fst (example_js_run
                 (example_js_quiet_actions ++ example_js_actions))))
      (only_scripts ["5"; "4"]%string example_profile_456).
Proof.
  apply (proj1 (start_isolates_sessions example_evaluation_url
                  example_arguments_limit)
           (JS.mkOptions None (Some true) None) (Return tt)
           (tl example_js_actions)
           (fst (example_js_run example_js_quiet_actions))
           _
           (skipn 5 (snd (example_js_run
                            (example_js_quiet_actions ++ example_js_actions)))));
    vm_compute; reflexivity.
Defined.

(** ** The URLs of a JS report *)

Lemma js_urls_step (EVALUATION_SCRIPT_URL : string) (arguments_limit : Z)
  (w : JS.World) (a : JS.Action) (w' : JS.World) (o : JS.Observation) :
  (JS._reportAnonymousScripts (JS.collector w) = false
   /\ (forall event, In event (JS.fetching w) ->
                     JS.event_url event <> ""%string)
   /\ (forall k u, JSMap.get (JS._scriptURLs (JS.collector w)) k = Some u ->
                   u <> ""%string)) ->
  js_sessions_off a = true ->
  JS.step EVALUATION_SCRIPT_URL arguments_limit w a = Some (w', o) ->
  JS._reportAnonymousScripts (JS.collector w') = false
  /\ (forall event, In event (JS.fetching w') ->
                    JS.event_url event <> ""%string)
  /\ (forall k u, JSMap.get (JS._scriptURLs (JS.collector w')) k = Some u ->
                  u <> ""%string).
Proof.
  intros (Hoff & Hfetch & Hurls) Hok Hs.
  destruct a as [options settled|event|event response| | |settled];
    simpl in Hs, Hok.
  - destruct (JS.start (JS.collector w) options settled) as [outcome this] eqn:E.
    inversion Hs; subst; simpl.
    pose proof (js_start_cases (JS.collector w) options settled) as Hc.
    rewrite E in Hc. simpl in Hc.
    destruct Hc as [-> | ->]; simpl; [auto|].
    apply negb_true_iff in Hok.
    split; [exact Hok|]. split; [exact Hfetch|].
    intros k u Hk. discriminate.
  - destruct (JS._onScriptParsed_sends _ (JS.collector w) event) eqn:E;
      inversion Hs; subst; simpl; [|auto].
    split; [exact Hoff|]. split; [|exact Hurls].
    intros event' [<-|Hin]; [|auto].
    intros Hempty. unfold JS._onScriptParsed_sends, truthy in E.
    rewrite Hempty, Hoff in E. simpl in E.
    destruct EVALUATION_SCRIPT_URL; discriminate.
  - destruct (existsb (JS.event_eqb event) (JS.fetching w)) eqn:E;
      [|discriminate].
    inversion Hs; subst; simpl.
    apply existsb_exists in E. destruct E as (event' & Hin & Heq).
    unfold JS.event_eqb in Heq. apply andb_true_iff in Heq.
    destruct Heq as [_ Heq]. apply String.eqb_eq in Heq.
    assert (Hne : JS.event_url event <> ""%string)
      by (rewrite Heq; auto).
    split; [destruct response; assumption|].
    split; [intros e He; apply remove_first_In in He; auto|].
    destruct response as [scriptSource|e]; simpl; [|exact Hurls].
    intros k u Hk.
    destruct (String.eqb (JS.event_scriptId event) k) eqn:Ek.
    + apply String.eqb_eq in Ek. subst k. rewrite get_set_same in Hk.
      inversion Hk; subst u. exact Hne.
    + apply String.eqb_neq in Ek. rewrite get_set_other in Hk by assumption.
      eapply Hurls; eassumption.
  - inversion Hs; subst; simpl. unfold JS._onExecutionContextsCleared.
    destruct (negb (JS._resetOnNavigation (JS.collector w))); simpl; auto.
    split; [exact Hoff|]. split; [exact Hfetch|]. intros k u Hk. discriminate.
  - unfold JS.stop_begin in Hs.
    destruct (JS._enabled (JS.collector w)); simpl in Hs;
      inversion Hs; subst; simpl; auto.
  - destruct (JS.stopping w); [discriminate|].
    destruct settled; simpl in Hs; inversion Hs; subst; simpl; auto.
Qed.

(** X10.  No entry of a JS report has an empty URL, when the collector
    reports anonymous scripts, and also in every run of a new collector
    none of whose sessions reports them. *)
Theorem js_report_urls (EVALUATION_SCRIPT_URL : string)
  (arguments_limit : Z) :
  (forall this profileResponse coverage e,
      JS._reportAnonymousScripts this = true ->
      js_report arguments_limit this profileResponse = Return coverage ->
      In e coverage ->
      JS.url e <> ""%string)
  /\ (forall actions w obs profileResponse coverage e,
        JS.run EVALUATION_SCRIPT_URL arguments_limit JS.fresh actions
        = Some (w, obs) ->
        forallb js_sessions_off actions = true ->
        js_report arguments_limit (JS.collector w) profileResponse
        = Return coverage ->
        In e coverage ->
        JS.url e <> ""%string).
Proof.
  split.
  - intros this profileResponse coverage e Hon Hreport He.
    destruct (@js_report_In arguments_limit this profileResponse coverage e
                Hreport He) as (entry & _ & Hentry).
    apply js_pushed_cases in Hentry.
    destruct Hentry as (_ & _ & _ & _ & [(_ & _ & ->)|(_ & [Hoff|Ht])]).
    + discriminate.
    + congruence.
    + intros Hempty. rewrite Hempty in Ht. discriminate.
  - intros actions w obs profileResponse coverage e Hrun Hok Hreport He.
    pose (P := fun x : JS.World =>
      JS._reportAnonymousScripts (JS.collector x) = false
      /\ (forall event, In event (JS.fetching x) ->
                        JS.event_url event <> ""%string)
      /\ (forall k u,
             JSMap.get (JS._scriptURLs (JS.collector x)) k = Some u ->
             u <> ""%string)).
    assert (HP : P w).
    { eapply (@js_run_invariant EVALUATION_SCRIPT_URL arguments_limit P
                js_sessions_off);
        [| |exact Hok|exact Hrun].
      - intros x a x' o. apply js_urls_step.
      - unfold P. simpl. split; [reflexivity|].
        split; [intros event []|intros k u Hk; discriminate]. }
    destruct HP as (Hoff & _ & Hurls).
    destruct (@js_report_In arguments_limit (JS.collector w) profileResponse
                coverage e Hreport He) as (entry & _ & Hentry).
    apply js_pushed_cases in Hentry.
    destruct Hentry as (_ & _ & _ & _ & [(Hon & _)|(Hu & _)]).
    + congruence.
    + eapply Hurls. exact Hu.
Qed.

Lemma js_report_urls_witness :
  JS.url (JS.mkCoverageEntry "old.js" [mkRange 0 3] "g()" None)%string
  <> ""%string.
Proof.
  apply (proj2 (js_report_urls example_evaluation_url example_arguments_limit)
           example_js_quiet_actions
           (fst (example_js_run example_js_quiet_actions))
           (snd (example_js_run example_js_quiet_actions))
           example_profile_456
           [JS.mkCoverageEntry "old.js" [mkRange 0 3] "g()" None]%string);
    [vm_compute; reflexivity|reflexivity|vm_compute; reflexivity
    |left; reflexivity].
Defined.


(** ** The two maps of the JS collector *)

Lemma js_together_step (EVALUATION_SCRIPT_URL : string) (arguments_limit : Z)
  (w : JS.World) (a : JS.Action) (w' : JS.World) (o : JS.Observation) :
  JSMap.keys (JS._scriptURLs (JS.collector w))
  = JSMap.keys (JS._scriptSources (JS.collector w)) ->
  JS.step EVALUATION_SCRIPT_URL arguments_limit w a = Some (w', o) ->
  JSMap.keys (JS._scriptURLs (JS.collector w'))
  = JSMap.keys (JS._scriptSources (JS.collector w')).
Proof.
  intros Hk Hs.
  destruct a as [options settled|event|event response| | |settled];
    simpl in Hs.
  - destruct (JS.start (JS.collector w) options settled) as [outcome this] eqn:E.
    inversion Hs; subst; simpl.
    pose proof (js_start_cases (JS.collector w) options settled) as Hc.
    rewrite E in Hc. simpl in Hc.
    destruct Hc as [-> | ->]; [assumption|reflexivity].
  - destruct (JS._onScriptParsed_sends _ (JS.collector w) event);
      inversion Hs; subst; assumption.
  - destruct (existsb (JS.event_eqb event) (JS.fetching w)); [|discriminate].
    inversion Hs; subst; simpl.
    destruct response; simpl; [|assumption].
    apply keys_set_together. assumption.
  - inversion Hs; subst; simpl. unfold JS._onExecutionContextsCleared.
    destruct (negb (JS._resetOnNavigation (JS.collector w)));
      [assumption|reflexivity].
  - unfold JS.stop_begin in Hs.
    destruct (JS._enabled (JS.collector w)); simpl in Hs;
      inversion Hs; subst; assumption.
  - destruct (JS.stopping w); [discriminate|].
    destruct settled; simpl in Hs; inversion Hs; subst; assumption.
Qed.

(** X11.  In every state a new JS collector can come to, the URL map and
    the text map have the same keys in the same order; so a protocol
    result is left out of the report exactly when its script has no
    registered text. *)
Theorem js_maps_together (EVALUATION_SCRIPT_URL : string)
  (arguments_limit : Z)
  (actions : list JS.Action) (w : JS.World) (obs : list JS.Observation) :
  JS.run EVALUATION_SCRIPT_URL arguments_limit JS.fresh actions
  = Some (w, obs) ->
  JSMap.keys (JS._scriptURLs (JS.collector w))
  = JSMap.keys (JS._scriptSources (JS.collector w))
  /\ forall entry,
       JS.stop_entry arguments_limit (JS.collector w) [] entry = Return []
       <-> JSMap.get (JS._scriptSources (JS.collector w))
             (JS.entry_scriptId entry) = None.
Proof.
  intros Hrun.
  assert (Hkeys : JSMap.keys (JS._scriptURLs (JS.collector w))
                  = JSMap.keys (JS._scriptSources (JS.collector w))).
  { eapply (@js_run_invariant EVALUATION_SCRIPT_URL arguments_limit
              (fun x => JSMap.keys (JS._scriptURLs (JS.collector x))
                        = JSMap.keys (JS._scriptSources (JS.collector x)))
              (fun _ => true));
      [| |apply forallb_true|exact Hrun].
    - intros x a x' o Hx _. apply js_together_step. exact Hx.
    - reflexivity. }
  split; [exact Hkeys|].
  intros entry. split.
  - intros Hskip.
    destruct (JSMap.get (JS._scriptSources (JS.collector w))
                (JS.entry_scriptId entry)) as [text|] eqn:Et; [|reflexivity].
    exfalso.
    assert (Hin : In (JS.entry_scriptId entry)
                    (JSMap.keys (JS._scriptURLs (JS.collector w)))).
    { rewrite Hkeys. apply get_keys. eauto. }
    apply get_keys in Hin. destruct Hin as [u Hu].
    unfold JS.stop_entry, JSArray.push in Hskip. rewrite Et, Hu in Hskip.
    destruct (negb (truthy_opt (Some u))
              && JS._reportAnonymousScripts (JS.collector w));
      destruct (JS.flatten arguments_limit entry);
      destruct (negb (JS._includeRawScriptCoverage (JS.collector w)));
      discriminate.
  - intros Hnone. apply js_missing_skipped. unfold js_missing.
    rewrite Hnone. reflexivity.
Qed.

Lemma js_maps_together_witness :
  JSMap.keys
    (JS._scriptURLs
       (JS.collector
          (fst (example_js_run (example_js_actions ++ example_js_after)))))
  = ["4"; "6"]%string
  /\ JSMap.keys
       (JS._scriptSources
          (JS.collector
             (fst (example_js_run (example_js_actions ++ example_js_after)))))
     = ["4"; "6"]%string.
Proof.
  pose proof
    (proj1 (@js_maps_together example_evaluation_url example_arguments_limit
              (example_js_actions ++ example_js_after)
              (fst (example_js_run (example_js_actions ++ example_js_after)))
              (snd (example_js_run (example_js_actions ++ example_js_after)))
              eq_refl)) as H.
  split; [reflexivity|]. rewrite <- H. reflexivity.
Defined.

(** ** The sheets of a CSS report *)

Lemma keys_set_In {V : Type} (m : JSMap.t V) (k k' : string) (v : V) :
  In k' (JSMap.keys (JSMap.set m k v)) <-> k' = k \/ In k' (JSMap.keys m).
Proof.
  unfold JSMap.keys. induction m as [|[k0 v0] rest IH]; simpl.
  - intuition.
  - destruct (String.eqb k0 k) eqn:E; simpl.
    + apply String.eqb_eq in E. subst k0. intuition.
    + rewrite IH. intuition.
Qed.

Lemma keys_set_NoDup {V : Type} (m : JSMap.t V) (k : string) (v : V) :
  NoDup (JSMap.keys m) -> NoDup (JSMap.keys (JSMap.set m k v)).
Proof.
  induction m as [|[k0 v0] rest IH]; simpl; intros Hnd.
  - constructor; [intros []|constructor].
  - inversion Hnd as [|? ? Hnot Hrest]; subst.
    destruct (String.eqb k0 k) eqn:E; simpl.
    + constructor; assumption.
    + apply String.eqb_neq in E. constructor; [|apply IH; assumption].
      intros Hin. apply (keys_set_In rest k k0 v) in Hin.
      destruct Hin as [Hin|Hin]; [congruence|contradiction].
Qed.

Lemma css_once_step (w : CSS.World) (a : CSS.Action) (w' : CSS.World)
  (o : CSS.Observation) :
  NoDup (JSMap.keys (CSS._stylesheetURLs (CSS.collector w))) ->
  CSS.step w a = Some (w', o) ->
  NoDup (JSMap.keys (CSS._stylesheetURLs (CSS.collector w'))).
Proof.
  intros Hk Hs.
  destruct a as [options settled|event|event response| | |tracking disabled];
    simpl in Hs.
  - destruct (CSS.start (CSS.collector w) options settled)
      as [outcome this] eqn:E.
    inversion Hs; subst; simpl.
    pose proof (css_start_cases (CSS.collector w) options settled) as Hc.
    rewrite E in Hc. simpl in Hc.
    destruct Hc as [-> | [reset ->]]; [assumption|constructor].
  - destruct (CSS._onStyleSheet_sends (CSS.collector w) event);
      inversion Hs; subst; assumption.
  - destruct (existsb (CSS.event_eqb event) (CSS.fetching w)); [|discriminate].
    inversion Hs; subst; simpl.
    destruct response; simpl; [|assumption].
    apply keys_set_NoDup. assumption.
  - inversion Hs; subst; simpl. unfold CSS._onExecutionContextsCleared.
    destruct (negb (CSS._resetOnNavigation (CSS.collector w)));
      [assumption|constructor].
  - unfold CSS.stop_begin in Hs.
    destruct (CSS._enabled (CSS.collector w)); simpl in Hs;
      inversion Hs; subst; assumption.
  - destruct (CSS.stopping w); [discriminate|].
    destruct tracking; simpl in Hs;
      [destruct disabled; simpl in Hs|]; inversion Hs; subst; assumption.
Qed.

(** X12.  In every state a new CSS collector can come to, no sheet is
    registered twice, however often its text arrived; so a report has
    exactly one entry for each registered sheet. *)
Theorem css_sheets_once (actions : list CSS.Action) (w : CSS.World)
  (obs : list CSS.Observation) :
  CSS.run CSS.fresh actions = Some (w, obs) ->
  NoDup (JSMap.keys (CSS._stylesheetURLs (CSS.collector w)))
  /\ forall tracking coverage,
       css_report (CSS.collector w) tracking = Return coverage ->
       List.length coverage
       = List.length (JSMap.keys (CSS._stylesheetURLs (CSS.collector w))).
Proof.
  intros Hrun. split.
  - eapply (@css_run_invariant
              (fun x => NoDup (JSMap.keys (CSS._stylesheetURLs (CSS.collector x))))
              (fun _ => true));
      [| |apply forallb_true|exact Hrun].
    + intros x a x' o Hx _. apply css_once_step. exact Hx.
    + constructor.
  - intros tracking coverage Hreport. rewrite css_report_map in Hreport.
    inversion Hreport. apply length_map.
Qed.

Lemma css_sheets_once_witness :
  NoDup
    (JSMap.keys
       (CSS._stylesheetURLs
          (CSS.collector
             (fst (example_css_run
                     (example_css_actions ++ example_css_after
                        ++ tl example_css_actions)))))).
Proof.
  exact (proj1
    (@css_sheets_once
       (example_css_actions ++ example_css_after ++ tl example_css_actions)
       (fst (example_css_run
               (example_css_actions ++ example_css_after
                  ++ tl example_css_actions)))
       (snd (example_css_run
               (example_css_actions ++ example_css_after
                  ++ tl example_css_actions)))
       eq_refl)).
Defined.

Lemma cold_usage_no_range (styleSheetId : string)
  (tracking : CSS.RuleTrackingResponse) :
  (forall rule,
      In rule (CSS.ruleUsage tracking) ->
      CSS.rule_styleSheetId rule = styleSheetId -> CSS.used rule = false) ->
  convertToDisjointRanges (usage_of styleSheetId tracking) = [].
Proof.
  intros Hunused.
  unfold convertToDisjointRanges, sweep.
  rewrite scan_cold; [reflexivity| |constructor].
  apply Forall_forall. intros q Hq. apply sorted_points_In in Hq.
  assert (Hcold : forall r, In r (usage_of styleSheetId tracking) ->
                            count r <= 0).
  { intros r Hr. unfold usage_of in Hr. apply in_map_iff in Hr.
    destruct Hr as (rule & <- & Hrule). apply filter_In in Hrule.
    destruct Hrule as [Hin Hid]. apply String.eqb_eq in Hid.
    simpl. rewrite (Hunused rule Hin Hid). lia. }
  destruct Hq as (r & Hr & [->| ->]); simpl; auto.
Qed.

(** X13.  A registered sheet none of whose rules was used is reported by
    [stop] with an empty list of ranges: the report [stop] returns has an
    entry with the URL and the text registered for the sheet and no
    range. *)
Theorem css_unused_sheet (this : CSS.t) (tracking : CSS.RuleTrackingResponse)
  (styleSheetId : string) :
  CSS._enabled this = true ->
  In styleSheetId (JSMap.keys (CSS._stylesheetURLs this)) ->
  (forall rule,
      In rule (CSS.ruleUsage tracking) ->
      CSS.rule_styleSheetId rule = styleSheetId -> CSS.used rule = false) ->
  exists coverage e,
    fst (CSS.stop this (Return tracking) (Return tt)) = Return coverage
    /\ css_report this tracking = Return coverage
    /\ In e coverage
    /\ CSS.url e = JSMap.get (CSS._stylesheetURLs this) styleSheetId
    /\ CSS.text e = JSMap.get (CSS._stylesheetSources this) styleSheetId
    /\ CSS.ranges e = [].
Proof.
  intros Hon Hkey Hunused.
  exists (map (css_entry this tracking) (JSMap.keys (CSS._stylesheetURLs this))),
         (css_entry this tracking styleSheetId).
  split; [|split; [apply css_report_map|split; [|split; [|split]]]].
  - unfold CSS.stop, CSS.stop_begin. rewrite Hon. simpl.
    pose proof (css_report_map
                  (CSS.mk false (CSS._stylesheetURLs this)
                     (CSS._stylesheetSources this) (CSS._eventListeners this)
                     (CSS._resetOnNavigation this)
                     (CSS._reportAnonymousScripts this)) tracking) as H.
    exact H.
  - apply in_map. exact Hkey.
  - reflexivity.
  - reflexivity.
  - unfold css_entry. simpl. apply cold_usage_no_range. exact Hunused.
Qed.

Lemma css_unused_sheet_witness :
  exists coverage e,
    fst (CSS.stop (CSS.collector (fst (example_css_run example_css_actions)))
           (Return
              (CSS.mkRuleTrackingResponse
                 [CSS.mkRuleUsage "3" 0 9 false; CSS.mkRuleUsage "9" 0 5 true;
                  CSS.mkRuleUsage "3" 12 20 false]%string))
           (Return tt))
    = Return coverage
    /\ In e coverage
    /\ CSS.url e = Some "old.css"%string
    /\ CSS.text e = Some "p{}"%string
    /\ CSS.ranges e = [].
Proof.
  destruct (@css_unused_sheet
              (CSS.collector (fst (example_css_run example_css_actions)))
              (CSS.mkRuleTrackingResponse
                 [CSS.mkRuleUsage "3" 0 9 false; CSS.mkRuleUsage "9" 0 5 true;
                  CSS.mkRuleUsage "3" 12 20 false]%string)
              "3"%string eq_refl (or_introl eq_refl))
    as (coverage & e & Hstop & _ & Hin & Hurl & Htext & Hranges).
  - intros rule [<-|[<-|[<-|[]]]]; simpl; intros H;
      [reflexivity|discriminate|reflexivity].
  - exists coverage, e. repeat split; assumption.
Defined.

(* ================================================================== *)
(** * Properties of the response *)
(* ================================================================== *)

Lemma units_eqb_eq (a b : HR.JSString) : HR.units_eqb a b = true <-> a = b.
Proof.
  revert b. induction a as [|x a IH]; intros [|y b]; simpl;
    try (split; [discriminate|discriminate]); [tauto|].
  rewrite andb_true_iff, Z.eqb_eq, IH. split.
  - intros [-> ->]. reflexivity.
  - intros H. inversion H. auto.
Qed.

Lemma units_eqb_refl (a : HR.JSString) : HR.units_eqb a a = true.
Proof. apply units_eqb_eq. reflexivity. Qed.

(** ** The headers *)

Section Headers.

Variable P : HR.Platform.

Lemma lower_headers_snoc (headers : list (HR.JSString * HR.JSString))
  (key value : HR.JSString) :
  HR.lower_headers P (headers ++ [(key, value)])
  = HR.assign (HR.proto_accessor P) (HR.lower_headers P headers)
      (HR.toLowerCase P key) value.
Proof.
  unfold HR.lower_headers. rewrite fold_left_app. reflexivity.
Qed.

Lemma lower_headers_names (headers : list (HR.JSString * HR.JSString))
  (name : HR.JSString) :
  HR.lower_headers P headers name <> None ->
  exists key value,
    In (key, value) headers /\ name = HR.toLowerCase P key.
Proof.
  induction headers as [|[key value] headers IH] using rev_ind.
  - intros H. exfalso. apply H. reflexivity.
  - rewrite lower_headers_snoc. unfold HR.assign.
    assert (Hold : HR.lower_headers P headers name <> None ->
                   exists k v,
                     In (k, v) (headers ++ [(key, value)])
                     /\ name = HR.toLowerCase P k).
    { intros H. destruct (IH H) as (k & v & Hin & Hk).
      exists k, v. split; [apply in_or_app; left; exact Hin|exact Hk]. }
    destruct (HR.proto_accessor P
              && HR.units_eqb (HR.toLowerCase P key) HR.proto);
      [exact Hold|].
    destruct (HR.units_eqb name (HR.toLowerCase P key)) eqn:E; [|exact Hold].
    intros _. apply units_eqb_eq in E. exists key, value.
    split; [apply in_or_app; right; left; reflexivity|exact E].
Qed.

Lemma lower_headers_no_proto (headers : list (HR.JSString * HR.JSString)) :
  HR.proto_accessor P = true -> HR.lower_headers P headers HR.proto = None.
Proof.
  intros Hacc. induction headers as [|[key value] headers IH] using rev_ind.
  - reflexivity.
  - rewrite lower_headers_snoc. unfold HR.assign. rewrite Hacc. simpl.
    destruct (HR.units_eqb (HR.toLowerCase P key) HR.proto) eqn:E;
      [exact IH|].
    destruct (HR.units_eqb HR.proto (HR.toLowerCase P key)) eqn:E';
      [|exact IH].
    apply units_eqb_eq in E'. rewrite <- E', units_eqb_refl in E.
    discriminate.
Qed.

Lemma lower_headers_last (after : list (HR.JSString * HR.JSString)) :
  forall (before : list (HR.JSString * HR.JSString)) (key value : HR.JSString),
    Forall (fun kv => HR.toLowerCase P (fst kv) <> HR.toLowerCase P key)
      after ->
    HR.proto_accessor P = false \/ HR.toLowerCase P key <> HR.proto ->
    HR.lower_headers P (before ++ (key, value) :: after)
      (HR.toLowerCase P key)
    = Some value.
Proof.
  induction after as [|[k v] after IH] using rev_ind;
    intros before key value Hafter Hkept.
  - rewrite lower_headers_snoc. unfold HR.assign.
    assert (E : HR.proto_accessor P
                && HR.units_eqb (HR.toLowerCase P key) HR.proto = false).
    { destruct Hkept as [->|Hne]; [reflexivity|].
      apply andb_false_iff. right.
      destruct (HR.units_eqb (HR.toLowerCase P key) HR.proto) eqn:E;
        [|reflexivity].
      apply units_eqb_eq in E. contradiction. }
    rewrite E, units_eqb_refl. reflexivity.
  - apply Forall_app in Hafter. destruct Hafter as [Hafter Hlast].
    inversion Hlast as [|? ? Hne _]; subst. simpl in Hne.
    replace (before ++ (key, value) :: after ++ [(k, v)])
      with ((before ++ (key, value) :: after) ++ [(k, v)])
      by (rewrite <- app_assoc; reflexivity).
    rewrite lower_headers_snoc. unfold HR.assign.
    destruct (HR.proto_accessor P
              && HR.units_eqb (HR.toLowerCase P k) HR.proto);
      [apply IH; assumption|].
    destruct (HR.units_eqb (HR.toLowerCase P key) (HR.toLowerCase P k)) eqn:E.
    + apply units_eqb_eq in E. congruence.
    + apply IH; assumption.
Qed.

End Headers.

(** X14.  The own properties of the object [headers()] returns come from
    the headers of the extra info when there is one, of the payload
    otherwise, under their lower-cased names.  Every own property has the
    lower-cased name of a header read.  A header is an own property under
    its lower-cased name, with its own value, unless a later header has the
    same lower-cased name, or that name is [__proto__] and
    [Object.prototype] has its accessor: then the object has no own
    property [__proto__], whatever the headers. *)
Theorem response_headers_lowered (P : HR.Platform) (request : HR.Request P)
  (payload : HR.ResponsePayload P) (extraInfo : option HR.ExtraInfo) :
  (forall name,
      HR._headers (HR.new request payload extraInfo) name <> None ->
      exists key value,
        In (key, value) (response_headers payload extraInfo)
        /\ name = HR.toLowerCase P key)
  /\ (forall before key value after,
        response_headers payload extraInfo = before ++ (key, value) :: after ->
        Forall (fun kv => HR.toLowerCase P (fst kv) <> HR.toLowerCase P key)
          after ->
        HR.proto_accessor P = false \/ HR.toLowerCase P key <> HR.proto ->
        HR._headers (HR.new request payload extraInfo) (HR.toLowerCase P key)
        = Some value)
  /\ (HR.proto_accessor P = true ->
      HR._headers (HR.new request payload extraInfo) HR.proto = None).
Proof.
  assert (E : HR._headers (HR.new request payload extraInfo)
              = HR.lower_headers P (response_headers payload extraInfo))
    by (destruct extraInfo; reflexivity).
  rewrite E. split; [|split].
  - apply lower_headers_names.
  - intros before key value after -> Hafter Hkept.
    apply lower_headers_last; assumption.
  - apply lower_headers_no_proto.
Qed.

Lemma response_headers_lowered_witness :
  HR._headers (HR.new example_request example_payload (Some example_extra))
    (HR.units "set-cookie")
  = Some (HR.units "b=2")
  /\ HR._headers (HR.new example_request example_payload (Some example_extra))
       (HR.units "content-type")
     = Some (HR.units "text/plain")
  /\ HR._headers (HR.new example_request example_proto_payload None)
       (HR.units "tostring")
     = Some (HR.units "y")
  /\ HR._headers (HR.new example_request example_proto_payload None)
       (HR.units "__proto__")
     = None.
Proof.
  destruct (@response_headers_lowered example_platform example_request
              example_payload (Some example_extra)) as [_ [H _]].
  destruct (@response_headers_lowered example_platform example_request
              example_proto_payload None) as [_ [H' Hproto]].
  split; [|split; [|split]].
  - apply (H [(HR.units "Set-Cookie", HR.units "a=1");
              (HR.units "Content-Type", HR.units "text/plain")]
             (HR.units "set-cookie") (HR.units "b=2") []);
      [reflexivity|constructor|right; vm_compute; discriminate].
  - apply (H [(HR.units "Set-Cookie", HR.units "a=1")]
             (HR.units "Content-Type") (HR.units "text/plain")
             [(HR.units "set-cookie", HR.units "b=2")]);
      [reflexivity| |right; vm_compute; discriminate].
    constructor; [|constructor]. vm_compute. discriminate.
  - apply (H' [(HR.units "__proto__", HR.units "x")]
             (HR.units "ToString") (HR.units "y") []);
      [reflexivity|constructor|right; vm_compute; discriminate].
  - apply Hproto. reflexivity.
Defined.

(** ** The status text *)

Lemma before_cr_app (a rest : HR.JSString) :
  Forall (fun c => c <> 13) a -> HR.before_cr (a ++ 13 :: rest) = a.
Proof.
  induction 1 as [|c a Hc Ha IH]; simpl.
  - reflexivity.
  - apply Z.eqb_neq in Hc. rewrite Hc, IH. reflexivity.
Qed.

Lemma after_space_app (a rest : HR.JSString) :
  Forall (fun c => c <> 32) a -> HR.after_space (a ++ 32 :: rest) = Some rest.
Proof.
  induction 1 as [|c a Hc Ha IH]; simpl.
  - reflexivity.
  - apply Z.eqb_neq in Hc. rewrite Hc, IH. reflexivity.
Qed.

Lemma after_space_inv (s rest : HR.JSString) :
  HR.after_space s = Some rest ->
  exists a, s = a ++ 32 :: rest /\ Forall (fun c => c <> 32) a.
Proof.
  induction s as [|c s IH]; simpl; [discriminate|].
  destruct (c =? 32) eqn:E.
  - intros H. inversion H; subst. apply Z.eqb_eq in E. subst c.
    exists []. split; [reflexivity|constructor].
  - intros H. destruct (IH H) as (a & -> & Ha). apply Z.eqb_neq in E.
    exists (c :: a). split; [reflexivity|constructor; assumption].
Qed.

Lemma dots_all (s : HR.JSString) :
  Forall (fun c => HR.line_terminator c = false) s -> HR.dots s = s.
Proof.
  induction 1 as [|c s Hc Hs IH]; simpl; [reflexivity|].
  rewrite Hc, IH. reflexivity.
Qed.

Lemma dots_inv (s : HR.JSString) :
  Forall (fun c => HR.line_terminator c = false) (HR.dots s)
  /\ exists tail,
       s = HR.dots s ++ tail
       /\ (tail = []
           \/ exists c tail', tail = c :: tail' /\ HR.line_terminator c = true).
Proof.
  induction s as [|c s (IH1 & tail & IH2 & IH3)]; simpl.
  - split; [constructor|]. exists []. auto.
  - destruct (HR.line_terminator c) eqn:E.
    + split; [constructor|]. exists (c :: s). split; [reflexivity|].
      right. eauto.
    + split; [constructor; assumption|]. exists tail.
      split; [simpl; f_equal; exact IH2|exact IH3].
Qed.

Lemma parse_of_line (extraInfo : HR.ExtraInfo)
  (text line statusText : HR.JSString) :
  HR.headersText extraInfo = Some text -> text <> [] ->
  HR.before_cr text = line -> line <> [] ->
  HR.match_status line = Some statusText -> statusText <> [] ->
  HR._parseStatusTextFromExtrInfo (Some extraInfo) = Some statusText.
Proof.
  intros Htext Hne Hline Hne' Hm Hne''.
  unfold HR._parseStatusTextFromExtrInfo. rewrite Htext.
  destruct text as [|c text]; [contradiction|]. rewrite Hline.
  destruct line as [|c' line]; [contradiction|]. rewrite Hm.
  destruct statusText; [contradiction|reflexivity].
Qed.

(** X15.  The status text of a status line is recovered: when the headers
    text starts with a protocol version and a status code free of spaces
    and carriage returns, a non-empty reason phrase free of line
    terminators and a carriage return, the response has that reason phrase
    as its status text, whatever the payload says. *)
Theorem status_text_recovered (P : HR.Platform) (request : HR.Request P)
  (payload : HR.ResponsePayload P) (extraInfo : HR.ExtraInfo)
  (version code text rest : HR.JSString) :
  Forall (fun c => c <> 32 /\ c <> 13) version ->
  Forall (fun c => c <> 32 /\ c <> 13) code ->
  text <> [] ->
  Forall (fun c => HR.line_terminator c = false) text ->
  HR.headersText extraInfo
  = Some (version ++ 32 :: code ++ 32 :: text ++ 13 :: rest) ->
  HR._statusText (HR.new request payload (Some extraInfo)) = text.
Proof.
  intros Hv Hc Hne Ht Htext.
  assert (Hline : Forall (fun c => c <> 13)
                    (version ++ 32 :: code ++ 32 :: text)).
  { apply Forall_app. split.
    - eapply Forall_impl; [|exact Hv]. simpl. tauto.
    - constructor; [lia|]. apply Forall_app. split.
      + eapply Forall_impl; [|exact Hc]. simpl. tauto.
      + constructor; [lia|]. eapply Forall_impl; [|exact Ht].
        intros c E Hc13. subst c. discriminate. }
  assert (Hparse : HR._parseStatusTextFromExtrInfo (Some extraInfo)
                   = Some text).
  { apply (@parse_of_line extraInfo
             (version ++ 32 :: code ++ 32 :: text ++ 13 :: rest)
             (version ++ 32 :: code ++ 32 :: text) text).
    - exact Htext.
    - destruct version; discriminate.
    - replace (version ++ 32 :: code ++ 32 :: text ++ 13 :: rest)
        with ((version ++ 32 :: code ++ 32 :: text) ++ 13 :: rest)
        by (rewrite <- app_assoc; simpl; rewrite <- app_assoc; reflexivity).
      apply before_cr_app. exact Hline.
    - destruct version; discriminate.
    - unfold HR.match_status.
      rewrite after_space_app
        by (eapply Forall_impl; [|exact Hv]; simpl; tauto).
      rewrite after_space_app
        by (eapply Forall_impl; [|exact Hc]; simpl; tauto).
      rewrite dots_all by exact Ht. reflexivity.
    - exact Hne. }
  change (HR._statusText (HR.new request payload (Some extraInfo)))
    with (match HR._parseStatusTextFromExtrInfo (Some extraInfo) with
          | Some statusText => statusText
          | None => HR.payload_statusText payload
          end).
  rewrite Hparse. reflexivity.
Qed.

Lemma status_text_recovered_witness :
  HR._statusText (HR.new example_request example_payload (Some example_extra))
  = HR.units "Not Found".
Proof.
  apply (@status_text_recovered example_platform example_request
           example_payload example_extra
           (HR.units "HTTP/1.1") (HR.units "404") (HR.units "Not Found")
           (10 :: HR.units "Set-Cookie: a=1")).
  - repeat constructor; discriminate.
  - repeat constructor; discriminate.
  - discriminate.
  - repeat constructor.
  - reflexivity.
Defined.

Lemma dots_app (phrase tail : HR.JSString) :
  Forall (fun c => HR.line_terminator c = false) phrase ->
  (tail = []
   \/ exists c tail', tail = c :: tail' /\ HR.line_terminator c = true) ->
  HR.dots (phrase ++ tail) = phrase.
Proof.
  intros Hphrase Htail. induction Hphrase as [|c phrase Hc Hp IH]; simpl.
  - destruct Htail as [->|(c & tail' & -> & Hc)]; [reflexivity|].
    simpl. rewrite Hc. reflexivity.
  - rewrite Hc, IH. reflexivity.
Qed.

(** X16.  Where the status text of a response comes from.  When the first
    line of the headers text is a run without space, a space, a second run
    without space, a space, and then a non-empty run of characters other
    than line terminators that ends the line or stops at a line terminator,
    the status text is that last run, whatever the payload says.  In every
    other case it is the payload's: a status text that is not the payload's
    is such a run of such a first line.  Without extra info it is always the
    payload's. *)
Theorem status_text_source (P : HR.Platform) (request : HR.Request P)
  (payload : HR.ResponsePayload P) (extraInfo : option HR.ExtraInfo) :
  (forall extra text version code phrase tail,
      extraInfo = Some extra ->
      HR.headersText extra = Some text ->
      HR.before_cr text = version ++ 32 :: code ++ 32 :: phrase ++ tail ->
      Forall (fun c => c <> 32) version ->
      Forall (fun c => c <> 32) code ->
      phrase <> [] ->
      Forall (fun c => HR.line_terminator c = false) phrase ->
      (tail = []
       \/ exists c tail', tail = c :: tail' /\ HR.line_terminator c = true) ->
      HR._statusText (HR.new request payload extraInfo) = phrase)
  /\ (HR._statusText (HR.new request payload extraInfo)
      = HR.payload_statusText payload
      \/ exists extra text version code tail,
           extraInfo = Some extra
           /\ HR.headersText extra = Some text
           /\ HR.before_cr text
              = version ++ 32 :: code ++ 32
                  :: HR._statusText (HR.new request payload extraInfo) ++ tail
           /\ Forall (fun c => c <> 32) version
           /\ Forall (fun c => c <> 32) code
           /\ HR._statusText (HR.new request payload extraInfo) <> []
           /\ Forall (fun c => HR.line_terminator c = false)
                (HR._statusText (HR.new request payload extraInfo))
           /\ (tail = []
               \/ exists c tail',
                    tail = c :: tail' /\ HR.line_terminator c = true))
  /\ (extraInfo = None ->
      HR._statusText (HR.new request payload extraInfo)
      = HR.payload_statusText payload).
Proof.
  split; [|split; [|intros ->; reflexivity]].
  - intros extra text version code phrase tail -> Htext Hline Hv Hc Hne Hp Htail.
    assert (Hparse : HR._parseStatusTextFromExtrInfo (Some extra)
                     = Some phrase).
    { apply (@parse_of_line extra text (HR.before_cr text) phrase).
      - exact Htext.
      - intros ->. simpl in Hline. destruct version; discriminate.
      - reflexivity.
      - rewrite Hline. destruct version; discriminate.
      - rewrite Hline. unfold HR.match_status.
        rewrite after_space_app by exact Hv.
        rewrite after_space_app by exact Hc.
        rewrite dots_app by assumption. reflexivity.
      - exact Hne. }
    change (HR._statusText (HR.new request payload (Some extra)))
      with (match HR._parseStatusTextFromExtrInfo (Some extra) with
            | Some statusText => statusText
            | None => HR.payload_statusText payload
            end).
    rewrite Hparse. reflexivity.
  - change (HR._statusText (HR.new request payload extraInfo))
      with (match HR._parseStatusTextFromExtrInfo extraInfo with
            | Some statusText => statusText
            | None => HR.payload_statusText payload
            end).
    destruct (HR._parseStatusTextFromExtrInfo extraInfo) as [statusText|] eqn:E;
      [right|left; reflexivity].
    unfold HR._parseStatusTextFromExtrInfo in E.
    destruct extraInfo as [extra|]; [|discriminate].
    destruct (HR.headersText extra) as [text|] eqn:Et; [|discriminate].
    destruct text as [|c0 text0] eqn:Etext; [discriminate|].
    rewrite <- Etext in *.
    destruct (HR.before_cr text) as [|c1 line] eqn:El; [discriminate|].
    rewrite <- El in *.
    destruct (HR.match_status (HR.before_cr text)) as [m|] eqn:Em;
      [|discriminate].
    destruct m as [|c2 m]; [discriminate|]. inversion E; subst statusText.
    unfold HR.match_status in Em.
    destruct (HR.after_space (HR.before_cr text)) as [r1|] eqn:E1;
      [|discriminate].
    destruct (HR.after_space r1) as [r2|] eqn:E2; [|discriminate].
    inversion Em as [Hd].
    apply after_space_inv in E1. destruct E1 as (version & Hline & Hv).
    apply after_space_inv in E2. destruct E2 as (code & -> & Hc).
    destruct (dots_inv r2) as (Hdots & tail & Hr2 & Htail).
    rewrite Hd in Hdots, Hr2.
    exists extra, text, version, code, tail.
    repeat split; try assumption; try reflexivity.
    + rewrite Hline. do 4 f_equal. rewrite Hd. exact Hr2.
    + rewrite Hd. discriminate.
    + rewrite Hd. exact Hdots.
Qed.

Lemma status_text_source_witness :
  HR._statusText (HR.new example_request example_payload (Some example_extra_lf))
  = HR.units "OK"
  /\ HR._statusText (HR.new example_request example_payload None)
     = HR.payload_statusText example_payload.
Proof.
  split.
  - apply (proj1 (@status_text_source example_platform example_request
                    example_payload (Some example_extra_lf))
             example_extra_lf
             (HR.units "HTTP/1.1 200 OK" ++ [10] ++ HR.units "X: y")
             (HR.units "HTTP/1.1") (HR.units "200") (HR.units "OK")
             (10 :: HR.units "X: y")).
    + reflexivity.
    + reflexivity.
    + reflexivity.
    + repeat constructor; discriminate.
    + repeat constructor; discriminate.
    + discriminate.
    + repeat constructor.
    + right. exists 10, (HR.units "X: y"). split; reflexivity.
  - exact (proj2 (proj2 (@status_text_source example_platform example_request
                           example_payload None)) eq_refl).
Defined.

(** ** The body *)

Section Body.

Variable P : HR.Platform.

Lemma body_run_invariant (I : HR.World P -> Prop) :
  (forall w a w', I w -> HR.step w a = Some w' -> I w') ->
  forall actions w w', I w -> HR.run w actions = Some w' -> I w'.
Proof.
  intros Hstep. induction actions as [|a rest IH]; intros w w' HI Hrun.
  - simpl in Hrun. inversion Hrun; subst. exact HI.
  - simpl in Hrun. destruct (HR.step w a) as [w1|] eqn:Hs; [|discriminate].
    eapply IH; [|exact Hrun]. eapply Hstep; eassumption.
Qed.

Lemma body_inv_step (w : HR.World P) (a : HR.Action) (w' : HR.World P) :
  body_inv w -> HR.step w a = Some w' -> body_inv w'.
Proof.
  unfold body_inv. intros Hinv Hs.
  destruct w as [this sends]. simpl in *.
  destruct a as [err| | | | |reply]; simpl in Hs.
  - (* _resolveBody *)
    inversion Hs; subst w'; clear Hs. simpl. unfold HR._resolveBody.
    destruct (HR._bodyLoadedPromise this) as [loaded|] eqn:El;
      [rewrite El; exact Hinv|].
    simpl. destruct (HR._contentPromise this) as [[| |outcome]|];
      try exact Hinv.
    + destruct Hinv as [_ H]. discriminate.
    + destruct Hinv as [[_ H]|(_ & e & H & _)]; discriminate.
  - inversion Hs; subst w'; clear Hs. simpl. unfold HR.arrayBuffer.
    destruct (HR._contentPromise this) as [c|] eqn:Ec;
      [rewrite Ec; exact Hinv|exact Hinv].
  - inversion Hs; subst w'; clear Hs. simpl. unfold HR.arrayBuffer.
    destruct (HR._contentPromise this) as [c|] eqn:Ec;
      [rewrite Ec; exact Hinv|exact Hinv].
  - inversion Hs; subst w'; clear Hs. simpl. unfold HR.arrayBuffer.
    destruct (HR._contentPromise this) as [c|] eqn:Ec;
      [rewrite Ec; exact Hinv|exact Hinv].
  - (* the callback of then *)
    destruct (HR._bodyLoadedPromise this) as [error|] eqn:El; [|discriminate].
    destruct (HR._contentPromise this) as [[| |outcome]|] eqn:Ec;
      try discriminate.
    unfold HR.body_callback in Hs.
    destruct error as [thrown|]; inversion Hs; subst w'; simpl.
    + right. split; [exact Hinv|]. exists thrown. split; reflexivity.
    + split; [congruence|reflexivity].
  - (* the reply *)
    destruct (HR._contentPromise this) as [[| |outcome]|] eqn:Ec;
      try discriminate.
    inversion Hs; subst w'; simpl. left. exact Hinv.
Qed.

Lemma body_inv_run (request : HR.Request P) (payload : HR.ResponsePayload P)
  (extraInfo : option HR.ExtraInfo) (actions : list HR.Action)
  (w : HR.World P) :
  HR.run (new_response request payload extraInfo) actions = Some w ->
  body_inv w.
Proof.
  intros Hrun.
  apply (@body_run_invariant (@body_inv P) body_inv_step actions
           (new_response request payload extraInfo) w); [|exact Hrun].
  unfold body_inv. reflexivity.
Qed.

Lemma settled_step (w : HR.World P) (a : HR.Action) (w' : HR.World P) :
  HR.step w a = Some w' ->
  (forall value,
      HR._bodyLoadedPromise (HR.response w) = Some value ->
      HR._bodyLoadedPromise (HR.response w') = Some value)
  /\ (forall outcome,
        HR._contentPromise (HR.response w) = Some (HR.Done P outcome) ->
        HR._contentPromise (HR.response w') = Some (HR.Done P outcome)).
Proof.
  intros Hs. destruct w as [this sends]. simpl in *.
  destruct a as [err| | | | |reply]; simpl in Hs.
  - inversion Hs; subst w'; clear Hs. simpl. unfold HR._resolveBody.
    destruct (HR._bodyLoadedPromise this) as [loaded|] eqn:El; simpl;
      split; intros x Hx; congruence.
  - inversion Hs; subst w'; clear Hs. simpl. unfold HR.arrayBuffer.
    destruct (HR._contentPromise this) as [c|] eqn:Ec; simpl;
      split; intros x Hx; congruence.
  - inversion Hs; subst w'; clear Hs. simpl. unfold HR.arrayBuffer.
    destruct (HR._contentPromise this) as [c|] eqn:Ec; simpl;
      split; intros x Hx; congruence.
  - inversion Hs; subst w'; clear Hs. simpl. unfold HR.arrayBuffer.
    destruct (HR._contentPromise this) as [c|] eqn:Ec; simpl;
      split; intros x Hx; congruence.
  - destruct (HR._bodyLoadedPromise this) as [error|] eqn:El; [|discriminate].
    destruct (HR._contentPromise this) as [[| |outcome]|] eqn:Ec;
      try discriminate.
    destruct (HR.body_callback error); inversion Hs; subst w'; simpl;
      split; intros x Hx; congruence.
  - destruct (HR._contentPromise this) as [[| |outcome]|] eqn:Ec;
      try discriminate.
    inversion Hs; subst w'; simpl. split; intros x Hx; congruence.
Qed.

End Body.

(** X17.  However often [arrayBuffer], [text] and [json] are called on a
    response, and whatever else happens to it, [Network.getResponseBody] is
    sent at most once, and only after the body was resolved without
    error. *)
Theorem body_fetched_once (P : HR.Platform) (request : HR.Request P)
  (payload : HR.ResponsePayload P) (extraInfo : option HR.ExtraInfo)
  (actions : list HR.Action) (w : HR.World P) :
  HR.run (new_response request payload extraInfo) actions = Some w ->
  (HR.sends w <= 1)%nat
  /\ (HR.sends w = 1%nat ->
      HR._bodyLoadedPromise (HR.response w) = Some None).
Proof.
  intros Hrun. pose proof (@body_inv_run P request payload extraInfo actions w Hrun) as Hinv.
  unfold body_inv in Hinv.
  destruct (HR._contentPromise (HR.response w)) as [[| |outcome]|].
  - rewrite Hinv. split; [lia|discriminate].
  - destruct Hinv as [-> H]. split; [lia|auto].
  - destruct Hinv as [[-> H]|(-> & _)]; split; auto; try lia; discriminate.
  - rewrite Hinv. split; [lia|discriminate].
Qed.

Lemma body_fetched_once_witness :
  (HR.sends (example_body_run example_body_actions) <= 1)%nat.
Proof.
  apply (@body_fetched_once example_platform example_request example_payload
           None example_body_actions).
  reflexivity.
Defined.

(** X18.  When the body of a response was resolved with an error, no
    [Network.getResponseBody] is ever sent for it, and [arrayBuffer] can
    only reject, with that very error. *)
Theorem body_failed_not_fetched (P : HR.Platform) (request : HR.Request P)
  (payload : HR.ResponsePayload P) (extraInfo : option HR.ExtraInfo)
  (actions : list HR.Action) (w : HR.World P) (e : HR.Error) :
  HR.run (new_response request payload extraInfo) actions = Some w ->
  HR._bodyLoadedPromise (HR.response w) = Some (Some e) ->
  HR.sends w = 0%nat
  /\ forall outcome,
       HR._contentPromise (HR.response w) = Some (HR.Done P outcome) ->
       outcome = HR.Rejected e.
Proof.
  intros Hrun Hloaded.
  pose proof (@body_inv_run P request payload extraInfo actions w Hrun) as Hinv.
  unfold body_inv in Hinv.
  destruct (HR._contentPromise (HR.response w)) as [[| |outcome]|].
  - split; [exact Hinv|discriminate].
  - destruct Hinv as [_ H]. congruence.
  - destruct Hinv as [[_ H]|(H0 & e' & He' & ->)]; [congruence|].
    split; [exact H0|]. intros outcome' H. inversion H. congruence.
  - split; [exact Hinv|discriminate].
Qed.

Lemma body_failed_not_fetched_witness :
  HR.sends (example_body_run example_failed_actions) = 0%nat
  /\ forall outcome,
       HR._contentPromise
         (HR.response (example_body_run example_failed_actions))
       = Some (HR.Done example_platform outcome) ->
       outcome = HR.Rejected (HR.OtherError (HR.units "net::ERR_FAILED")).
Proof.
  apply (@body_failed_not_fetched example_platform example_request
           example_payload None example_failed_actions);
    reflexivity.
Defined.

(** X19.  The two promises of a response settle once: what the body was
    first resolved with, and what [arrayBuffer] settled to, are kept
    whatever is called afterwards. *)
Theorem promises_settle_once (P : HR.Platform) (actions : list HR.Action)
  (w w' : HR.World P) :
  HR.run w actions = Some w' ->
  (forall value,
      HR._bodyLoadedPromise (HR.response w) = Some value ->
      HR._bodyLoadedPromise (HR.response w') = Some value)
  /\ (forall outcome,
        HR._contentPromise (HR.response w) = Some (HR.Done P outcome) ->
        HR._contentPromise (HR.response w') = Some (HR.Done P outcome)).
Proof.
  revert w. induction actions as [|a rest IH]; intros w Hrun.
  - simpl in Hrun. inversion Hrun; subst. auto.
  - simpl in Hrun. destruct (HR.step w a) as [w1|] eqn:Hs; [|discriminate].
    destruct (@settled_step P w a w1 Hs) as [H1 H2].
    destruct (IH w1 Hrun) as [H3 H4]. split; auto.
Qed.

Lemma promises_settle_once_witness :
  HR._bodyLoadedPromise
    (HR.response (example_body_run example_body_actions))
  = Some None
  /\ HR._contentPromise
       (HR.response (example_body_run example_body_actions))
     = Some (HR.Done example_platform (HR.Fulfilled (HR.units "{}"))).
Proof.
  destruct (@promises_settle_once example_platform
              (skipn 6 example_body_actions)
              (example_body_run (firstn 6 example_body_actions))
              (example_body_run example_body_actions) eq_refl)
    as [H1 H2].
  split; [apply H1|apply H2]; reflexivity.
Defined.
